(** * Splitting a polyhedral mesh along a fracture: [generate_fractures_2.py]

    A shallow embedding of the mesh-doctor check [generate_fractures_2],
    the properties its specification states about it, and what its
    functions do besides, one by one.

    Conventions of the embedding.
    - Python integers are [Z]; point ids and cell ids are integers.
    - A Python [set] or [frozenset] of integers is a [gset Z].  CPython does
      not specify the order in which a set is iterated; the embedding walks
      [set_iter s], in ascending order.  That order reaches the output in
      three places only: the numbering of the fracture nodes, the order of
      the ids within a row of the surface table, and the order of the
      nodes of the cell-to-cell graph.  The statements below are about
      content, or name the order they depend on.
    - networkx iterates the nodes of a subgraph view in the order of the
      graph or in the order of the set of nodes it was given, by its
      version and by the sizes of the two.  [subgraph] lists them in the
      order of the graph; what is stated about the order in which the
      components around a node are walked is stated for every such order,
      on [identify_split_walk].
    - A [dict] whose insertion order reaches the output is an association
      list; a [dict] whose content alone matters is a [gmap], walked with
      [map_to_list].
    - Exceptions are values of [Exception]; code that may raise lives in the
      monad [Py].
    - Progress bars, [print] and [logging.info] do not touch the data and
      are left out.
    - VTK and networkx are outside the repository: the entry points the
      check calls are modelled after their documented behaviour. *)

From stdpp Require Import gmap strings list fin_maps fin_sets sorting.
From Stdlib Require Import ZArith Lia.

Open Scope Z_scope.

(** ** Exceptions and the [Py] monad *)

Inductive Exception : Type :=
| ValueError (msg : string)
| AssertionError
| IndexError
| KeyError (key : Z)
| AttributeError
| IOError (msg : string).

Inductive Py (A : Type) : Type :=
| Ok (a : A)
| Raise (e : Exception).
Arguments Ok {A} a.
Arguments Raise {A} e.

#[global] Instance Py_ret : MRet Py := λ A a, Ok a.
#[global] Instance Py_bind : MBind Py := λ A B f m,
  match m with
  | Ok a => f a
  | Raise e => Raise e
  end.

(** [for x in l: s = body(s, x)], stopping at the first exception. *)
Fixpoint py_for {S A : Type} (l : list A) (body : S → A → Py S) (s : S) : Py S :=
  match l with
  | [] => Ok s
  | x :: l' => s' ← body s x; py_for l' body s'
  end.

(** [[f(x) for x in l]], stopping at the first exception. *)
Fixpoint mapM_py {A B : Type} (f : A → Py B) (l : list A) : Py (list B) :=
  match l with
  | [] => Ok []
  | x :: l' => y ← f x; ys ← mapM_py f l'; Ok (y :: ys)
  end.

#[global] Instance Py_fmap : FMap Py := λ A B f m,
  match m with
  | Ok a => Ok (f a)
  | Raise e => Raise e
  end.

(** [range(n)] *)
Definition range (n : nat) : list Z := Z.of_nat <$> seq 0 n.

(** [enumerate(l)] *)
Definition enumerate {A : Type} (l : list A) : list (Z * A) :=
  imap (λ i x, (Z.of_nat i, x)) l.

(** Position of an index in a sequence of length [len], as Python and numpy
    resolve it: a negative index counts from the end. *)
Definition py_index (len : nat) (i : Z) : option nat :=
  if decide (0 ≤ i < Z.of_nat len) then Some (Z.to_nat i)
  else if decide (- Z.of_nat len ≤ i < 0) then Some (Z.to_nat (Z.of_nat len + i))
  else None.

(** [a[i]] on a numpy array or a list. *)
Definition getitem {A : Type} (a : list A) (i : Z) : Py A :=
  match py_index (length a) i ≫= (a !!.) with
  | Some x => Ok x
  | None => Raise IndexError
  end.

(** [a[i] = x] on a numpy array or a list. *)
Definition setitem {A : Type} (a : list A) (i : Z) (x : A) : Py (list A) :=
  match py_index (length a) i with
  | Some k => Ok (<[k := x]> a)
  | None => Raise IndexError
  end.

(** ** Insertion-ordered dictionaries *)

(** [d[k]] on a plain [dict]. *)
Fixpoint dict_get {V : Type} (d : list (Z * V)) (k : Z) : option V :=
  match d with
  | [] => None
  | (k', v) :: d' => if decide (k' = k) then Some v else dict_get d' k
  end.

(** [d[k] = f(d[k])] on a [defaultdict] whose factory returns [dflt]: an
    existing key keeps its position, a new key goes last. *)
Fixpoint dd_update {V : Type} (dflt : V) (f : V → V) (d : list (Z * V)) (k : Z)
  : list (Z * V) :=
  match d with
  | [] => [(k, f dflt)]
  | (k', v) :: d' =>
      if decide (k' = k) then (k', f v) :: d' else (k', v) :: dd_update dflt f d' k
  end.

(** [d[k] = v] on a plain [dict]. *)
Definition dict_set {V : Type} (d : list (Z * V)) (k : Z) (v : V) : list (Z * V) :=
  dd_update v (λ _, v) d k.

Definition dict_keys {V : Type} (d : list (Z * V)) : list Z := d.*1.
Definition dict_values {V : Type} (d : list (Z * V)) : list V := d.*2.

(** ** Sets *)

Definition frozenset (l : list Z) : gset Z := list_to_set l.

(** [for x in s] on a set of integers. *)
Definition set_iter (s : gset Z) : list Z := merge_sort Z.le (elements s).

(** ** The VTK mesh *)

Definition VTK_POLYGON : Z := 7.

(** A cell as the check reads it: [GetCellType], [GetPointIds], and for each
    local face index [GetFace(i).GetPointIds()]. *)
Record vtkCell : Type := {
  CellType : Z;
  PointIds : list Z;
  Faces : list (list Z);
}.

Section mesh.

(** Coordinates and attribute tuples are floating-point data that the check
    only copies around. *)
Context {Point DataTuple : Type}.

(** An attribute array: integer tuples ([VTK_ID_TYPE]) or opaque ones. *)
Inductive vtkDataArray : Type :=
| IdTypeArray (tuples : list (list Z))
| DataArray (tuples : list DataTuple).

Record vtkUnstructuredGrid : Type := {
  Points : list Point;
  Cells : list vtkCell;
  CellData : list (string * list Z);
  PointData : list (string * vtkDataArray);
  FieldData : list (string * vtkDataArray);
}.

Definition GetNumberOfCells (mesh : vtkUnstructuredGrid) : nat := length (Cells mesh).
Definition GetNumberOfPoints (mesh : vtkUnstructuredGrid) : nat := length (Points mesh).

(** [mesh.GetCell(cell_id)] for a cell of the mesh.  The check asks for
    the cells of the mesh only; for another id VTK hands back an empty
    cell, which the model does not follow: it raises. *)
Definition GetCell (mesh : vtkUnstructuredGrid) (cell_id : Z) : Py vtkCell :=
  match (if decide (0 ≤ cell_id) then Cells mesh !! Z.to_nat cell_id else None) with
  | Some c => Ok c
  | None => Raise AttributeError
  end.

(** [cell.GetFace(i).GetPointIds()] *)
Definition GetFace (cell : vtkCell) (i : Z) : Py (list Z) :=
  match (if decide (0 ≤ i) then Faces cell !! Z.to_nat i else None) with
  | Some f => Ok f
  | None => Raise AttributeError
  end.

(** [points.GetPoint(p)] *)
Definition GetPoint (points : list Point) (p : Z) : Py Point :=
  match (if decide (0 ≤ p) then points !! Z.to_nat p else None) with
  | Some x => Ok x
  | None => Raise IndexError
  end.

(** [data.GetArray(name)]; [HasArray] is [is_Some] of it. *)
Fixpoint GetArray {T : Type} (data : list (string * T)) (name : string) : option T :=
  match data with
  | [] => None
  | (n, a) :: data' => if decide (n = name) then Some a else GetArray data' name
  end.

(** Does the cell use every point of [ptIds]? *)
Definition uses_points (ptIds : list Z) (cell : vtkCell) : Prop :=
  Forall (λ p, p ∈ PointIds cell) ptIds.

#[global] Instance uses_points_dec ptIds cell : Decision (uses_points ptIds cell).
Proof. unfold uses_points. apply _. Defined.

(** [mesh.GetCellNeighbors(cell_id, ptIds, out)]: the cells other than
    [cell_id] that use all the points of [ptIds]. *)
Definition GetCellNeighbors (mesh : vtkUnstructuredGrid) (cell_id : Z) (ptIds : list Z)
  : list Z :=
  (filter (λ ic, ic.1 ≠ cell_id ∧ uses_points ptIds ic.2) (enumerate (Cells mesh))).*1.

(** ** Fracture detection *)

Record FractureInfo : Type := {
  node_to_cells : list (Z * gset Z);
  face_nodes : list (list Z);
}.

Definition build_node_to_cells (mesh : vtkUnstructuredGrid) (face_nodes : list (list Z))
  : Py (list (Z * gset Z)) :=
  let fracture_nodes : gset Z :=
    fold_left (λ s fns, fold_left (λ s n, {[n]} ∪ s) fns s) face_nodes ∅ in
  py_for (range (GetNumberOfCells mesh))
    (λ node_to_cells cell_id,
       cell ← GetCell mesh cell_id;
       let cell_points := frozenset (PointIds cell) in
       let intersection := cell_points ∩ fracture_nodes in
       Ok (fold_left
             (λ node_to_cells node, dd_update ∅ (λ s, {[cell_id]} ∪ s) node_to_cells node)
             (set_iter intersection) node_to_cells))
    [].

(** First loop of [build_fracture_info]: for each cell whose field value is
    admitted, the local faces across which the neighbour has another
    admitted value. *)
Definition build_cells_to_faces (mesh : vtkUnstructuredGrid) (f : list Z)
    (field_values : gset Z) : Py (list (Z * list Z)) :=
  py_for (range (GetNumberOfCells mesh))
    (λ cells_to_faces cell_id,
       f_cell ← getitem f cell_id;
       if decide (f_cell ∉ field_values) then Ok cells_to_faces
       else
         cell ← GetCell mesh cell_id;
         py_for (range (length (Faces cell)))
           (λ cells_to_faces i,
              face ← GetFace cell i;
              let neighbor_cell_ids := GetCellNeighbors mesh cell_id face in
              if decide (length neighbor_cell_ids < 2)%nat then
                py_for neighbor_cell_ids
                  (λ cells_to_faces neighbor_cell_id,
                     f_neighbor ← getitem f neighbor_cell_id;
                     f_cell ← getitem f cell_id;
                     if decide (f_neighbor ≠ f_cell ∧ f_neighbor ∈ field_values)
                     then Ok (dd_update [] (λ l, l ++ [i]) cells_to_faces cell_id)
                     else Ok cells_to_faces)
                  cells_to_faces
              else Raise AssertionError)
           cells_to_faces)
    [].

(** Second loop: the vertex tuples of the recorded faces, each vertex set
    kept once. *)
Definition extract_face_nodes (mesh : vtkUnstructuredGrid)
    (cells_to_faces : list (Z * list Z)) : Py (list (list Z) * gset (gset Z)) :=
  py_for cells_to_faces
    (λ acc cf,
       cell ← GetCell mesh cf.1;
       py_for cf.2
         (λ '(face_nodes, face_nodes_hashes) face_id,
            fn ← GetFace cell face_id;
            let fnh := frozenset fn in
            if decide (fnh ∉ face_nodes_hashes)
            then Ok (face_nodes ++ [fn], {[fnh]} ∪ face_nodes_hashes)
            else Ok (face_nodes, face_nodes_hashes))
         acc)
    ([], ∅).

Definition missing_field_message (field : string) : string :=
  "Cell field " +:+ field +:+ " does not exist in mesh, nothing done".

Definition build_fracture_info (mesh : vtkUnstructuredGrid) (field : string)
    (field_values : gset Z) : Py FractureInfo :=
  f ← match GetArray (CellData mesh) field with
      | Some a => Ok a
      | None => Raise (ValueError (missing_field_message field))
      end;
  cells_to_faces ← build_cells_to_faces mesh f field_values;
  fh ← extract_face_nodes mesh cells_to_faces;
  node_to_cells ← build_node_to_cells mesh fh.1;
  Ok {| node_to_cells := node_to_cells; face_nodes := fh.1 |}.


End mesh.

(** ** networkx

    A [networkx.Graph] is modelled by the calls that built it.  Its nodes
    are iterated in the order of their first insertion and its adjacency is
    symmetric, whatever the calls were. *)

Inductive GraphOp : Type :=
| AddNode (n : Z)
| AddEdge (u v : Z).

Definition Graph : Type := list GraphOp.

(** Keeps the first occurrence of every element. *)
Fixpoint first_occurrences (l : list Z) : list Z :=
  match l with
  | [] => []
  | x :: l' => x :: filter (λ y, y ≠ x) (first_occurrences l')
  end.

Definition op_nodes (op : GraphOp) : list Z :=
  match op with
  | AddNode n => [n]
  | AddEdge u v => [u; v]
  end.

(** [list(G)]: the nodes, in insertion order. *)
Definition nodes (G : Graph) : list Z := first_occurrences (G ≫= op_nodes).

Definition op_neighbors (x : Z) (op : GraphOp) : list Z :=
  match op with
  | AddNode _ => []
  | AddEdge u v =>
      (if decide (u = x) then [v] else []) ++ (if decide (v = x) then [u] else [])
  end.

(** [G.adj[x]] *)
Definition neighbors (G : Graph) (x : Z) : gset Z := list_to_set (G ≫= op_neighbors x).

Definition add_nodes_from (G : Graph) (ns : list Z) : Graph := G ++ (AddNode <$> ns).

Definition add_edges_from (G : Graph) (es : list (Z * Z)) : Graph :=
  G ++ ((λ e, AddEdge e.1 e.2) <$> es).

(** [G.subgraph(nbunch)]: the graph induced on the nodes of [G] that are in
    [nbunch], its nodes and its adjacency.  The nodes are listed here in
    the order of [G]; networkx iterates the view in that order or in the
    order of the set [nbunch], by its version and by the sizes of the
    two. *)
Definition subgraph (G : Graph) (nbunch : gset Z) : Graph :=
  G ≫= λ op,
    match op with
    | AddNode n => if decide (n ∈ nbunch) then [AddNode n] else []
    | AddEdge u v =>
        if decide (u ∈ nbunch) then
          if decide (v ∈ nbunch) then [AddEdge u v] else [AddNode u]
        else if decide (v ∈ nbunch) then [AddNode v] else []
    end.

(** One level of [_plain_bfs]: the nodes of [thislevel] not seen yet are
    marked and their neighbours form the next level. *)
Definition bfs_level (G : Graph) (thislevel : list Z) (seen : gset Z) : gset Z * gset Z :=
  fold_left
    (λ '(seen, nextlevel) v,
       if decide (v ∈ seen) then (seen, nextlevel)
       else ({[v]} ∪ seen, neighbors G v ∪ nextlevel))
    thislevel (seen, ∅).

(** The [while nextlevel] loop of [_plain_bfs], run for at most [fuel]
    levels. *)
Fixpoint bfs_loop (fuel : nat) (G : Graph) (seen nextlevel : gset Z) : gset Z :=
  match fuel with
  | O => seen
  | S fuel' =>
      if decide (nextlevel = ∅) then seen
      else
        let '(seen', nextlevel') := bfs_level G (set_iter nextlevel) seen in
        bfs_loop fuel' G seen' nextlevel'
  end.

(** [_plain_bfs(G, source)]: a level past the last node always finds an
    empty frontier. *)
Definition plain_bfs (G : Graph) (source : Z) : gset Z :=
  bfs_loop (S (S (length (nodes G)))) G ∅ {[source]}.

(** [for v in G: if v not in seen: c = _plain_bfs(G, v); seen.update(c); yield c] *)
Fixpoint components_from (G : Graph) (vs : list Z) (seen : gset Z) : list (gset Z) :=
  match vs with
  | [] => []
  | v :: vs' =>
      if decide (v ∈ seen) then components_from G vs' seen
      else
        let c := plain_bfs G v in
        c :: components_from G vs' (seen ∪ c)
  end.

(** [networkx.connected_components(G)] *)
Definition connected_components (G : Graph) : list (gset Z) :=
  components_from G (nodes G) ∅.

(** ** The cell-to-cell graph *)

Section graph.

Context {Point DataTuple : Type}.
Abbreviation Mesh := (@vtkUnstructuredGrid Point DataTuple).

(** Insertion-ordered [defaultdict(list)] keyed by a vertex set. *)
Fixpoint face_dict_append (d : list (gset Z * list Z)) (k : gset Z) (cell_id : Z)
  : list (gset Z * list Z) :=
  match d with
  | [] => [(k, [cell_id])]
  | (k', v) :: d' =>
      if decide (k' = k) then (k', v ++ [cell_id]) :: d'
      else (k', v) :: face_dict_append d' k cell_id
  end.

Definition build_cell_to_cell_graph (mesh : Mesh) (fracture : FractureInfo) : Py Graph :=
  let face_hashes : gset (gset Z) := list_to_set (frozenset <$> face_nodes fracture) in
  let cells : gset Z :=
    fold_left (λ cells cell_ids, fold_left (λ cells cell_id, {[cell_id]} ∪ cells)
                                   (set_iter cell_ids) cells)
      (dict_values (node_to_cells fracture)) ∅ in
  face_to_cells ← py_for (set_iter cells)
    (λ face_to_cells cell_id,
       cell ← GetCell mesh cell_id;
       py_for (range (length (Faces cell)))
         (λ face_to_cells face_id,
            face ← GetFace cell face_id;
            let face_hash := frozenset face in
            if decide (face_hash ∉ face_hashes)
            then Ok (face_dict_append face_to_cells face_hash cell_id)
            else Ok face_to_cells)
         face_to_cells)
    [];
  let cell_to_cell := add_nodes_from [] (set_iter cells) in
  Ok (add_edges_from cell_to_cell
        (omap (λ cs, match cs with [a; b] => Some (a, b) | _ => None end)
           face_to_cells.*2)).

End graph.

(** ** The split plan *)

(** The callable [NewIndex] of [__identify_split]. *)
Record NewIndex : Type := {
  current_last_index : Z;
  seen : gset Z;
}.

Definition NewIndex_init (num_nodes : Z) : NewIndex :=
  {| current_last_index := num_nodes - 1; seen := ∅ |}.

Definition NewIndex_call (self : NewIndex) (index : Z) : Z * NewIndex :=
  if decide (index ∈ seen self) then
    (current_last_index self + 1,
     {| current_last_index := current_last_index self + 1; seen := seen self |})
  else
    (index,
     {| current_last_index := current_last_index self; seen := {[index]} ∪ seen self |}).

(** [sorted(node_to_cells.items())]: the keys of a dict are distinct, so
    the pairs are ordered by their node. *)
Definition item_le (a b : Z * gset Z) : Prop := a.1 ≤ b.1.

#[global] Instance item_le_dec a b : Decision (item_le a b).
Proof. unfold item_le. apply _. Defined.

Definition sorted_items (node_to_cells : list (Z * gset Z)) : list (Z * gset Z) :=
  merge_sort item_le node_to_cells.

(** [result[cell][node] = new_index] on a [defaultdict(dict)]. *)
Definition assign (result : gmap Z (gmap Z Z)) (cell node new_index : Z)
  : gmap Z (gmap Z Z) :=
  <[cell := <[node := new_index]> (default ∅ (result !! cell))]> result.

(** Body of the inner loop: one connected component around [node]. *)
Definition split_component (node : Z) (st : NewIndex * gmap Z (gmap Z Z))
    (connected_cells : gset Z) : NewIndex * gmap Z (gmap Z Z) :=
  let '(new_index, build_new_index) := NewIndex_call st.1 node in
  (build_new_index,
   fold_left (λ result cell, assign result cell node new_index)
     (set_iter connected_cells) st.2).

(** Body of the outer loop: one fracture node and the cells around it. *)
Definition split_node (cell_to_cell : Graph) (st : NewIndex * gmap Z (gmap Z Z))
    (item : Z * gset Z) : NewIndex * gmap Z (gmap Z Z) :=
  fold_left (split_component item.1)
    (connected_components (subgraph cell_to_cell item.2)) st.

Definition __identify_split (num_points : Z) (cell_to_cell : Graph)
    (node_to_cells : list (Z * gset Z)) : gmap Z (gmap Z Z) :=
  (fold_left (split_node cell_to_cell) (sorted_items node_to_cells)
     (NewIndex_init num_points, ∅)).2.

(** The order in which [networkx.connected_components] yields the components
    of the view [cell_to_cell.subgraph(cells)] is the order in which the
    library iterates the nodes of that view: the order of the set of the
    cells or the order of the graph, by the version of the library and by
    the sizes of the two.  The walk below leaves that order open:
    [walk node cells] is the iteration of the view around [node], and a
    component is yielded when the iteration first meets one of its cells.
    [__identify_split] is the walk in the order of the graph. *)
Definition walk_components (walk : Z → gset Z → list Z) (cell_to_cell : Graph)
    (item : Z * gset Z) : list (gset Z) :=
  components_from (subgraph cell_to_cell item.2) (walk item.1 item.2) ∅.

Definition split_node_walk (walk : Z → gset Z → list Z) (cell_to_cell : Graph)
    (st : NewIndex * gmap Z (gmap Z Z)) (item : Z * gset Z)
  : NewIndex * gmap Z (gmap Z Z) :=
  fold_left (split_component item.1) (walk_components walk cell_to_cell item) st.

Definition identify_split_walk (walk : Z → gset Z → list Z) (num_points : Z)
    (cell_to_cell : Graph) (node_to_cells : list (Z * gset Z)) : gmap Z (gmap Z Z) :=
  (fold_left (split_node_walk walk cell_to_cell) (sorted_items node_to_cells)
     (NewIndex_init num_points, ∅)).2.

(** ** Assembling the volumetric mesh *)

Definition VTK_POLYHEDRON : Z := 42.

(** The [(i, o)] pairs met by
    [for node_mapping in cell_to_node_mapping.values(): for i, o in node_mapping.items()]. *)
Definition plan_items (cell_to_node_mapping : gmap Z (gmap Z Z)) : list (Z * Z) :=
  (map_to_list cell_to_node_mapping).*2 ≫= map_to_list.

Definition added_points (cell_to_node_mapping : gmap Z (gmap Z Z)) : gset Z :=
  fold_left (λ added io, if decide (io.1 ≠ io.2) then {[io.2]} ∪ added else added)
    (plan_items cell_to_node_mapping) ∅.

(** [node_mapping.get(p, p)] *)
Definition get_or_self (node_mapping : gmap Z Z) (p : Z) : Z :=
  default p (node_mapping !! p).

(** The id list handed to [InsertNextCell]: the face count, then each face
    as its point count followed by its relabelled points. *)
Definition face_stream (node_mapping : gmap Z Z) (cell : vtkCell) : list Z :=
  Z.of_nat (length (Faces cell))
  :: (Faces cell ≫= λ curr_face,
        Z.of_nat (length curr_face) :: (get_or_self node_mapping <$> curr_face)).

(** How VTK reads the id list of a polyhedron back: [n] faces, each a point
    count followed by that many ids. *)
Fixpoint read_faces (n : nat) (ids : list Z) : option (list (list Z)) :=
  match n with
  | O => match ids with [] => Some [] | _ => None end
  | S n' =>
      match ids with
      | [] => None
      | k :: ids' =>
          if decide (0 ≤ k ∧ (Z.to_nat k ≤ length ids')%nat) then
            (take (Z.to_nat k) ids' ::.) <$> read_faces n' (drop (Z.to_nat k) ids')
          else None
      end
  end.

Definition read_face_stream (ids : list Z) : option (list (list Z)) :=
  match ids with
  | [] => None
  | n :: ids' => if decide (0 ≤ n) then read_faces (Z.to_nat n) ids' else None
  end.

(** [InsertNextCell(cell_type, ids)].  For [VTK_POLYHEDRON] the id list is a
    face stream: the faces are read from it and the cell's points are the
    distinct ids of its faces, in ascending order.  For every other type
    the id list is the point list of the cell, whatever its length, and the
    faces are those VTK derives from the type and the points, [cell_faces]:
    a table of the library, about which nothing is assumed. *)
Definition InsertNextCell (cell_faces : Z → list Z → list (list Z))
    (cells : list vtkCell) (cell_type : Z) (ids : list Z) : Py (list vtkCell) :=
  if decide (cell_type = VTK_POLYHEDRON) then
    match read_face_stream ids with
    | Some faces =>
        Ok (cells ++ [{| CellType := cell_type;
                         PointIds := set_iter (frozenset (concat faces));
                         Faces := faces |}])
    | None => Raise (ValueError "malformed face stream")
    end
  else
    Ok (cells ++ [{| CellType := cell_type;
                     PointIds := ids;
                     Faces := cell_faces cell_type ids |}]).

Section assembly.

Context {Point DataTuple : Type}.
Abbreviation Mesh := (@vtkUnstructuredGrid Point DataTuple).

(** [vtkPoints.SetNumberOfPoints] allocates without initialising: a slot
    that is never written holds [uninitialized], about which nothing is
    assumed. *)
Context (uninitialized : Point).

(** The faces of a cell that is not a polyhedron, from its type and its
    points. *)
Context (cell_faces : Z → list Z → list (list Z)).

(** [points.SetPoint(p, x)].  A write outside the container is refused;
    the model raises [IndexError] for it, whatever the exception of the
    VTK wrapper is. *)
Definition SetPoint (points : list Point) (p : Z) (x : Point) : Py (list Point) :=
  if decide (0 ≤ p < Z.of_nat (length points)) then Ok (<[Z.to_nat p := x]> points)
  else Raise IndexError.

(** Lines 260-281: the new point container and the array
    [collocated_nodes] naming, for each new point, the old point it copies. *)
Definition split_points (old_points : list Point) (cell_to_node_mapping : gmap Z (gmap Z Z))
  : Py (list Point * list Z) :=
  let num_new_points := (length old_points + size (added_points cell_to_node_mapping))%nat in
  let new_points := replicate num_new_points uninitialized in
  let collocated_nodes := replicate num_new_points (-1) in
  st ← py_for (range (length old_points))
    (λ '(new_points, collocated_nodes) p,
       x ← GetPoint old_points p;
       new_points ← SetPoint new_points p x;
       collocated_nodes ← setitem collocated_nodes p p;
       Ok (new_points, collocated_nodes))
    (new_points, collocated_nodes);
  py_for (plan_items cell_to_node_mapping)
    (λ '(new_points, collocated_nodes) io,
       if decide (io.1 ≠ io.2) then
         x ← GetPoint old_points io.1;
         new_points ← SetPoint new_points io.2 x;
         collocated_nodes ← setitem collocated_nodes io.2 io.1;
         Ok (new_points, collocated_nodes)
       else Ok (new_points, collocated_nodes))
    st.

(** [input_array.GetTuple(p)] *)
Definition GetTuple {T : Type} (tuples : list T) (p : Z) : Py T :=
  match (if decide (0 ≤ p) then tuples !! Z.to_nat p else None) with
  | Some t => Ok t
  | None => Raise IndexError
  end.

(** The point-data loop of [__copy_fields] on one array: tuple [p] of the
    new array is tuple [collocated_nodes[p]] of the old one. *)
Definition copy_point_array (collocated_nodes : list Z) (input_array : vtkDataArray)
  : Py (@vtkDataArray DataTuple) :=
  match input_array with
  | IdTypeArray tuples => IdTypeArray <$> mapM_py (GetTuple tuples) collocated_nodes
  | DataArray tuples => DataArray <$> mapM_py (GetTuple tuples) collocated_nodes
  end.

Definition __copy_fields (old_mesh new_mesh : Mesh) (collocated_nodes : list Z) : Py Mesh :=
  point_data ← mapM_py (λ na, a ← copy_point_array collocated_nodes na.2; Ok (na.1, a))
                  (PointData old_mesh);
  Ok {| Points := Points new_mesh;
        Cells := Cells new_mesh;
        CellData := CellData new_mesh ++ CellData old_mesh;
        PointData := PointData new_mesh ++ point_data;
        FieldData := FieldData new_mesh ++ FieldData old_mesh |}.

Definition __perform_polyhedron_split (old_mesh : Mesh)
    (cell_to_node_mapping : gmap Z (gmap Z Z)) : Py Mesh :=
  pc ← split_points (Points old_mesh) cell_to_node_mapping;
  new_cells ← py_for (range (GetNumberOfCells old_mesh))
    (λ new_cells c,
       let node_mapping := default ∅ (cell_to_node_mapping !! c) in
       cell ← GetCell old_mesh c;
       InsertNextCell cell_faces new_cells (CellType cell) (face_stream node_mapping cell))
    [];
  let new_mesh := {| Points := pc.1; Cells := new_cells;
                     CellData := []; PointData := []; FieldData := [] |} in
  __copy_fields old_mesh new_mesh pc.2.

End assembly.

(** ** Assembling the fracture mesh *)

Definition max_empty_message : string := "max() arg is an empty sequence".

(** [max(l)] *)
Definition py_max (l : list nat) : Py nat :=
  match l with
  | [] => Raise (ValueError max_empty_message)
  | x :: l' => Ok (fold_left Nat.max l' x)
  end.

(** [d[k]] on a plain dict read by key. *)
Definition dict_item (d : gmap Z Z) (k : Z) : Py Z :=
  match d !! k with
  | Some v => Ok v
  | None => Raise (KeyError k)
  end.

(** [a[i, j] = x] on a two-dimensional numpy array. *)
Definition setitem2 (a : list (list Z)) (i j : Z) (x : Z) : Py (list (list Z)) :=
  row ← getitem a i;
  row' ← setitem row j x;
  setitem a i row'.

(** Lines 439-443: for each 2-D point, the ids met under its 3-D node. *)
Definition build_buckets (node_3d_to_node_2d : gmap Z Z)
    (cell_to_node_mapping : gmap Z (gmap Z Z)) : Py (gmap Z (gset Z)) :=
  py_for (plan_items cell_to_node_mapping)
    (λ buckets io,
       k ← dict_item node_3d_to_node_2d (Z.min io.1 io.2);
       Ok (<[k := {[io.1; io.2]} ∪ default ∅ (buckets !! k)]> buckets))
    ∅.

(** Lines 445-450: the rectangular table filled from the buckets. *)
Definition fill_collocated_nodes (num_points : nat) (buckets : gmap Z (gset Z))
  : Py (list (list Z)) :=
  if decide (dom buckets = list_to_set (range num_points)) then
    max_duplicated_nodes ← py_max (size <$> (map_to_list buckets).*2);
    py_for (map_to_list buckets)
      (λ collocated_nodes ib,
         py_for (enumerate (set_iter ib.2))
           (λ collocated_nodes jval, setitem2 collocated_nodes ib.1 jval.1 jval.2)
           collocated_nodes)
      (replicate num_points (replicate max_duplicated_nodes (-1)))
  else Raise AssertionError.

Section fracture_mesh.

Context {Point DataTuple : Type}.
Abbreviation Mesh := (@vtkUnstructuredGrid Point DataTuple).
Context (uninitialized : Point) (cell_faces : Z → list Z → list (list Z)).

(** Lines 420-429: the points of the fracture and the 3-D to 2-D node map. *)
Definition fracture_points (mesh_points : list Point) (fracture_nodes : list Z)
  : Py (list Point * gmap Z Z) :=
  py_for (enumerate fracture_nodes)
    (λ '(points, node_3d_to_node_2d) i_n,
       coords ← GetPoint mesh_points i_n.2;
       points ← SetPoint points i_n.1 coords;
       Ok (points, <[i_n.2 := i_n.1]> node_3d_to_node_2d))
    (replicate (length fracture_nodes) uninitialized, ∅).

Definition __generate_fracture_mesh (mesh_points : list Point)
    (fracture_info : FractureInfo) (cell_to_node_mapping : gmap Z (gmap Z Z)) : Py Mesh :=
  let fracture_nodes := dict_keys (node_to_cells fracture_info) in
  let num_points := length fracture_nodes in
  pm ← fracture_points mesh_points fracture_nodes;
  polygons ← mapM_py (mapM_py (dict_item pm.2)) (face_nodes fracture_info);
  buckets ← build_buckets pm.2 cell_to_node_mapping;
  collocated_nodes ← fill_collocated_nodes num_points buckets;
  Ok {| Points := pm.1;
        Cells := (λ ids, {| CellType := VTK_POLYGON; PointIds := ids; Faces := [] |})
                   <$> polygons;
        CellData := [];
        PointData := [("collocated_nodes"%string, IdTypeArray collocated_nodes)];
        FieldData := [] |}.

(** ** The check *)

Context {VtkOutput World : Type}.

Record Options : Type := {
  policy : string;
  field : string;
  field_type : string;
  field_values : gset Z;
  split_on_domain_boundary : bool;
  vtk_output : VtkOutput;
  vtk_fracture_output : VtkOutput;
}.

Record Result : Type := { info : string }.

Definition __split_mesh_on_fracture (mesh : Mesh) (options : Options) : Py (Mesh * Mesh) :=
  fracture ← build_fracture_info mesh (field options) (field_values options);
  cell_to_cell ← build_cell_to_cell_graph mesh fracture;
  let cell_to_node_mapping :=
    __identify_split (Z.of_nat (GetNumberOfPoints mesh)) cell_to_cell
      (node_to_cells fracture) in
  output_mesh ← __perform_polyhedron_split uninitialized cell_faces mesh cell_to_node_mapping;
  fractured_mesh ← __generate_fracture_mesh (Points mesh) fracture cell_to_node_mapping;
  Ok (output_mesh, fractured_mesh).

(** The I/O collaborators of [vtk_utils] and the logging sink act on a
    world the check does not look into. *)
Context (read_mesh : string → World → Py Mesh).
Context (write_mesh : Mesh → VtkOutput → World → Py unit * World).
Context (logging_error : Exception → World → World).

Definition __check (mesh : Mesh) (options : Options) (w : World) : Py Result * World :=
  match __split_mesh_on_fracture mesh options with
  | Raise e => (Raise e, w)
  | Ok (output_mesh, fracture_mesh) =>
      match write_mesh output_mesh (vtk_output options) w with
      | (Raise e, w1) => (Raise e, w1)
      | (Ok _, w1) =>
          match write_mesh fracture_mesh (vtk_fracture_output options) w1 with
          | (Raise e, w2) => (Raise e, w2)
          | (Ok _, w2) => (Ok {| info := "OK" |}, w2)
          end
      end
  end.

Definition check (vtk_input_file : string) (options : Options) (w : World)
  : Result * World :=
  match read_mesh vtk_input_file w with
  | Raise e => ({| info := "Something went wrong" |}, logging_error e w)
  | Ok mesh =>
      match __check mesh options w with
      | (Ok r, w') => (r, w')
      | (Raise e, w') => ({| info := "Something went wrong" |}, logging_error e w')
      end
  end.

End fracture_mesh.

(** * Specification vocabulary *)

(** ** Graphs *)

Definition adjacent (G : Graph) (a b : Z) : Prop := b ∈ neighbors G a.

(** Joined by a path of the graph. *)
Definition connected (G : Graph) : relation Z := rtc (adjacent G).

(** [v] comes before [w] in [l]. *)
Definition before (l : list Z) (v w : Z) : Prop :=
  ∃ l1 l2 l3, l = l1 ++ v :: l2 ++ w :: l3.

(** Invariant of the search from [s]: what was reached is connected to [s],
    and every neighbour of a seen node is seen or waits in the next level. *)
Definition bfs_inv (G : Graph) (s : Z) (seen next : gset Z) : Prop :=
  (∀ v, v ∈ seen ∪ next → connected G s v) ∧
  s ∈ seen ∪ next ∧
  (∀ a b, a ∈ seen → adjacent G a b → b ∈ seen ∪ next).

(** What [components_from G vs seen] returns: the connected classes of the
    nodes of [vs] outside [seen], pairwise disjoint, in the order in which
    [vs] first meets them. *)
Record components_ok (G : Graph) (vs : list Z) (seen : gset Z) (cs : list (gset Z))
  : Prop := {
  comp_class : Forall (λ c, ∃ v, v ∈ vs ∧ v ∉ seen ∧ ∀ x, x ∈ c ↔ connected G v x) cs;
  comp_fresh : Forall (λ c, c ## seen) cs;
  comp_disjoint : ∀ (i j : nat) ci cj,
    i ≠ j → cs !! i = Some ci → cs !! j = Some cj → ci ## cj;
  comp_cover : ∀ v, v ∈ vs → v ∈ seen ∨ ∃ c, c ∈ cs ∧ v ∈ c;
  comp_order : ∀ (i j : nat) ci cj w,
    (i < j)%nat → cs !! i = Some ci → cs !! j = Some cj →
    w ∈ cj → w ∈ vs → ∃ v, v ∈ ci ∧ before vs v w;
}.

(** The order the specification asks for: of two components, the one walked
    first holds a cell smaller than every cell of the other. *)
Definition smallest_cell_first (comps : list (gset Z)) : Prop :=
  ∀ (i j : nat) ci cj w,
    (i < j)%nat → comps !! i = Some ci → comps !! j = Some cj →
    w ∈ cj → ∃ v, v ∈ ci ∧ v < w.

(** ** Split plans *)

(** [cell_to_node_mapping[cell][node]], when present. *)
Definition plan_lookup (plan : gmap Z (gmap Z Z)) (cell node : Z) : option Z :=
  plan !! cell ≫= (.!! node).

(** One assignment of the planner: the cells of [e.1.2] map node [e.1.1] to
    [e.2]. *)
Definition apply_entry (r : gmap Z (gmap Z Z)) (e : Z * gset Z * Z) : gmap Z (gmap Z Z) :=
  fold_left (λ r cell, assign r cell e.1.1 e.2) (set_iter e.1.2) r.

Definition apply_trace (tr : list (Z * gset Z * Z)) (r : gmap Z (gmap Z Z))
  : gmap Z (gmap Z Z) :=
  fold_left apply_entry tr r.

(** The assignments made around one node whose components are [comps],
    when the counter stands at [next]. *)
Definition node_trace (n : Z) (comps : list (gset Z)) (next : Z) : list (Z * gset Z * Z) :=
  match comps with
  | [] => []
  | c0 :: cs => (n, c0, n) :: imap (λ j c, (n, c, next + Z.of_nat j)) cs
  end.

(** Number of ids the planner takes from its counter for the items of
    [pre]: one for each component after the first. *)
Definition extra_components (G : Graph) (pre : list (Z * gset Z)) : nat :=
  sum_list_with (λ item, pred (length (connected_components (subgraph G item.2)))) pre.

Fixpoint plan_trace (G : Graph) (items : list (Z * gset Z)) (next : Z)
  : list (Z * gset Z * Z) :=
  match items with
  | [] => []
  | item :: items' =>
      let comps := connected_components (subgraph G item.2) in
      node_trace item.1 comps next
      ++ plan_trace G items' (next + Z.of_nat (pred (length comps)))
  end.

(** [walk] iterates, around every fracture node, the cells of the view,
    each of them once. *)
Definition iterates_views (G : Graph) (ntc : list (Z * gset Z))
    (walk : Z → gset Z → list Z) : Prop :=
  ∀ n cells, (n, cells) ∈ ntc → walk n cells ≡ₚ nodes (subgraph G cells).

(** Number of ids a walk takes from the counter for the items of [pre]. *)
Definition walk_extra (walk : Z → gset Z → list Z) (G : Graph) (pre : list (Z * gset Z))
  : nat :=
  sum_list_with (λ item, pred (length (walk_components walk G item))) pre.

Fixpoint walk_trace (walk : Z → gset Z → list Z) (G : Graph) (items : list (Z * gset Z))
    (next : Z) : list (Z * gset Z * Z) :=
  match items with
  | [] => []
  | item :: items' =>
      let comps := walk_components walk G item in
      node_trace item.1 comps next
      ++ walk_trace walk G items' (next + Z.of_nat (pred (length comps)))
  end.

(** The id given to the [j]-th component walked around node [n]. *)
Definition component_id (n next : Z) (j : nat) : Z :=
  match j with
  | O => n
  | S j' => next + Z.of_nat j'
  end.

(** The ids the plan gives to node [n] in the cells of [cells]. *)
Definition assigned_ids (plan : gmap Z (gmap Z Z)) (cells : gset Z) (n : Z) : gset Z :=
  list_to_set (omap (λ cell, plan_lookup plan cell n) (set_iter cells)).

(** The original node [n] and every id the plan puts in its place. *)
Definition copies_of (plan : gmap Z (gmap Z Z)) (n : Z) : gset Z :=
  {[n]} ∪ list_to_set (omap (λ io : Z * Z, if decide (io.1 = n) then Some io.2 else None)
                         (plan_items plan)).

#[global] Instance item_le_trans : Transitive item_le.
Proof. unfold item_le. intros ???. lia. Qed.

#[global] Instance item_le_total : Total item_le.
Proof. unfold item_le. intros ??. lia. Qed.

(** ** The surface table *)

Definition bucket_sel (node_3d_to_node_2d : gmap Z Z) (k : Z) (io : Z * Z) : list Z :=
  if decide (node_3d_to_node_2d !! io.1 = Some k) then [io.1; io.2] else [].

(** The bucket of 2-D point [k] after the pairs of [pre]. *)
Definition bucket_of (node_3d_to_node_2d : gmap Z Z) (pre : list (Z * Z)) (k : Z) : gset Z :=
  list_to_set (pre ≫= bucket_sel node_3d_to_node_2d k).

Definition bucket_hit (node_3d_to_node_2d : gmap Z Z) (pre : list (Z * Z)) (k : Z) : Prop :=
  Exists (λ io : Z * Z, node_3d_to_node_2d !! io.1 = Some k) pre.

#[global] Instance bucket_hit_dec node_3d_to_node_2d pre k :
  Decision (bucket_hit node_3d_to_node_2d pre k).
Proof. unfold bucket_hit. apply _. Defined.

(** The row of the table for a bucket: its ids, then the filler. *)
Definition row_of (W : nat) (bucket : option (gset Z)) : list Z :=
  match bucket with
  | Some s => set_iter s ++ replicate (W - size s) (-1)
  | None => replicate W (-1)
  end.

(** ** Cells and faces *)

(** The cell that [InsertNextCell] builds from the relabelled face stream
    of a polyhedron. *)
Definition relabel_cell (node_mapping : gmap Z Z) (cell : vtkCell) : vtkCell :=
  let faces := (λ face : list Z, get_or_self node_mapping <$> face) <$> Faces cell in
  {| CellType := CellType cell;
     PointIds := set_iter (frozenset (concat faces));
     Faces := faces |}.

(** The cell that [__perform_polyhedron_split] inserts for [cell]: the
    relabelled polyhedron, or, for a cell of another type, a cell of that
    type whose points are the face stream itself. *)
Definition inserted_cell (cell_faces : Z → list Z → list (list Z))
    (node_mapping : gmap Z Z) (cell : vtkCell) : vtkCell :=
  if decide (CellType cell = VTK_POLYHEDRON) then relabel_cell node_mapping cell
  else {| CellType := CellType cell;
          PointIds := face_stream node_mapping cell;
          Faces := cell_faces (CellType cell) (face_stream node_mapping cell) |}.

(** Every cell of the mesh is a polyhedron given by its faces, as the
    specification has it. *)
Definition polyhedral {Point DataTuple : Type}
    (mesh : @vtkUnstructuredGrid Point DataTuple) : Prop :=
  Forall (λ cell, CellType cell = VTK_POLYHEDRON) (Cells mesh).

(** Face [i] of cell [c] is listed in [cells_to_faces]. *)
Definition recorded (cells_to_faces : list (Z * list Z)) (c i : Z) : Prop :=
  ∃ l, (c, l) ∈ cells_to_faces ∧ i ∈ l.

(** The neighbour test of the first loop of [build_fracture_info], for face
    [i] of cell [c]. *)
Definition qualifies {Point DataTuple : Type} (mesh : @vtkUnstructuredGrid Point DataTuple)
    (f : list Z) (field_values : gset Z) (c i : Z) : Prop :=
  ∃ cell face nb vc vn,
    GetCell mesh c = Ok cell ∧ GetFace cell i = Ok face ∧
    nb ∈ GetCellNeighbors mesh c face ∧
    getitem f c = Ok vc ∧ getitem f nb = Ok vn ∧
    vc ∈ field_values ∧ vn ≠ vc ∧ vn ∈ field_values.

(** [s] is the vertex set of a recorded face. *)
Definition recorded_set {Point DataTuple : Type} (mesh : @vtkUnstructuredGrid Point DataTuple)
    (cells_to_faces : list (Z * list Z)) (s : gset Z) : Prop :=
  ∃ c i cell face, recorded cells_to_faces c i ∧
    GetCell mesh c = Ok cell ∧ GetFace cell i = Ok face ∧ frozenset face = s.

(** The hash set of the second loop mirrors the list of faces, which holds
    no vertex set twice. *)
Definition faces_ok (acc : list (list Z) * gset (gset Z)) : Prop :=
  acc.2 = list_to_set (frozenset <$> acc.1) ∧ NoDup (frozenset <$> acc.1).

(** Every face of every cell is made of points of the cell, as in any VTK
    grid. *)
Definition faces_within_cells {Point DataTuple : Type}
    (mesh : @vtkUnstructuredGrid Point DataTuple) : Prop :=
  Forall (λ cell, Forall (λ face, uses_points face cell) (Faces cell)) (Cells mesh).

(** Every cell is made of points of the mesh. *)
Definition points_in_range {Point DataTuple : Type}
    (mesh : @vtkUnstructuredGrid Point DataTuple) : Prop :=
  Forall (λ cell, Forall (λ p, 0 ≤ p < Z.of_nat (GetNumberOfPoints mesh)) (PointIds cell))
    (Cells mesh).

#[global] Instance faces_within_cells_dec {Point DataTuple : Type}
    (mesh : @vtkUnstructuredGrid Point DataTuple) : Decision (faces_within_cells mesh).
Proof. unfold faces_within_cells. apply _. Defined.

(** ** Points and their cells *)

(** The cells that use point [n]. *)
Definition cells_around {Point DataTuple : Type}
    (mesh : @vtkUnstructuredGrid Point DataTuple) (n : Z) : gset Z :=
  list_to_set (filter (λ ic : Z * vtkCell, n ∈ PointIds ic.2) (enumerate (Cells mesh))).*1.

(** ** Conforming meshes *)

(** Across every face of a cell whose field value is admitted there is at
    most one other cell: the condition that [build_fracture_info] asserts. *)
Definition admitted_faces_conform {Point DataTuple : Type}
    (mesh : @vtkUnstructuredGrid Point DataTuple) (f : list Z) (field_values : gset Z)
  : Prop :=
  Forall (λ icv : Z * vtkCell * Z,
            icv.2 ∈ field_values →
            Forall (λ face, (length (GetCellNeighbors mesh icv.1.1 face) < 2)%nat)
              (Faces icv.1.2))
    (zip (enumerate (Cells mesh)) f).

#[global] Instance admitted_faces_conform_dec {Point DataTuple : Type}
    (mesh : @vtkUnstructuredGrid Point DataTuple) f field_values :
  Decision (admitted_faces_conform mesh f field_values).
Proof. unfold admitted_faces_conform. apply _. Defined.

(** The condition on the faces of cell [c] alone. *)
Definition cell_conforms {Point DataTuple : Type}
    (mesh : @vtkUnstructuredGrid Point DataTuple) (f : list Z) (field_values : gset Z)
    (c : Z) : Prop :=
  ∀ cell v, Cells mesh !! Z.to_nat c = Some cell → f !! Z.to_nat c = Some v →
    v ∈ field_values →
    Forall (λ face, (length (GetCellNeighbors mesh c face) < 2)%nat) (Faces cell).

(** ** Faces and the cells on them *)

(** The cells of [cells] that have a face with vertex set [h], once for
    each such face. *)
Definition face_incidences {Point DataTuple : Type}
    (mesh : @vtkUnstructuredGrid Point DataTuple) (cells : list Z) (h : gset Z) : list Z :=
  cells ≫= λ c,
    match GetCell mesh c with
    | Ok cell => (λ _, c) <$> filter (λ face, frozenset face = h) (Faces cell)
    | Raise _ => []
    end.

(** [h] is the vertex set of a fracture face. *)
Definition fracture_face (fracture : FractureInfo) (h : gset Z) : Prop :=
  h ∈ frozenset <$> face_nodes fracture.

(** [face_to_cells.get(h, [])] *)
Fixpoint face_dict_get (d : list (gset Z * list Z)) (h : gset Z) : list Z :=
  match d with
  | [] => []
  | (k, v) :: d' => if decide (k = h) then v else face_dict_get d' h
  end.

(** ** The index generator *)

(** The values returned by the successive calls [build_new_index(i)], for
    the [i] of [l]. *)
Fixpoint NewIndex_calls (self : NewIndex) (l : list Z) : list Z :=
  match l with
  | [] => []
  | i :: l' => (NewIndex_call self i).1 :: NewIndex_calls (NewIndex_call self i).2 l'
  end.

(** ** Attribute arrays *)

(** [array.GetNumberOfTuples()] *)
Definition GetNumberOfTuples {DataTuple : Type} (a : @vtkDataArray DataTuple) : nat :=
  match a with
  | IdTypeArray tuples => length tuples
  | DataArray tuples => length tuples
  end.

(** Tuple [p] of an array, when it has one. *)
Definition tuple_at {DataTuple : Type} (a : @vtkDataArray DataTuple) (p : nat)
  : option (list Z + DataTuple) :=
  match a with
  | IdTypeArray tuples => inl <$> tuples !! p
  | DataArray tuples => inr <$> tuples !! p
  end.

(** Every point array has one tuple for each point, as in any VTK grid. *)
Definition point_data_complete {Point DataTuple : Type}
    (mesh : @vtkUnstructuredGrid Point DataTuple) : Prop :=
  Forall (λ na : string * vtkDataArray, GetNumberOfTuples na.2 = GetNumberOfPoints mesh)
    (PointData mesh).

#[global] Instance point_data_complete_dec {Point DataTuple : Type}
    (mesh : @vtkUnstructuredGrid Point DataTuple) : Decision (point_data_complete mesh).
Proof. unfold point_data_complete. apply _. Defined.

(** ** The order of the recorded faces *)

(** The recorded (cell, local face) pairs, in the order in which the second
    loop of [build_fracture_info] walks the dict [cells_to_faces]. *)
Definition recorded_pairs (cells_to_faces : list (Z * list Z)) : list (Z * Z) :=
  cells_to_faces ≫= λ cf, (λ i, (cf.1, i)) <$> cf.2.

(** By cell, then by local face. *)
Definition pair_lt (a b : Z * Z) : Prop := a.1 < b.1 ∨ (a.1 = b.1 ∧ a.2 < b.2).

(** * Example meshes *)

(** A polyhedral hexahedron with bottom face [a0 a1 a2 a3] and top face
    [b0 b1 b2 b3]. *)
Definition hexahedron (a0 a1 a2 a3 b0 b1 b2 b3 : Z) : vtkCell :=
  {| CellType := VTK_POLYHEDRON;
     PointIds := [a0; a1; a2; a3; b0; b1; b2; b3];
     Faces := [[a0; a3; a2; a1]; [b0; b1; b2; b3]; [a0; a1; b1; b0];
               [a1; a2; b2; b1]; [a2; a3; b3; b2]; [a3; a0; b0; b3]] |}.

(** Two hexahedra sharing one quadrilateral face, with field values 1 and 2
    (scenarios S1 and S2). *)
Definition two_hexahedra : @vtkUnstructuredGrid (Z * Z * Z) Z :=
  {| Points := [(0, 0, 0); (1, 0, 0); (1, 1, 0); (0, 1, 0);
                (0, 0, 1); (1, 0, 1); (1, 1, 1); (0, 1, 1);
                (0, 0, 2); (1, 0, 2); (1, 1, 2); (0, 1, 2)];
     Cells := [hexahedron 0 1 2 3 4 5 6 7; hexahedron 4 5 6 7 8 9 10 11];
     CellData := [("attribute"%string, [1; 2])];
     PointData := [];
     FieldData := [] |}.

(** Three cells around one triangle: an interior face with two neighbours
    (scenario S5). *)
Definition three_on_a_face : @vtkUnstructuredGrid (Z * Z * Z) Z :=
  {| Points := [(0, 0, 0); (1, 0, 0); (0, 1, 0); (0, 0, 1); (0, 0, -1); (1, 1, 1)];
     Cells := [ {| CellType := VTK_POLYHEDRON; PointIds := [0; 1; 2; 3];
                   Faces := [[0; 1; 2]; [0; 1; 3]; [1; 2; 3]; [2; 0; 3]] |};
                {| CellType := VTK_POLYHEDRON; PointIds := [0; 1; 2; 4];
                   Faces := [[0; 2; 1]; [0; 1; 4]; [1; 2; 4]; [2; 0; 4]] |};
                {| CellType := VTK_POLYHEDRON; PointIds := [0; 1; 2; 5];
                   Faces := [[0; 1; 2]; [0; 1; 5]; [1; 2; 5]; [2; 0; 5]] |} ];
     CellData := [("attribute"%string, [1; 2; 3])];
     PointData := [];
     FieldData := [] |}.

Definition options_for (field : string) (field_values : gset Z) : @Options string :=
  {| policy := "field"; field := field; field_type := "cells";
     field_values := field_values; split_on_domain_boundary := true;
     vtk_output := "out.vtu"; vtk_fracture_output := "fracture.vtu" |}.

(** One tetrahedron of type [VTK_TETRA], with the four faces VTK gives
    it. *)
Definition VTK_TETRA : Z := 10.

Definition one_tetrahedron : @vtkUnstructuredGrid (Z * Z * Z) Z :=
  {| Points := [(0, 0, 0); (1, 0, 0); (0, 1, 0); (0, 0, 1)];
     Cells := [ {| CellType := VTK_TETRA; PointIds := [0; 1; 2; 3];
                   Faces := [[0; 1; 3]; [1; 2; 3]; [2; 0; 3]; [0; 2; 1]] |} ];
     CellData := [("attribute"%string, [1])];
     PointData := [];
     FieldData := [] |}.

(** The example meshes of the statements hold polyhedra only: the face
    table of the other cell types is not consulted on them. *)
Definition no_derived_faces (cell_type : Z) (ids : list Z) : list (list Z) := [].

(** A file system with two meshes, writes that succeed, and the log as the
    world. *)
Definition read_mesh_example (file : string) (log : list Exception)
  : Py (@vtkUnstructuredGrid (Z * Z * Z) Z) :=
  if decide (file = "two_hexahedra.vtu") then Ok two_hexahedra
  else if decide (file = "three_on_a_face.vtu") then Ok three_on_a_face
  else Raise (IOError file).

Definition write_mesh_example (mesh : @vtkUnstructuredGrid (Z * Z * Z) Z) (output : string)
    (log : list Exception) : Py unit * list Exception :=
  (Ok (), log).

Definition check_example (file field : string) (field_values : gset Z)
  : Result * list Exception :=
  check (0, 0, 0) no_derived_faces read_mesh_example write_mesh_example cons
    file (options_for field field_values) [].

(** Two cells on either side of a fracture through node 0, in a graph that
    enumerates cell 8 before cell 1. *)
Definition graph_8_1 : Graph := [AddNode 8; AddNode 1].
Definition node_to_cells_8_1 : list (Z * gset Z) := [(0, {[1; 8]})].

(** Two fracture nodes: node 5 between cells 0 and 3, which the fracture
    separates, and node 2 between cells 1 and 3, which share a face. *)
Definition graph_0_3_1 : Graph := [AddNode 0; AddNode 3; AddNode 1; AddEdge 1 3].
Definition node_to_cells_5_2 : list (Z * gset Z) := [(5, {[0; 3]}); (2, {[1; 3]})].

(** Around node 5 of the example, a walk that meets cell 3 before cell 0. *)
Definition walk_3_first (n : Z) (cells : gset Z) : list Z :=
  if decide (n = 5) then [3; 0] else nodes (subgraph graph_0_3_1 cells).

(** The two hexahedra once the shared face is a fracture: its four nodes
    touch both cells, and the graph has no edge. *)
Definition graph_two_hexahedra : Graph := [AddNode 0; AddNode 1].
Definition node_to_cells_two_hexahedra : list (Z * gset Z) :=
  [(4, {[0; 1]}); (5, {[0; 1]}); (6, {[0; 1]}); (7, {[0; 1]})].
Definition fracture_two_hexahedra : FractureInfo :=
  {| node_to_cells := node_to_cells_two_hexahedra; face_nodes := [[4; 5; 6; 7]] |}.


(** The two hexahedra with a scalar and an integer array on their points
    and one array of field data. *)
Definition two_hexahedra_with_data : @vtkUnstructuredGrid (Z * Z * Z) Z :=
  {| Points := Points two_hexahedra;
     Cells := Cells two_hexahedra;
     CellData := CellData two_hexahedra;
     PointData := [("pressure"%string, DataArray [10; 11; 12; 13; 14; 15; 16; 17; 18; 19; 20; 21]);
                   ("label"%string,
                    IdTypeArray [[0]; [0]; [0]; [0]; [1]; [1]; [1]; [1]; [2]; [2]; [2]; [2]])];
     FieldData := [("time"%string, DataArray [0])] |}.

(** * Proofs *)

(** ** Iterating a set *)
Lemma set_iter_perm (s : gset Z) : set_iter s ≡ₚ elements s.
Proof. apply merge_sort_Permutation. Qed.

Lemma elem_of_set_iter (s : gset Z) x : x ∈ set_iter s ↔ x ∈ s.
Proof. rewrite set_iter_perm. apply elem_of_elements. Qed.

Lemma NoDup_set_iter (s : gset Z) : NoDup (set_iter s).
Proof. rewrite set_iter_perm. apply NoDup_elements. Qed.

Lemma set_iter_empty : set_iter ∅ = [].
Proof. reflexivity. Qed.

Lemma length_set_iter (s : gset Z) : length (set_iter s) = size s.
Proof. by rewrite set_iter_perm. Qed.

(** ** Nodes and neighbours of a graph *)
Lemma elem_of_first_occurrences l x : x ∈ first_occurrences l ↔ x ∈ l.
Proof.
  induction l as [|y l IH]; simpl; [done|].
  rewrite !elem_of_cons, list_elem_of_filter, IH.
  destruct (decide (x = y)); intuition congruence.
Qed.

Lemma NoDup_first_occurrences l : NoDup (first_occurrences l).
Proof.
  induction l as [|y l IH]; simpl; [constructor|].
  constructor; [|by apply NoDup_filter].
  rewrite list_elem_of_filter. intros [? _]. done.
Qed.

Lemma filter_filter_comm {A} (P Q : A → Prop) `{∀ x, Decision (P x), ∀ x, Decision (Q x)} (l : list A) :
  filter P (filter Q l) = filter Q (filter P l).
Proof.
  induction l as [|x l IH]; [done|].
  rewrite !filter_cons. repeat (case_decide; rewrite ?filter_cons); simpl; try done; by f_equal.
Qed.

Lemma first_occurrences_filter (P : Z → Prop) `{∀ x, Decision (P x)} l :
  first_occurrences (filter P l) = filter P (first_occurrences l).
Proof.
  induction l as [|y l IH]; [done|].
  rewrite filter_cons. case_decide; simpl.
  - rewrite filter_cons, decide_True by done. f_equal.
    rewrite IH. apply filter_filter_comm.
  - rewrite filter_cons, decide_False by done. rewrite IH.
    rewrite filter_filter_comm. symmetry.
    apply list_filter_filter_r. intros x Hx ->. done.
Qed.

Lemma elem_of_nodes G x : x ∈ nodes G ↔ ∃ op, op ∈ G ∧ x ∈ op_nodes op.
Proof.
  unfold nodes. rewrite elem_of_first_occurrences, list_elem_of_bind.
  split; intros (op & ? & ?); eauto.
Qed.

Lemma NoDup_nodes G : NoDup (nodes G).
Proof. apply NoDup_first_occurrences. Qed.

Lemma elem_of_neighbors G a b :
  b ∈ neighbors G a ↔ AddEdge a b ∈ G ∨ AddEdge b a ∈ G.
Proof.
  unfold neighbors. rewrite elem_of_list_to_set, list_elem_of_bind. split.
  - intros ([n|u v] & Hb & Hop); simpl in Hb; [by apply elem_of_nil in Hb|].
    apply elem_of_app in Hb as [Hb|Hb]; case_decide; subst;
      try (by apply elem_of_nil in Hb); apply list_elem_of_singleton in Hb; subst; auto.
  - intros [H|H]; eexists; (split; [|exact H]); simpl;
      rewrite elem_of_app; [left|right]; rewrite decide_True by done;
      by apply list_elem_of_singleton.
Qed.

Lemma adjacent_sym G a b : adjacent G a b → adjacent G b a.
Proof. unfold adjacent. rewrite !elem_of_neighbors. tauto. Qed.

Lemma adjacent_nodes G a b : adjacent G a b → a ∈ nodes G ∧ b ∈ nodes G.
Proof.
  unfold adjacent. rewrite elem_of_neighbors, !elem_of_nodes.
  intros [H|H]; split; eexists; (split; [exact H|]); simpl; set_solver.
Qed.

Lemma connected_sym G a b : connected G a b → connected G b a.
Proof.
  induction 1 as [|a b c Hab _ IH]; [apply rtc_refl|].
  eapply rtc_r; [exact IH|]. by apply adjacent_sym.
Qed.

Lemma connected_nodes G a b : connected G a b → a ∈ nodes G → b ∈ nodes G.
Proof.
  induction 1 as [|a b c Hab _ IH]; [done|].
  intros _. apply IH. by apply adjacent_nodes in Hab as [_ ?].
Qed.

(** ** Induced subgraphs *)
Lemma subgraph_op_nodes G S :
  subgraph G S ≫= op_nodes = filter (.∈ S) (G ≫= op_nodes).
Proof.
  unfold subgraph. induction G as [|op G IH]; [done|].
  rewrite !bind_cons, bind_app, filter_app, IH. f_equal.
  destruct op as [n|u v]; simpl; repeat case_decide; simpl;
    rewrite ?filter_cons, ?filter_nil; repeat case_decide; done.
Qed.

Lemma nodes_subgraph G S : nodes (subgraph G S) = filter (.∈ S) (nodes G).
Proof. unfold nodes. by rewrite subgraph_op_nodes, first_occurrences_filter. Qed.

Lemma elem_of_nodes_subgraph G S x : x ∈ nodes (subgraph G S) ↔ x ∈ nodes G ∧ x ∈ S.
Proof. rewrite nodes_subgraph, list_elem_of_filter. tauto. Qed.

Lemma elem_of_subgraph_edge G S a b :
  AddEdge a b ∈ subgraph G S ↔ AddEdge a b ∈ G ∧ a ∈ S ∧ b ∈ S.
Proof.
  unfold subgraph. rewrite list_elem_of_bind. split.
  - intros ([n|u v] & Hin & Hop); repeat case_decide;
      try (by apply elem_of_nil in Hin);
      apply list_elem_of_singleton in Hin; try discriminate.
    by simplify_eq.
  - intros (H & Ha & Hb). exists (AddEdge a b). split; [|done].
    rewrite !decide_True by done. by apply list_elem_of_singleton.
Qed.

Lemma adjacent_subgraph G S a b :
  adjacent (subgraph G S) a b ↔ adjacent G a b ∧ a ∈ S ∧ b ∈ S.
Proof. unfold adjacent. rewrite !elem_of_neighbors, !elem_of_subgraph_edge. tauto. Qed.

Lemma bfs_level_spec G l (seen0 next0 : gset Z) :
  ∃ next',
    fold_left
      (λ '(seen, nextlevel) v,
         if decide (v ∈ seen) then (seen, nextlevel)
         else ({[v]} ∪ seen, (neighbors G v ∪ nextlevel)))
      l (seen0, next0) = (seen0 ∪ list_to_set l, next') ∧
    ∀ b, b ∈ next' ↔ b ∈ next0 ∨ ∃ v, v ∈ l ∧ v ∉ seen0 ∧ adjacent G v b.
Proof.
  revert seen0 next0. induction l as [|x l IH]; intros seen0 next0; simpl.
  - exists next0. split; [f_equal; set_solver|].
    intros b. split; [auto|]. intros [?|(v & Hv & _)]; [done|]. by apply elem_of_nil in Hv.
  - case_decide as Hx.
    + destruct (IH seen0 next0) as (next' & -> & Hn). exists next'.
      split; [f_equal; set_solver|].
      intros b. rewrite Hn. split; intros [?|(v & Hv & Hs & Ha)]; auto; right; exists v.
      * rewrite elem_of_cons. auto.
      * apply elem_of_cons in Hv as [->|Hv]; [done|]. auto.
    + destruct (IH ({[x]} ∪ seen0) (neighbors G x ∪ next0)) as (next' & -> & Hn).
      exists next'. split; [f_equal; set_solver|].
      intros b. rewrite Hn, elem_of_union. unfold adjacent. split.
      * intros [[?|?]|(v & Hv & Hs & Ha)]; auto; right.
        -- exists x. rewrite elem_of_cons. auto.
        -- exists v. rewrite elem_of_cons. split; [auto|]. split; [set_solver|done].
      * intros [?|(v & Hv & Hs & Ha)]; auto.
        destruct (decide (v = x)) as [->|Hne]; auto.
        apply elem_of_cons in Hv as [->|Hv]; [done|].
        right. exists v. split; [done|]. split; [set_solver|done].
Qed.

Lemma bfs_loop_empty fuel G seen : bfs_loop fuel G seen ∅ = seen.
Proof. destruct fuel; simpl; [done|]. by rewrite decide_True. Qed.

Lemma closed_connected G (X : gset Z) a b :
  (∀ a b, a ∈ X → adjacent G a b → b ∈ X) → a ∈ X → connected G a b → b ∈ X.
Proof. intros Hcl Ha Hc. induction Hc as [|a b c Hab _ IH]; eauto. Qed.

Section bfs.
Context (G : Graph) (s : Z) (U : gset Z).
Context (HU : ∀ a b, a ∈ U → adjacent G a b → b ∈ U).

Lemma bfs_done seen next v :
  bfs_inv G s seen next → next ⊆ seen → v ∈ seen ↔ connected G s v.
Proof.
  intros (H1 & H2 & H3) Hsub. split; [intros; apply H1; set_solver|].
  apply closed_connected; [|set_solver].
  intros a b Ha Hab. specialize (H3 _ _ Ha Hab). set_solver.
Qed.

Lemma bfs_loop_spec fuel seen next v :
  bfs_inv G s seen next → seen ∪ next ⊆ U → (size (U ∖ seen) < fuel)%nat →
  v ∈ bfs_loop fuel G seen next ↔ connected G s v.
Proof.
  revert seen next. induction fuel as [|fuel IH]; intros seen next Hinv HsubU Hfuel; [lia|].
  simpl. case_decide as Hne.
  { apply (bfs_done _ next); [done|set_solver]. }
  unfold bfs_level.
  destruct (bfs_level_spec G (set_iter next) seen ∅) as (next' & -> & Hn).
  assert (seen ∪ list_to_set (set_iter next) = seen ∪ next) as ->.
  { apply set_eq. intros x. rewrite !elem_of_union, elem_of_list_to_set, elem_of_set_iter. done. }
  assert (∀ b, b ∈ next' ↔ ∃ u, u ∈ next ∧ u ∉ seen ∧ adjacent G u b) as Hn'.
  { intros b. rewrite Hn. setoid_rewrite elem_of_set_iter. set_solver. }
  clear Hn. destruct Hinv as (H1 & H2 & H3).
  assert (bfs_inv G s (seen ∪ next) next') as Hinv'.
  { split; [|split].
    - intros x [Hx|Hx]%elem_of_union; [by apply H1|].
      apply Hn' in Hx as (u & Hu & _ & Hadj).
      eapply rtc_r; [|exact Hadj]. apply H1. set_solver.
    - set_solver.
    - intros a b [Ha|Ha]%elem_of_union Hadj.
      + specialize (H3 _ _ Ha Hadj). set_solver.
      + destruct (decide (a ∈ seen)) as [Hs|Hs].
        * specialize (H3 _ _ Hs Hadj). set_solver.
        * apply elem_of_union_r, Hn'. eauto. }
  destruct (decide (next ∖ seen = ∅)) as [Hsub|Hnsub].
  - assert (next' = ∅) as ->.
    { apply set_eq. intros b. rewrite Hn'. set_solver. }
    rewrite bfs_loop_empty. apply (bfs_done _ ∅); [done|set_solver].
  - apply IH; [done| |].
    + intros x [Hx|Hx]%elem_of_union; [set_solver|].
      apply Hn' in Hx as (u & Hu & _ & Hadj). eapply HU; [|exact Hadj]. set_solver.
    + apply set_choose_L in Hnsub as (x & Hx).
      assert (U ∖ (seen ∪ next) ⊂ U ∖ seen) as Hlt%subset_size; [|lia].
      split; [set_solver|]. intros Hc. assert (x ∈ U ∖ (seen ∪ next)); set_solver.
Qed.
End bfs.

Lemma plain_bfs_spec G s v : v ∈ plain_bfs G s ↔ connected G s v.
Proof.
  unfold plain_bfs.
  apply (bfs_loop_spec G s (list_to_set (nodes G) ∪ {[s]})).
  - intros a b _ Hadj. apply adjacent_nodes in Hadj as [_ ?].
    apply elem_of_union_l. by apply elem_of_list_to_set.
  - split; [|split].
    + intros x Hx. assert (x = s) as -> by set_solver. apply rtc_refl.
    + set_solver.
    + set_solver.
  - set_solver.
  - assert (size (list_to_set (nodes G) ∪ {[s]} : gset Z) ≤ length (nodes G) + 1)%nat.
    { rewrite size_union_alt, size_list_to_set by apply NoDup_nodes.
      assert (size ({[s]} ∖ list_to_set (nodes G) : gset Z) ≤ size ({[s]} : gset Z))%nat
        by (apply subseteq_size; set_solver).
      rewrite size_singleton in *. lia. }
    assert (size ((list_to_set (nodes G) ∪ {[s]}) ∖ ∅ : gset Z)
            ≤ size (list_to_set (nodes G) ∪ {[s]} : gset Z))%nat
      by (apply subseteq_size; set_solver).
    lia.
Qed.

Lemma before_cons_head l v w : w ∈ l → before (v :: l) v w.
Proof. intros (l2 & l3 & ->)%list_elem_of_split. by exists [], l2, l3. Qed.

Lemma before_cons l x v w : before l v w → before (x :: l) v w.
Proof. intros (l1 & l2 & l3 & ->). by exists (x :: l1), l2, l3. Qed.

Lemma before_sublist l k v w : sublist l k → before l v w → before k v w.
Proof.
  intros Hsub (l1 & l2 & l3 & ->).
  apply sublist_app_l in Hsub as (k1 & k2 & -> & _ & Hsub).
  apply sublist_cons_l in Hsub as (k3 & k4 & -> & Hsub).
  apply sublist_app_l in Hsub as (k5 & k6 & -> & _ & Hsub).
  apply sublist_cons_l in Hsub as (k7 & k8 & -> & _).
  exists (k1 ++ k3), (k5 ++ k7), k8. by rewrite <-!app_assoc.
Qed.

Lemma before_sorted l v w : StronglySorted Z.lt l → before l v w → v < w.
Proof.
  intros Hs (l1 & l2 & l3 & ->).
  apply StronglySorted_app_1_r in Hs. apply StronglySorted_inv in Hs as [_ Hall].
  rewrite Forall_forall in Hall. apply Hall. set_solver.
Qed.

Lemma components_from_ok G vs seen :
  (∀ a b, a ∈ seen → connected G a b → b ∈ seen) →
  components_ok G vs seen (components_from G vs seen).
Proof.
  revert seen. induction vs as [|x vs IH]; intros seen Hclosed; simpl.
  { split; [constructor|constructor| | |].
    - intros i j ci cj _ Hi. by rewrite lookup_nil in Hi.
    - intros v Hv. by apply elem_of_nil in Hv.
    - intros i j ci cj w _ Hi. by rewrite lookup_nil in Hi. }
  case_decide as Hx.
  - destruct (IH seen Hclosed) as [H1 H2 H3 H4 H5]. split; [|done|done| |].
    + eapply Forall_impl; [exact H1|]. intros c (v & ? & ? & ?). exists v. rewrite elem_of_cons. auto.
    + intros v [->|Hv]%elem_of_cons; auto.
    + intros i j ci cj w Hij Hi Hj Hw Hwv.
      assert (w ∈ vs) as Hw'.
      { apply elem_of_cons in Hwv as [->|?]; [|done].
        rewrite Forall_forall in H2. apply list_elem_of_lookup_2 in Hj.
        specialize (H2 _ Hj). set_solver. }
      destruct (H5 i j ci cj w) as (v & ? & ?); try done.
      exists v. split; [done|]. by apply before_cons.
  - assert (∀ y, y ∈ plain_bfs G x ↔ connected G x y) as Hbfs by (intros; apply plain_bfs_spec).
    assert (∀ a b, a ∈ seen ∪ plain_bfs G x → connected G a b → b ∈ seen ∪ plain_bfs G x) as Hclosed'.
    { intros a b [Ha|Ha]%elem_of_union Hab.
      - apply elem_of_union_l. eauto.
      - apply elem_of_union_r, Hbfs. eapply rtc_trans; [|exact Hab]. by apply Hbfs. }
    assert (plain_bfs G x ## seen) as Hdisj.
    { intros y Hy1 Hy2. apply Hx. apply (Hclosed y x Hy2). apply connected_sym. by apply Hbfs. }
    assert (x ∈ plain_bfs G x) as Hxin by (apply Hbfs, rtc_refl).
    destruct (IH _ Hclosed') as [H1 H2 H3 H4 H5]. split.
    + constructor.
      * exists x. split; [apply elem_of_cons; auto|]. split; [done|]. apply Hbfs.
      * eapply Forall_impl; [exact H1|]. intros c (v & ? & ? & ?). exists v.
        rewrite elem_of_cons. split; [auto|]. split; [set_solver|done].
    + constructor; [done|]. eapply Forall_impl; [exact H2|]. intros c ?. set_solver.
    + intros [|i] [|j] ci cj Hij Hi Hj; simpl in *; simplify_eq.
      * rewrite Forall_forall in H2. apply list_elem_of_lookup_2 in Hj.
        specialize (H2 _ Hj). set_solver.
      * rewrite Forall_forall in H2. apply list_elem_of_lookup_2 in Hi.
        specialize (H2 _ Hi). set_solver.
      * apply (H3 i j); [congruence|done|done].
    + intros v [->|Hv]%elem_of_cons.
      * right. exists (plain_bfs G x). split; [apply elem_of_cons; auto|done].
      * destruct (H4 v Hv) as [[?|?]%elem_of_union|(c & ? & ?)]; auto.
        -- right. exists (plain_bfs G x). split; [apply elem_of_cons; auto|done].
        -- right. exists c. split; [apply elem_of_cons; auto|done].
    + intros [|i] [|j] ci cj w Hij Hi Hj Hw Hwv; simpl in *; simplify_eq; try lia.
      * assert (w ∈ vs) as Hw'.
        { apply elem_of_cons in Hwv as [->|?]; [|done].
          rewrite Forall_forall in H2. apply list_elem_of_lookup_2 in Hj.
          specialize (H2 _ Hj). set_solver. }
        exists x. split; [done|]. by apply before_cons_head.
      * assert (w ∈ vs) as Hw'.
        { apply elem_of_cons in Hwv as [->|?]; [|done].
          rewrite Forall_forall in H2. apply list_elem_of_lookup_2 in Hj.
          specialize (H2 _ Hj). set_solver. }
        destruct (H5 i j ci cj w) as (v & ? & ?); try done; [lia|].
        exists v. split; [done|]. by apply before_cons.
Qed.

Lemma connected_components_ok G :
  components_ok G (nodes G) ∅ (connected_components G).
Proof. apply components_from_ok. set_solver. Qed.

Lemma plan_lookup_assign r c n i c' n' :
  plan_lookup (assign r c n i) c' n' =
  if decide (c' = c ∧ n' = n) then Some i else plan_lookup r c' n'.
Proof.
  unfold plan_lookup, assign. case_decide as Hd.
  - destruct Hd as [-> ->]. rewrite lookup_insert_eq. simpl. by rewrite lookup_insert_eq.
  - destruct (decide (c' = c)) as [->|Hc].
    + rewrite lookup_insert_eq. simpl. rewrite lookup_insert_ne by (intros ->; by apply Hd).
      destruct (r !! c); simpl; [done|]. by rewrite lookup_empty.
    + by rewrite lookup_insert_ne.
Qed.

Lemma plan_lookup_assign_list r cells n i c' n' :
  plan_lookup (fold_left (λ r cell, assign r cell n i) cells r) c' n' =
  if decide (c' ∈ cells ∧ n' = n) then Some i else plan_lookup r c' n'.
Proof.
  revert r. induction cells as [|c cells IH]; intros r; cbn [fold_left].
  { destruct (decide (c' ∈ [] ∧ n' = n)) as [[Hd _]|_]; [|done]. by apply elem_of_nil in Hd. }
  rewrite IH, plan_lookup_assign.
  repeat case_decide; try done; exfalso; rewrite elem_of_cons in *; intuition congruence.
Qed.

Lemma plan_lookup_apply_entry r e c' n' :
  plan_lookup (apply_entry r e) c' n' =
  if decide (c' ∈ e.1.2 ∧ n' = e.1.1) then Some e.2 else plan_lookup r c' n'.
Proof.
  unfold apply_entry. rewrite plan_lookup_assign_list.
  apply decide_ext. by rewrite elem_of_set_iter.
Qed.

(** An entry that no later entry overrides is what the plan holds. *)
Lemma plan_lookup_apply_trace tr r c n :
  (∀ e1 e2, e1 ∈ tr → e2 ∈ tr → c ∈ e1.1.2 → c ∈ e2.1.2 → e1.1.1 = n → e2.1.1 = n → e1.2 = e2.2) →
  (∀ e, e ∈ tr → c ∈ e.1.2 → e.1.1 = n → plan_lookup (apply_trace tr r) c n = Some e.2) ∧
  ((∀ e, e ∈ tr → ¬ (c ∈ e.1.2 ∧ e.1.1 = n)) → plan_lookup (apply_trace tr r) c n = plan_lookup r c n).
Proof.
  revert r. induction tr as [|e0 tr IH]; intros r Huniq; simpl.
  { split; [|done]. intros e He. by apply elem_of_nil in He. }
  destruct (IH (apply_entry r e0)) as [IH1 IH2].
  { intros e1 e2 ??. apply Huniq; by apply elem_of_cons; right. }
  split.
  - intros e He Hc Hn.
    destruct (decide (Exists (λ e' : Z * gset Z * Z, c ∈ e'.1.2 ∧ e'.1.1 = n) tr))
      as [(e' & He' & Hc' & Hn')%Exists_exists|Hno].
    + rewrite (IH1 e' He' Hc' Hn'). f_equal. apply Huniq; try done.
      by apply elem_of_cons; right.
    + rewrite Exists_exists in Hno.
      rewrite IH2 by (intros e' ? ?; apply Hno; eauto).
      apply elem_of_cons in He as [->|He]; [|exfalso; apply Hno; eauto].
      rewrite plan_lookup_apply_entry. by rewrite decide_True.
  - intros Hno. rewrite IH2 by (intros e' ?; apply Hno, elem_of_cons; auto).
    rewrite plan_lookup_apply_entry. rewrite decide_False; [done|].
    intros [??]. eapply (Hno e0); [apply elem_of_cons; auto|]. done.
Qed.

Lemma apply_trace_app tr1 tr2 r :
  apply_trace (tr1 ++ tr2) r = apply_trace tr2 (apply_trace tr1 r).
Proof. apply fold_left_app. Qed.

Lemma split_component_seen n bni r c :
  n ∈ seen bni →
  split_component n (bni, r) c =
  ({| current_last_index := current_last_index bni + 1; seen := seen bni |},
   apply_entry r (n, c, current_last_index bni + 1)).
Proof. intros Hn. unfold split_component, NewIndex_call. simpl. by rewrite decide_True. Qed.

Lemma split_component_unseen n bni r c :
  n ∉ seen bni →
  split_component n (bni, r) c =
  ({| current_last_index := current_last_index bni; seen := {[n]} ∪ seen bni |},
   apply_entry r (n, c, n)).
Proof. intros Hn. unfold split_component, NewIndex_call. simpl. by rewrite decide_False. Qed.

Lemma split_rest n cs bni r :
  n ∈ seen bni →
  fold_left (split_component n) cs (bni, r) =
  ({| current_last_index := current_last_index bni + Z.of_nat (length cs); seen := seen bni |},
   apply_trace (imap (λ j c, (n, c, current_last_index bni + 1 + Z.of_nat j)) cs) r).
Proof.
  revert bni r. induction cs as [|c cs IH]; intros bni r Hn.
  { destruct bni. simpl. by rewrite Z.add_0_r. }
  cbn [fold_left]. rewrite split_component_seen by done. rewrite IH by done.
  simpl. f_equal; [f_equal; lia|].
  unfold apply_trace. simpl. rewrite Z.add_0_r. f_equal.
  apply imap_ext. intros j c' _. unfold compose. f_equal. lia.
Qed.

Lemma split_node_trace G bni r item :
  item.1 ∉ seen bni →
  let comps := connected_components (subgraph G item.2) in
  split_node G (bni, r) item =
  (match comps with
   | [] => bni
   | _ :: cs => {| current_last_index := current_last_index bni + Z.of_nat (length cs);
                   seen := {[item.1]} ∪ seen bni |}
   end,
   apply_trace (node_trace item.1 comps (current_last_index bni + 1)) r).
Proof.
  intros Hn comps. unfold split_node. fold comps. destruct comps as [|c0 cs]; [done|].
  cbn [fold_left]. rewrite split_component_unseen by done.
  rewrite split_rest by set_solver. done.
Qed.

Lemma identify_trace G items bni r :
  NoDup items.*1 → (∀ n, n ∈ items.*1 → n ∉ seen bni) →
  (fold_left (split_node G) items (bni, r)).2 =
  apply_trace (plan_trace G items (current_last_index bni + 1)) r.
Proof.
  revert bni r. induction items as [|item items IH]; intros bni r Hnd Hseen; [done|].
  rewrite fmap_cons in Hnd, Hseen. apply NoDup_cons in Hnd as [Hhd Hnd].
  cbn [fold_left plan_trace]. rewrite split_node_trace by (apply Hseen, elem_of_cons; auto).
  rewrite apply_trace_app.
  destruct (connected_components (subgraph G item.2)) as [|c0 cs] eqn:Hc.
  - rewrite IH; [|done|intros; apply Hseen, elem_of_cons; auto].
    simpl. by rewrite Z.add_0_r.
  - rewrite IH; [|done|].
    + simpl. do 2 f_equal. lia.
    + simpl. intros n Hn. specialize (Hseen n). rewrite elem_of_cons in Hseen.
      set_solver.
Qed.

Lemma sorted_items_perm ntc : sorted_items ntc ≡ₚ ntc.
Proof. apply merge_sort_Permutation. Qed.

Lemma identify_split_trace N G ntc :
  NoDup ntc.*1 →
  __identify_split N G ntc = apply_trace (plan_trace G (sorted_items ntc) N) ∅.
Proof.
  intros Hnd. unfold __identify_split. rewrite identify_trace.
  - simpl. do 2 f_equal. lia.
  - by rewrite sorted_items_perm.
  - simpl. set_solver.
Qed.

Lemma elem_of_node_trace n comps next e :
  e ∈ node_trace n comps next ↔
  ∃ (j : nat) c, comps !! j = Some c ∧ e = (n, c, component_id n next j).
Proof.
  destruct comps as [|c0 cs]; simpl.
  { split; [intros H; by apply elem_of_nil in H|]. intros (j & c & H & _). by rewrite lookup_nil in H. }
  rewrite elem_of_cons, list_elem_of_lookup. setoid_rewrite list_lookup_imap. split.
  - intros [->|(j & Hj)]; [by exists 0%nat, c0|].
    destruct (cs !! j) as [c|] eqn:Hc; simplify_eq/=. by exists (S j), c.
  - intros ([|j] & c & Hj & ->); simpl in *; simplify_eq; [by left|].
    right. exists j. by rewrite Hj.
Qed.

Lemma extra_components_snoc G pre item :
  extra_components G (pre ++ [item]) =
  (extra_components G pre + pred (length (connected_components (subgraph G item.2))))%nat.
Proof. unfold extra_components. rewrite sum_list_with_app. simpl. lia. Qed.

Lemma elem_of_plan_trace G items next e :
  e ∈ plan_trace G items next ↔
  ∃ (k : nat) item, items !! k = Some item ∧
    e ∈ node_trace item.1 (connected_components (subgraph G item.2))
          (next + Z.of_nat (extra_components G (take k items))).
Proof.
  revert next. induction items as [|item items IH]; intros next; simpl.
  { split; [intros H; by apply elem_of_nil in H|]. intros (k & i & H & _). by rewrite lookup_nil in H. }
  rewrite elem_of_app, IH. split.
  - intros [H|(k & i & Hk & H)].
    + exists 0%nat, item. split; [done|]. simpl. unfold extra_components. simpl.
      by rewrite Z.add_0_r.
    + exists (S k), i. split; [done|]. simpl.
      replace (extra_components G (item :: take k items))
        with (pred (length (connected_components (subgraph G item.2)))
              + extra_components G (take k items))%nat by done.
      by rewrite Nat2Z.inj_add, Z.add_assoc.
  - intros ([|k] & i & Hk & H); simpl in *.
    + left. simplify_eq. unfold extra_components in H. simpl in H.
      by rewrite Z.add_0_r in H.
    + right. exists k, i. split; [done|].
      replace (extra_components G (item :: take k items))
        with (pred (length (connected_components (subgraph G item.2)))
              + extra_components G (take k items))%nat in H by done.
      by rewrite Nat2Z.inj_add, Z.add_assoc in H.
Qed.

Lemma NoDup_keys_lookup (items : list (Z * gset Z)) (k1 k2 : nat) i1 i2 :
  NoDup items.*1 → items !! k1 = Some i1 → items !! k2 = Some i2 → i1.1 = i2.1 →
  k1 = k2 ∧ i1 = i2.
Proof.
  intros Hnd H1 H2 Heq.
  assert (k1 = k2) as ->.
  { eapply NoDup_lookup; [exact Hnd| |]; rewrite list_lookup_fmap.
    - by rewrite H1.
    - rewrite H2. simpl. by rewrite Heq. }
  split; [done|congruence].
Qed.

Lemma components_subgraph_ok G cells :
  components_ok (subgraph G cells) (nodes (subgraph G cells)) ∅
    (connected_components (subgraph G cells)).
Proof. apply connected_components_ok. Qed.

(** What the plan holds for a cell around a fracture node. *)
Lemma identify_split_lookup N G ntc (k : nat) n cells cell :
  NoDup ntc.*1 →
  sorted_items ntc !! k = Some (n, cells) →
  let comps := connected_components (subgraph G cells) in
  let next := N + Z.of_nat (extra_components G (take k (sorted_items ntc))) in
  (∀ (j : nat) c, comps !! j = Some c → cell ∈ c →
     plan_lookup (__identify_split N G ntc) cell n = Some (component_id n next j)) ∧
  ((∀ c, c ∈ comps → cell ∉ c) →
     plan_lookup (__identify_split N G ntc) cell n = None).
Proof.
  intros Hnd Hk comps next. rewrite identify_split_trace by done.
  assert (NoDup (sorted_items ntc).*1) as Hnd' by (by rewrite sorted_items_perm).
  pose proof (components_subgraph_ok G cells) as Hok. fold comps in Hok.
  assert (∀ e, e ∈ plan_trace G (sorted_items ntc) N → e.1.1 = n →
            ∃ (j : nat) c, comps !! j = Some c ∧ e = (n, c, component_id n next j)) as Hentry.
  { intros e (k' & item & Hk' & He)%elem_of_plan_trace Hn.
    apply elem_of_node_trace in He as (j & c & Hj & ->). simpl in Hn.
    destruct (NoDup_keys_lookup _ _ _ _ _ Hnd' Hk' Hk Hn) as [-> ->].
    by exists j, c. }
  destruct (plan_lookup_apply_trace (plan_trace G (sorted_items ntc) N) ∅ cell n) as [H1 H2].
  { intros e1 e2 He1 He2 Hc1 Hc2 Hn1 Hn2.
    destruct (Hentry e1 He1 Hn1) as (j1 & c1 & Hj1 & ->).
    destruct (Hentry e2 He2 Hn2) as (j2 & c2 & Hj2 & ->). simpl in *.
    destruct (decide (j1 = j2)) as [->|Hne]; [done|].
    exfalso. eapply (comp_disjoint _ _ _ _ Hok j1 j2); eauto. }
  split.
  - intros j c Hj Hc.
    apply (H1 (n, c, component_id n next j)); [|done|done].
    apply elem_of_plan_trace. exists k, (n, cells). split; [done|].
    apply elem_of_node_trace. by exists j, c.
  - intros Hno. rewrite H2; [done|].
    intros e He [Hc Hn]. destruct (Hentry e He Hn) as (j & c & Hj & ->). simpl in *.
    eapply Hno; [|exact Hc]. by eapply list_elem_of_lookup_2.
Qed.

Lemma identify_split_lookup_None N G ntc n cell :
  NoDup ntc.*1 → n ∉ ntc.*1 → plan_lookup (__identify_split N G ntc) cell n = None.
Proof.
  intros Hnd Hn. rewrite identify_split_trace by done.
  destruct (plan_lookup_apply_trace (plan_trace G (sorted_items ntc) N) ∅ cell n) as [_ H2].
  - intros e1 e2 (k' & item & Hk' & He)%elem_of_plan_trace _ _ _ Hn1 _.
    apply elem_of_node_trace in He as (j & c & Hj & ->). simpl in Hn1. subst n.
    exfalso. apply Hn. rewrite <-sorted_items_perm.
    apply list_elem_of_fmap. exists item. split; [done|]. by eapply list_elem_of_lookup_2.
  - rewrite H2; [done|].
    intros e (k' & item & Hk' & He)%elem_of_plan_trace [_ Hn1].
    apply elem_of_node_trace in He as (j & c & Hj & ->). simpl in Hn1. subst n.
    apply Hn. rewrite <-sorted_items_perm.
    apply list_elem_of_fmap. exists item. split; [done|]. by eapply list_elem_of_lookup_2.
Qed.

Lemma extra_components_take_S G items (k : nat) item :
  items !! k = Some item →
  extra_components G (take (S k) items) =
  (extra_components G (take k items)
   + pred (length (connected_components (subgraph G item.2))))%nat.
Proof.
  intros Hk. rewrite (take_S_r _ _ _ Hk). apply extra_components_snoc.
Qed.

Lemma extra_components_mono G items (k1 k2 : nat) :
  (k1 ≤ k2)%nat →
  (extra_components G (take k1 items) ≤ extra_components G (take k2 items))%nat.
Proof.
  intros Hle. replace k2 with (k1 + (k2 - k1))%nat by lia.
  rewrite <-take_take_drop. unfold extra_components. rewrite sum_list_with_app. lia.
Qed.

(** Every entry of the plan comes from one component of one node. *)
Lemma identify_split_lookup_inv N G ntc cell n o :
  NoDup ntc.*1 →
  plan_lookup (__identify_split N G ntc) cell n = Some o →
  ∃ (k : nat) cells (j : nat) c,
    sorted_items ntc !! k = Some (n, cells) ∧
    connected_components (subgraph G cells) !! j = Some c ∧
    cell ∈ c ∧
    o = component_id n (N + Z.of_nat (extra_components G (take k (sorted_items ntc)))) j.
Proof.
  intros Hnd Hlook.
  destruct (decide (n ∈ ntc.*1)) as [Hin|Hnin];
    [|by rewrite identify_split_lookup_None in Hlook].
  rewrite <-sorted_items_perm in Hin.
  apply list_elem_of_fmap in Hin as ([n' cells] & -> & (k & Hk)%list_elem_of_lookup).
  simpl in *.
  destruct (identify_split_lookup N G ntc k n' cells cell Hnd Hk) as [H1 H2].
  destruct (decide (Exists (λ c, cell ∈ c) (connected_components (subgraph G cells))))
    as [(c & (j & Hj)%list_elem_of_lookup & Hc)%Exists_exists|Hno].
  - rewrite (H1 j c Hj Hc) in Hlook. simplify_eq. by exists k, cells, j, c.
  - rewrite Exists_exists in Hno. rewrite H2 in Hlook; [done|].
    intros c ??. apply Hno. eauto.
Qed.

(** Fresh ids name one component of one node. *)
Lemma component_id_inj G items N (k1 k2 j1 j2 : nat) n1 n2 cells1 cells2 :
  items !! k1 = Some (n1, cells1) → items !! k2 = Some (n2, cells2) →
  (j1 < length (connected_components (subgraph G cells1)))%nat →
  (j2 < length (connected_components (subgraph G cells2)))%nat →
  component_id n1 (N + Z.of_nat (extra_components G (take k1 items))) j1 ≠ n1 →
  component_id n2 (N + Z.of_nat (extra_components G (take k2 items))) j2 ≠ n2 →
  component_id n1 (N + Z.of_nat (extra_components G (take k1 items))) j1 =
  component_id n2 (N + Z.of_nat (extra_components G (take k2 items))) j2 →
  k1 = k2 ∧ j1 = j2.
Proof.
  intros Hk1 Hk2 Hj1 Hj2 Hf1 Hf2 Heq.
  destruct j1 as [|j1]; [done|]. destruct j2 as [|j2]; [done|]. simpl in Heq.
  pose proof (extra_components_take_S G items k1 _ Hk1) as E1.
  pose proof (extra_components_take_S G items k2 _ Hk2) as E2. simpl in E1, E2.
  destruct (decide (k1 = k2)) as [->|Hne]; [split; [done|]; lia|].
  exfalso. destruct (decide (k1 < k2)%nat).
  - pose proof (extra_components_mono G items (S k1) k2 ltac:(lia)). lia.
  - pose proof (extra_components_mono G items (S k2) k1 ltac:(lia)). lia.
Qed.

Lemma elem_of_assigned_ids plan cells n o :
  o ∈ assigned_ids plan cells n ↔ ∃ cell, cell ∈ cells ∧ plan_lookup plan cell n = Some o.
Proof.
  unfold assigned_ids. rewrite elem_of_list_to_set, list_elem_of_omap.
  by setoid_rewrite elem_of_set_iter.
Qed.

Lemma component_id_inj_same n next (j1 j2 : nat) :
  n < next → component_id n next j1 = component_id n next j2 → j1 = j2.
Proof. destruct j1, j2; simpl; lia. Qed.

(** The components around a node lie within its cells, and each holds the
    cell it was grown from. *)
Lemma component_subgraph_elem G cells (j : nat) c :
  connected_components (subgraph G cells) !! j = Some c →
  (∃ v, v ∈ c) ∧ (∀ x, x ∈ c → x ∈ cells ∧ x ∈ nodes G) ∧
  (∀ x y, x ∈ c → (y ∈ c ↔ connected (subgraph G cells) x y)).
Proof.
  intros Hj. pose proof (components_subgraph_ok G cells) as Hok.
  pose proof (comp_class _ _ _ _ Hok) as Hcl. rewrite Forall_forall in Hcl.
  destruct (Hcl c) as (v & Hv & _ & Hc); [by eapply list_elem_of_lookup_2|].
  split; [|split].
  - exists v. apply Hc, rtc_refl.
  - intros x Hx%Hc. apply (connected_nodes _ _ _ Hx) in Hv.
    apply elem_of_nodes_subgraph in Hv. tauto.
  - intros x y Hx%Hc. rewrite Hc. split; intros H.
    + eapply rtc_trans; [|exact H]. by apply connected_sym.
    + eapply rtc_trans; [exact Hx|exact H].
Qed.

Lemma component_subgraph_cover G cells x :
  x ∈ cells → x ∈ nodes G →
  ∃ (j : nat) c, connected_components (subgraph G cells) !! j = Some c ∧ x ∈ c.
Proof.
  intros Hx1 Hx2. pose proof (components_subgraph_ok G cells) as Hok.
  destruct (comp_cover _ _ _ _ Hok x) as [?|(c & (j & Hj)%list_elem_of_lookup & Hc)];
    [by apply elem_of_nodes_subgraph|set_solver|eauto].
Qed.

Lemma component_subgraph_unique G cells (j1 j2 : nat) c1 c2 x :
  connected_components (subgraph G cells) !! j1 = Some c1 →
  connected_components (subgraph G cells) !! j2 = Some c2 →
  x ∈ c1 → x ∈ c2 → j1 = j2.
Proof.
  intros H1 H2 Hx1 Hx2. pose proof (components_subgraph_ok G cells) as Hok.
  destruct (decide (j1 = j2)) as [|Hne]; [done|].
  exfalso. by apply (comp_disjoint _ _ _ _ Hok j1 j2 c1 c2 Hne H1 H2 x).
Qed.

(** C2. For a fracture node [n] that is a point of the mesh and has an
    incident cell in the graph: the ids the plan gives to [n] across its
    incident cells are as many as the connected components of the graph
    restricted to those cells, [n] itself is one of them, and two incident
    cells hold the same id exactly when they are connected there. *)
Theorem identify_split_component_count N G ntc n cells :
  NoDup ntc.*1 →
  (n, cells) ∈ ntc →
  n < N →
  (∃ cell, cell ∈ cells ∧ cell ∈ nodes G) →
  let plan := __identify_split N G ntc in
  size (assigned_ids plan cells n) = length (connected_components (subgraph G cells)) ∧
  n ∈ assigned_ids plan cells n ∧
  (∀ a b, a ∈ cells → b ∈ cells → a ∈ nodes G → b ∈ nodes G →
     plan_lookup plan a n = plan_lookup plan b n ↔ connected (subgraph G cells) a b).
Proof.
  intros Hnd Hin HnN (cell0 & Hc0 & Hc0G) plan. subst plan.
  rewrite <-sorted_items_perm in Hin. apply list_elem_of_lookup in Hin as (k & Hk).
  set (comps := connected_components (subgraph G cells)).
  set (next := N + Z.of_nat (extra_components G (take k (sorted_items ntc)))).
  assert (n < next) as Hnext by (unfold next; lia).
  assert (∀ cell (j : nat) c, comps !! j = Some c → cell ∈ c →
            plan_lookup (__identify_split N G ntc) cell n = Some (component_id n next j)) as Hlook.
  { intros cell j c Hj Hc.
    by destruct (identify_split_lookup N G ntc k n cells cell Hnd Hk) as [H1 _]; apply (H1 j c). }
  assert (assigned_ids (__identify_split N G ntc) cells n
          = list_to_set (component_id n next <$> seq 0 (length comps))) as Hids.
  { apply set_eq. intros o.
    rewrite elem_of_assigned_ids, elem_of_list_to_set, list_elem_of_fmap.
    setoid_rewrite elem_of_seq. split.
    - intros (cell & Hcell & Hl).
      apply identify_split_lookup_inv in Hl as (k' & cells' & j & c & Hk' & Hj & Hc & ->); [|done].
      assert (NoDup (sorted_items ntc).*1) as Hnd' by (by rewrite sorted_items_perm).
      destruct (NoDup_keys_lookup _ _ _ _ _ Hnd' Hk' Hk eq_refl) as [-> [= ->]].
      exists j. split; [done|]. apply lookup_lt_Some in Hj. fold comps in Hj. lia.
    - intros (j & -> & Hj).
      destruct (lookup_lt_is_Some_2 comps j) as [c Hc]; [lia|].
      destruct (component_subgraph_elem G cells j c Hc) as ((v & Hv) & Hsub & _).
      exists v. split; [by apply Hsub|]. by apply (Hlook v j c). }
  split; [|split].
  - rewrite Hids, size_list_to_set, length_fmap, length_seq; [done|].
    apply NoDup_fmap_2_strong; [|apply NoDup_seq].
    intros j1 j2 _ _. by apply component_id_inj_same.
  - destruct (component_subgraph_cover G cells cell0 Hc0 Hc0G) as (j & c & Hj & _).
    rewrite Hids, elem_of_list_to_set, list_elem_of_fmap. exists 0%nat. split; [done|].
    apply elem_of_seq. apply lookup_lt_Some in Hj. fold comps in Hj. lia.
  - intros a b Ha Hb HaG HbG.
    destruct (component_subgraph_cover G cells a Ha HaG) as (ja & ca & Hja & Hca).
    destruct (component_subgraph_cover G cells b Hb HbG) as (jb & cb & Hjb & Hcb).
    rewrite (Hlook a ja ca Hja Hca), (Hlook b jb cb Hjb Hcb).
    destruct (component_subgraph_elem G cells ja ca Hja) as (_ & _ & Hclass).
    split.
    + intros [= Heq%component_id_inj_same]; [|done]. subst jb.
      assert (ca = cb) as -> by congruence. by apply Hclass.
    + intros Hconn. apply (Hclass a b Hca) in Hconn.
      by rewrite (component_subgraph_unique G cells ja jb ca cb b Hja Hjb Hconn Hcb).
Qed.

(** ** Loops *)
Lemma py_for_app {S A} (l1 l2 : list A) (body : S → A → Py S) s :
  py_for (l1 ++ l2) body s = py_for l1 body s ≫= py_for l2 body.
Proof.
  revert s. induction l1 as [|x l1 IH]; intros s; simpl; [done|].
  destruct (body s x); simpl; [apply IH|done].
Qed.

(** A loop whose body keeps an invariant and never raises runs to its end. *)
Lemma py_for_total {S A} (I : list A → S → Prop) (l : list A) (body : S → A → Py S) s0 :
  I [] s0 →
  (∀ pre x post s, l = pre ++ x :: post → I pre s →
     ∃ s', body s x = Ok s' ∧ I (pre ++ [x]) s') →
  ∃ s', py_for l body s0 = Ok s' ∧ I l s'.
Proof.
  revert I s0. induction l as [|x l IH]; intros I s0 H0 Hstep; simpl.
  { by exists s0. }
  destruct (Hstep [] x l s0 eq_refl H0) as (s1 & -> & H1). simpl.
  apply (IH (λ pre, I (x :: pre))); [done|].
  intros pre y post s -> Hpre. apply (Hstep (x :: pre) y post s); done.
Qed.

(** A loop that ran to its end kept every invariant of its body. *)
Lemma py_for_partial {S A} (I : list A → S → Prop) (l : list A) (body : S → A → Py S) s0 s' :
  I [] s0 →
  (∀ pre x post s s', l = pre ++ x :: post → I pre s → body s x = Ok s' → I (pre ++ [x]) s') →
  py_for l body s0 = Ok s' → I l s'.
Proof.
  revert I s0. induction l as [|x l IH]; intros I s0 H0 Hstep; simpl.
  { by intros [= <-]. }
  destruct (body s0 x) as [s1|] eqn:Hb; simpl; [|done].
  apply (IH (λ pre, I (x :: pre))).
  - by apply (Hstep [] x l s0 s1).
  - intros pre y post s s2 -> Hpre. apply (Hstep (x :: pre) y post s s2); done.
Qed.

Lemma range_split (n : nat) pre x post :
  range n = pre ++ x :: post → x = Z.of_nat (length pre) ∧ (length pre < n)%nat.
Proof.
  intros H. assert (range n !! length pre = Some x) as Hl.
  { rewrite H. by rewrite list_lookup_middle. }
  unfold range in Hl. rewrite list_lookup_fmap in Hl.
  destruct (seq 0 n !! length pre) as [k|] eqn:Hk; [|done].
  apply lookup_seq in Hk as [-> ?]. simpl in Hl. simplify_eq. done.
Qed.

Lemma elem_of_range (n : nat) x : x ∈ range n ↔ 0 ≤ x < Z.of_nat n.
Proof.
  unfold range. rewrite list_elem_of_fmap. setoid_rewrite elem_of_seq. split.
  - intros (k & -> & ?). lia.
  - intros ?. exists (Z.to_nat x). lia.
Qed.

Lemma setitem_in_range {A} (a : list A) i x :
  0 ≤ i < Z.of_nat (length a) → setitem a i x = Ok (<[Z.to_nat i := x]> a).
Proof. intros H. unfold setitem, py_index. by rewrite decide_True. Qed.

Lemma getitem_in_range {A} (a : list A) i :
  0 ≤ i < Z.of_nat (length a) → ∃ x, a !! Z.to_nat i = Some x ∧ getitem a i = Ok x.
Proof.
  intros H. unfold getitem, py_index. rewrite decide_True by done. simpl.
  destruct (lookup_lt_is_Some_2 a (Z.to_nat i)) as [x Hx]; [lia|].
  exists x. by rewrite Hx.
Qed.

(** ** The entries of a plan *)
Lemma elem_of_plan_items plan i o :
  (i, o) ∈ plan_items plan ↔ ∃ cell, plan_lookup plan cell i = Some o.
Proof.
  unfold plan_items, plan_lookup. rewrite list_elem_of_bind. split.
  - intros (m & Hio%elem_of_map_to_list & Hm%list_elem_of_fmap).
    destruct Hm as ([cell m'] & -> & Hm%elem_of_map_to_list). simpl in *.
    exists cell. by rewrite Hm.
  - intros (cell & H). destruct (plan !! cell) as [m|] eqn:Hm; [|done]. simpl in H.
    exists m. split; [by apply elem_of_map_to_list|].
    apply list_elem_of_fmap. exists (cell, m). split; [done|]. by apply elem_of_map_to_list.
Qed.

Lemma elem_of_added_points plan o :
  o ∈ added_points plan ↔ ∃ i, (i, o) ∈ plan_items plan ∧ i ≠ o.
Proof.
  unfold added_points.
  assert (∀ l (acc : gset Z),
    o ∈ fold_left (λ added io, if decide (io.1 ≠ io.2) then {[io.2]} ∪ added else added) l acc
    ↔ o ∈ acc ∨ ∃ i, (i, o) ∈ l ∧ i ≠ o) as Hgen.
  { induction l as [|[i' o'] l IH]; intros acc; simpl.
    - split; [auto|]. intros [?|(i & H & _)]; [done|]. by apply elem_of_nil in H.
    - rewrite IH. setoid_rewrite elem_of_cons. case_decide as Hd; simpl in Hd.
      + rewrite elem_of_union, elem_of_singleton. split.
        * intros [[->|?]|(i & ? & ?)]; [right; exists i'; auto|auto|eauto].
        * intros [?|(i & [[= -> ->]|?] & ?)]; eauto.
      + split.
        * intros [?|(i & ? & ?)]; eauto.
        * intros [?|(i & [[= -> ->]|?] & ?)]; eauto. done. }
  rewrite Hgen. split; [|auto]. intros [H|H]; [|done]. set_solver.
Qed.

Section split_points.
Context {Point : Type} (uninitialized : Point).
Context (old_points : list Point) (plan : gmap Z (gmap Z Z)) (E : nat).
Let N := length old_points.
Context (Hrange : ∀ i o, (i, o) ∈ plan_items plan → 0 ≤ i < Z.of_nat N).
Context (Hadded : ∀ o, o ∈ added_points plan ↔ Z.of_nat N ≤ o < Z.of_nat N + Z.of_nat E).
Context (Hsize : size (added_points plan) = E).
Context (Hfun : ∀ i i' o, (i, o) ∈ plan_items plan → (i', o) ∈ plan_items plan →
                          i ≠ o → i' ≠ o → i = i').

Lemma GetPoint_in_range (points : list Point) p :
  0 ≤ p < Z.of_nat (length points) →
  ∃ x, points !! Z.to_nat p = Some x ∧ GetPoint points p = Ok x.
Proof.
  intros H. unfold GetPoint. rewrite decide_True by lia.
  destruct (lookup_lt_is_Some_2 points (Z.to_nat p)) as [x Hx]; [lia|].
  exists x. by rewrite Hx.
Qed.

Lemma SetPoint_in_range (points : list Point) p x :
  0 ≤ p < Z.of_nat (length points) → SetPoint points p x = Ok (<[Z.to_nat p := x]> points).
Proof. intros H. unfold SetPoint. by rewrite decide_True. Qed.

Lemma split_points_spec :
  ∃ pts C,
    split_points uninitialized old_points plan = Ok (pts, C) ∧
    length pts = (N + E)%nat ∧ length C = (N + E)%nat ∧
    (∀ p : nat, (p < N)%nat → C !! p = Some (Z.of_nat p) ∧ pts !! p = old_points !! p) ∧
    (∀ i o, (i, o) ∈ plan_items plan → i ≠ o →
       C !! Z.to_nat o = Some i ∧ pts !! Z.to_nat o = old_points !! Z.to_nat i).
Proof.
  unfold split_points. rewrite Hsize. fold N.
  set (I1 := λ (pre : list Z) (st : list Point * list Z),
         length st.1 = (N + E)%nat ∧ length st.2 = (N + E)%nat ∧
         ∀ p : nat, (p < length pre)%nat →
           st.2 !! p = Some (Z.of_nat p) ∧ st.1 !! p = old_points !! p).
  edestruct (py_for_total I1 (range N)) as (st1 & -> & (Hl1 & Hl2 & Hpre)).
  { split; [|split]; simpl; [by rewrite length_replicate..|]. intros p ?. lia. }
  { intros pre x post [np cn] Heq (Hn1 & Hn2 & Hp). simpl in *.
    apply range_split in Heq as [-> Hlt].
    destruct (GetPoint_in_range old_points (Z.of_nat (length pre))) as (y & Hy & ->); [lia|].
    simpl. rewrite SetPoint_in_range by lia. simpl.
    rewrite setitem_in_range by lia. simpl.
    eexists. split; [done|]. rewrite Nat2Z.id in *.
    split; [|split]; simpl; [by rewrite length_insert..|].
    intros p Hp'. rewrite length_app in Hp'. simpl in Hp'.
    destruct (decide (p = length pre)) as [->|Hne].
    - rewrite !list_lookup_insert_eq by lia. by rewrite Hy.
    - rewrite !list_lookup_insert_ne by done. apply Hp. lia. }
  simpl.
  set (I2 := λ (pre : list (Z * Z)) (st : list Point * list Z),
         length st.1 = (N + E)%nat ∧ length st.2 = (N + E)%nat ∧
         (∀ p : nat, (p < N)%nat →
            st.2 !! p = Some (Z.of_nat p) ∧ st.1 !! p = old_points !! p) ∧
         ∀ i o, (i, o) ∈ pre → i ≠ o →
           st.2 !! Z.to_nat o = Some i ∧ st.1 !! Z.to_nat o = old_points !! Z.to_nat i).
  edestruct (py_for_total I2 (plan_items plan)) as ([pts C] & -> & (Hm1 & Hm2 & Hm3 & Hm4)).
  { split; [done|]. split; [done|]. split.
    - intros p Hp. apply Hpre. unfold range. by rewrite length_fmap, length_seq.
    - intros i o H. by apply elem_of_nil in H. }
  { intros pre [i o] post [np cn] Heq (Hn1 & Hn2 & Hn3 & Hn4). simpl in *.
    assert ((i, o) ∈ plan_items plan) as Hio by (rewrite Heq; set_solver).
    assert (∀ i' o', (i', o') ∈ pre → (i', o') ∈ plan_items plan) as Hin
      by (intros; rewrite Heq; set_solver).
    case_decide as Hd.
    - pose proof (Hrange i o Hio) as Hi.
      assert (Z.of_nat N ≤ o < Z.of_nat N + Z.of_nat E) as Ho
        by (apply Hadded, elem_of_added_points; eauto).
      destruct (GetPoint_in_range old_points i) as (y & Hy & ->); [done|].
      simpl. rewrite SetPoint_in_range by lia. simpl.
      rewrite setitem_in_range by lia. simpl.
      eexists. split; [done|].
      split; [|split; [|split]]; simpl; [by rewrite length_insert..| |].
      + intros p Hp. rewrite !list_lookup_insert_ne by lia. by apply Hn3.
      + intros i' o' [Hin'|Hin']%elem_of_app Hne.
        * destruct (decide (o' = o)) as [->|Hoo].
          -- assert (i' = i) as -> by (eapply Hfun; eauto).
             rewrite !list_lookup_insert_eq by lia. by rewrite Hy.
          -- pose proof (Hin _ _ Hin') as Hio'.
             assert (Z.of_nat N ≤ o' < Z.of_nat N + Z.of_nat E)
               by (apply Hadded, elem_of_added_points; eauto).
             rewrite !list_lookup_insert_ne by lia. by apply Hn4.
        * apply list_elem_of_singleton in Hin' as [= -> ->].
          rewrite !list_lookup_insert_eq by lia. by rewrite Hy.
    - eexists. split; [done|].
      split; [done|]. split; [done|]. split; [done|].
      intros i' o' [Hin'|Hin']%elem_of_app Hne; [by apply Hn4|].
      apply list_elem_of_singleton in Hin' as [= -> ->]. done. }
  exists pts, C. simpl in *. done.
Qed.
End split_points.

Lemma extra_components_locate G items (e : nat) :
  (e < extra_components G items)%nat →
  ∃ (k : nat) item, items !! k = Some item ∧
    (extra_components G (take k items) ≤ e < extra_components G (take (S k) items))%nat.
Proof.
  induction items as [|x l IH] using rev_ind; [unfold extra_components; simpl; lia|].
  rewrite extra_components_snoc. intros He.
  destruct (decide (e < extra_components G l)%nat) as [Hlt|Hge].
  - destruct (IH Hlt) as (k & item & Hk & Hb). exists k, item.
    pose proof (lookup_lt_Some _ _ _ Hk).
    split; [by apply lookup_app_l_Some|].
    by rewrite !take_app_le by lia.
  - exists (length l), x. split; [by rewrite list_lookup_middle|].
    rewrite take_app_length.
    rewrite (take_ge (l ++ [x])) by (rewrite length_app; simpl; lia).
    rewrite extra_components_snoc. lia.
Qed.

Lemma extra_components_take_le G items (k : nat) :
  (extra_components G (take k items) ≤ extra_components G items)%nat.
Proof.
  rewrite <-(take_drop k items) at 2. unfold extra_components.
  rewrite sum_list_with_app. lia.
Qed.

Lemma plan_fresh_unique N G ntc cell1 cell2 n1 n2 o :
  NoDup ntc.*1 →
  plan_lookup (__identify_split N G ntc) cell1 n1 = Some o →
  plan_lookup (__identify_split N G ntc) cell2 n2 = Some o →
  o ≠ n1 → o ≠ n2 →
  n1 = n2 ∧ ∃ cells c, (n1, cells) ∈ ntc ∧
    c ∈ connected_components (subgraph G cells) ∧ cell1 ∈ c ∧ cell2 ∈ c.
Proof.
  intros Hnd Hl1 Hl2 Hne1 Hne2.
  apply identify_split_lookup_inv in Hl1
    as (k1 & cells1 & j1 & c1 & Hk1 & Hj1 & Hc1 & Ho1); [|done].
  apply identify_split_lookup_inv in Hl2
    as (k2 & cells2 & j2 & c2 & Hk2 & Hj2 & Hc2 & Ho2); [|done].
  destruct (component_id_inj G (sorted_items ntc) N k1 k2 j1 j2 n1 n2 cells1 cells2)
    as [-> ->]; try done.
  - by eapply lookup_lt_Some.
  - by eapply lookup_lt_Some.
  - congruence.
  - congruence.
  - congruence.
  - assert (n1 = n2 ∧ cells1 = cells2 ∧ c1 = c2) as (-> & -> & ->)
      by (split_and!; congruence).
    split; [done|]. exists cells2, c2.
    split; [|split; [by eapply list_elem_of_lookup_2|done]].
    rewrite <-sorted_items_perm. by eapply list_elem_of_lookup_2.
Qed.

Section plan_facts.
Context (N : Z) (G : Graph) (ntc : list (Z * gset Z)).
Context (Hnd : NoDup ntc.*1).
Context (Hkeys : ∀ n, n ∈ ntc.*1 → 0 ≤ n < N).
Let plan := __identify_split N G ntc.
Let E := extra_components G (sorted_items ntc).

Lemma plan_items_range i o : (i, o) ∈ plan_items plan → 0 ≤ i < N.
Proof.
  intros (cell & Hl)%elem_of_plan_items.
  apply identify_split_lookup_inv in Hl as (k & cells & _ & _ & Hk & _); [|done].
  apply Hkeys. rewrite <-sorted_items_perm. apply list_elem_of_fmap.
  exists (i, cells). split; [done|]. by eapply list_elem_of_lookup_2.
Qed.

Lemma plan_added_range o : o ∈ added_points plan ↔ N ≤ o < N + Z.of_nat E.
Proof.
  rewrite elem_of_added_points. split.
  - intros (i & (cell & Hl)%elem_of_plan_items & Hne).
    apply identify_split_lookup_inv in Hl as (k & cells & j & c & Hk & Hj & _ & ->); [|done].
    destruct j as [|j]; [done|]. simpl.
    pose proof (extra_components_take_S G _ _ _ Hk) as HS. simpl in HS.
    pose proof (extra_components_take_le G (sorted_items ntc) (S k)).
    apply lookup_lt_Some in Hj. subst E. lia.
  - intros Ho.
    destruct (extra_components_locate G (sorted_items ntc) (Z.to_nat (o - N)))
      as (k & [n cells] & Hk & Hb); [subst E; lia|].
    rewrite (extra_components_take_S G _ _ _ Hk) in Hb. simpl in Hb.
    set (j := (Z.to_nat (o - N) - extra_components G (take k (sorted_items ntc)))%nat).
    destruct (lookup_lt_is_Some_2 (connected_components (subgraph G cells)) (S j))
      as [c Hc]; [subst j; lia|].
    destruct (component_subgraph_elem G cells (S j) c Hc) as ((v & Hv) & _ & _).
    destruct (identify_split_lookup N G ntc k n cells v Hnd Hk) as [H1 _].
    specialize (H1 (S j) c Hc Hv). simpl in H1.
    assert (n ∈ ntc.*1) as Hn.
    { rewrite <-sorted_items_perm. apply list_elem_of_fmap.
      exists (n, cells). split; [done|]. by eapply list_elem_of_lookup_2. }
    apply Hkeys in Hn.
    exists n. split; [|lia]. apply elem_of_plan_items. exists v.
    fold plan in H1. rewrite H1. f_equal. subst j. lia.
Qed.

Lemma plan_added_size : size (added_points plan) = E.
Proof.
  assert (added_points plan = list_to_set ((λ e : nat, N + Z.of_nat e) <$> seq 0 E)) as ->.
  { apply set_eq. intros o. rewrite plan_added_range, elem_of_list_to_set, list_elem_of_fmap.
    setoid_rewrite elem_of_seq. split.
    - intros ?. exists (Z.to_nat (o - N)). lia.
    - intros (e & -> & ?). lia. }
  rewrite size_list_to_set, length_fmap, length_seq; [done|].
  apply NoDup_fmap_2; [|apply NoDup_seq]. intros ???. lia.
Qed.

Lemma plan_items_functional i i' o :
  (i, o) ∈ plan_items plan → (i', o) ∈ plan_items plan → i ≠ o → i' ≠ o → i = i'.
Proof using Hnd.
  intros (c1 & H1)%elem_of_plan_items (c2 & H2)%elem_of_plan_items Hn1 Hn2.
  by destruct (plan_fresh_unique N G ntc c1 c2 i i' o Hnd H1 H2) as [-> _].
Qed.
End plan_facts.

(** C3. Around a fracture node [n], the cells of the first component walked
    keep [n]; the [j]-th later component gets the id [N + e + j], where [e]
    counts the ids taken for the nodes before [n]: the ids come from one
    counter that starts at [N] and moves by one.  Hence an id that differs
    from its node is at least [N], and two cells hold the same such id only
    when they lie in one component around one node. *)
Theorem identify_split_ids N G ntc pre n cells post c0 cs :
  NoDup ntc.*1 →
  sorted_items ntc = pre ++ (n, cells) :: post →
  connected_components (subgraph G cells) = c0 :: cs →
  let plan := __identify_split N G ntc in
  (∀ cell, cell ∈ c0 → plan_lookup plan cell n = Some n) ∧
  (∀ (j : nat) c cell, cs !! j = Some c → cell ∈ c →
     plan_lookup plan cell n = Some (N + Z.of_nat (extra_components G pre) + Z.of_nat j)) ∧
  (∀ cell' n' o, plan_lookup plan cell' n' = Some o → o ≠ n' → N ≤ o) ∧
  (∀ cell1 cell2 n1 n2 o,
     plan_lookup plan cell1 n1 = Some o → plan_lookup plan cell2 n2 = Some o →
     o ≠ n1 → o ≠ n2 →
     n1 = n2 ∧ ∃ cells' c, (n1, cells') ∈ ntc ∧
       c ∈ connected_components (subgraph G cells') ∧ cell1 ∈ c ∧ cell2 ∈ c).
Proof.
  intros Hnd Hsorted Hcomps plan. subst plan.
  assert (sorted_items ntc !! length pre = Some (n, cells)) as Hk.
  { rewrite Hsorted. by rewrite list_lookup_middle. }
  assert (take (length pre) (sorted_items ntc) = pre) as Htake.
  { rewrite Hsorted. by rewrite take_app_length. }
  split; [|split; [|split]].
  - intros cell Hc.
    destruct (identify_split_lookup N G ntc _ n cells cell Hnd Hk) as [H1 _].
    rewrite (H1 0%nat c0); [done|by rewrite Hcomps|done].
  - intros j c cell Hj Hc.
    destruct (identify_split_lookup N G ntc _ n cells cell Hnd Hk) as [H1 _].
    rewrite (H1 (S j) c); [|by rewrite Hcomps|done]. simpl. by rewrite Htake.
  - intros cell' n' o Hl Hne.
    apply identify_split_lookup_inv in Hl as (k & cells' & j & c & _ & _ & _ & ->); [|done].
    destruct j as [|j]; simpl in *; [done|lia].
  - intros cell1 cell2 n1 n2 o. by apply plan_fresh_unique.
Qed.

Lemma identify_split_ids_witness :
  plan_lookup (__identify_split 6 graph_0_3_1 node_to_cells_5_2) 0 5 = Some 5 ∧
  plan_lookup (__identify_split 6 graph_0_3_1 node_to_cells_5_2) 3 5 = Some 6.
Proof.
  destruct (identify_split_ids 6 graph_0_3_1 node_to_cells_5_2
              [(2, {[1; 3]})] 5 {[0; 3]} [] {[0]} [{[3]}]) as (H1 & H2 & _).
  - by compute_done.
  - vm_compute. reflexivity.
  - vm_compute. reflexivity.
  - split.
    + apply H1. by compute_done.
    + apply (H2 0%nat {[3]}); [reflexivity|by compute_done].
Defined.

Lemma sorted_items_ascending ntc (i j : nat) a b :
  NoDup ntc.*1 → (i < j)%nat →
  sorted_items ntc !! i = Some a → sorted_items ntc !! j = Some b → a.1 < b.1.
Proof.
  intros Hnd Hij Hi Hj.
  assert (NoDup (sorted_items ntc).*1) as Hnd' by (by rewrite sorted_items_perm).
  pose proof (StronglySorted_merge_sort item_le ntc) as Hs. fold (sorted_items ntc) in Hs.
  assert (a.1 ≠ b.1) as Hne.
  { intros Heq. destruct (NoDup_keys_lookup _ _ _ _ _ Hnd' Hi Hj Heq). lia. }
  assert (item_le a b) as Hle; [|unfold item_le in Hle; lia].
  rewrite <-(take_drop_middle _ _ _ Hi) in Hs, Hj.
  apply StronglySorted_app_1_r, StronglySorted_inv in Hs as [_ Hall].
  rewrite Forall_forall in Hall. apply Hall.
  rewrite lookup_app_r in Hj by (rewrite length_take; lia).
  rewrite length_take_le in Hj by (apply lookup_lt_Some in Hi; lia).
  destruct (j - i)%nat as [|d] eqn:Hd; [lia|]. simpl in Hj.
  by eapply list_elem_of_lookup_2.
Qed.

(** ** The walk in any order *)

Lemma identify_split_graph_order N G ntc :
  identify_split_walk (λ _ cells, nodes (subgraph G cells)) N G ntc = __identify_split N G ntc.
Proof. reflexivity. Qed.

Lemma split_components_trace n comps bni r :
  n ∉ seen bni →
  fold_left (split_component n) comps (bni, r) =
  (match comps with
   | [] => bni
   | _ :: cs => {| current_last_index := current_last_index bni + Z.of_nat (length cs);
                   seen := {[n]} ∪ seen bni |}
   end,
   apply_trace (node_trace n comps (current_last_index bni + 1)) r).
Proof.
  intros Hn. destruct comps as [|c0 cs]; [done|].
  cbn [fold_left]. rewrite split_component_unseen by done.
  rewrite split_rest by set_solver. done.
Qed.

Section walk.
Context (walk : Z → gset Z → list Z) (G : Graph).

Lemma walk_trace_fold items bni r :
  NoDup items.*1 → (∀ n, n ∈ items.*1 → n ∉ seen bni) →
  (fold_left (split_node_walk walk G) items (bni, r)).2 =
  apply_trace (walk_trace walk G items (current_last_index bni + 1)) r.
Proof.
  revert bni r. induction items as [|item items IH]; intros bni r Hnd Hseen; [done|].
  rewrite fmap_cons in Hnd, Hseen. apply NoDup_cons in Hnd as [Hhd Hnd].
  cbn [fold_left walk_trace]. unfold split_node_walk at 2.
  rewrite split_components_trace by (apply Hseen, elem_of_cons; auto).
  rewrite apply_trace_app.
  destruct (walk_components walk G item) as [|c0 cs] eqn:Hc.
  - rewrite IH; [|done|intros; apply Hseen, elem_of_cons; auto].
    simpl. by rewrite Z.add_0_r.
  - rewrite IH; [|done|].
    + simpl. do 2 f_equal. lia.
    + simpl. intros n Hn. specialize (Hseen n). rewrite elem_of_cons in Hseen.
      set_solver.
Qed.

Lemma identify_split_walk_trace N ntc :
  NoDup ntc.*1 →
  identify_split_walk walk N G ntc = apply_trace (walk_trace walk G (sorted_items ntc) N) ∅.
Proof.
  intros Hnd. unfold identify_split_walk. rewrite walk_trace_fold.
  - simpl. do 2 f_equal. lia.
  - by rewrite sorted_items_perm.
  - simpl. set_solver.
Qed.

Lemma elem_of_walk_trace items next e :
  e ∈ walk_trace walk G items next ↔
  ∃ (k : nat) item, items !! k = Some item ∧
    e ∈ node_trace item.1 (walk_components walk G item)
          (next + Z.of_nat (walk_extra walk G (take k items))).
Proof.
  revert next. induction items as [|item items IH]; intros next; simpl.
  { split; [intros H; by apply elem_of_nil in H|].
    intros (k & i & H & _). by rewrite lookup_nil in H. }
  rewrite elem_of_app, IH. split.
  - intros [H|(k & i & Hk & H)].
    + exists 0%nat, item. split; [done|]. simpl. unfold walk_extra. simpl.
      by rewrite Z.add_0_r.
    + exists (S k), i. split; [done|]. simpl.
      replace (walk_extra walk G (item :: take k items))
        with (pred (length (walk_components walk G item))
              + walk_extra walk G (take k items))%nat by done.
      by rewrite Nat2Z.inj_add, Z.add_assoc.
  - intros ([|k] & i & Hk & H); simpl in *.
    + left. simplify_eq. unfold walk_extra in H. simpl in H.
      by rewrite Z.add_0_r in H.
    + right. exists k, i. split; [done|].
      replace (walk_extra walk G (item :: take k items))
        with (pred (length (walk_components walk G item))
              + walk_extra walk G (take k items))%nat in H by done.
      by rewrite Nat2Z.inj_add, Z.add_assoc in H.
Qed.

Lemma walk_components_ok item :
  components_ok (subgraph G item.2) (walk item.1 item.2) ∅ (walk_components walk G item).
Proof. apply components_from_ok. set_solver. Qed.

(** What the plan of a walk holds for a cell of a component around a
    fracture node. *)
Lemma identify_split_walk_lookup N ntc (k : nat) n cells cell (j : nat) c :
  NoDup ntc.*1 →
  sorted_items ntc !! k = Some (n, cells) →
  walk_components walk G (n, cells) !! j = Some c → cell ∈ c →
  plan_lookup (identify_split_walk walk N G ntc) cell n
  = Some (component_id n (N + Z.of_nat (walk_extra walk G (take k (sorted_items ntc)))) j).
Proof.
  intros Hnd Hk Hj Hc. rewrite identify_split_walk_trace by done.
  set (next := N + Z.of_nat (walk_extra walk G (take k (sorted_items ntc)))).
  assert (NoDup (sorted_items ntc).*1) as Hnd' by (by rewrite sorted_items_perm).
  pose proof (walk_components_ok (n, cells)) as Hok.
  assert (∀ e, e ∈ walk_trace walk G (sorted_items ntc) N → e.1.1 = n →
            ∃ (j : nat) c, walk_components walk G (n, cells) !! j = Some c ∧
              e = (n, c, component_id n next j)) as Hentry.
  { intros e (k' & item & Hk' & He)%elem_of_walk_trace Hn.
    apply elem_of_node_trace in He as (j' & c' & Hj' & ->). simpl in Hn.
    destruct (NoDup_keys_lookup _ _ _ _ _ Hnd' Hk' Hk Hn) as [-> ->].
    by exists j', c'. }
  destruct (plan_lookup_apply_trace (walk_trace walk G (sorted_items ntc) N) ∅ cell n)
    as [H1 _].
  { intros e1 e2 He1 He2 Hc1 Hc2 Hn1 Hn2.
    destruct (Hentry e1 He1 Hn1) as (j1 & c1 & Hj1 & ->).
    destruct (Hentry e2 He2 Hn2) as (j2 & c2 & Hj2 & ->). simpl in *.
    destruct (decide (j1 = j2)) as [->|Hne]; [done|].
    exfalso. eapply (comp_disjoint _ _ _ _ Hok j1 j2); eauto. }
  apply (H1 (n, c, component_id n next j)); [|done|done].
  apply elem_of_walk_trace. exists k, (n, cells). split; [done|].
  apply elem_of_node_trace. by exists j, c.
Qed.

(** The component of the first cell of the walk is yielded first. *)
Lemma walk_components_first item v rest :
  walk item.1 item.2 = v :: rest →
  ∃ c0 cs, walk_components walk G item = c0 :: cs ∧ v ∈ c0.
Proof.
  intros Hw. unfold walk_components. rewrite Hw. simpl.
  rewrite decide_False by set_solver.
  eexists _, _. split; [done|]. apply plain_bfs_spec, rtc_refl.
Qed.

(** A component is yielded when the walk first meets one of its cells. *)
Lemma walk_components_order n cells (i j : nat) ci cj w :
  walk n cells ≡ₚ nodes (subgraph G cells) →
  (i < j)%nat →
  walk_components walk G (n, cells) !! i = Some ci →
  walk_components walk G (n, cells) !! j = Some cj →
  w ∈ cj → ∃ v, v ∈ ci ∧ before (walk n cells) v w.
Proof.
  intros Hperm Hij Hi Hj Hw.
  pose proof (walk_components_ok (n, cells)) as Hok. simpl in Hok.
  apply (comp_order _ _ _ _ Hok i j ci cj w Hij Hi Hj Hw).
  pose proof (comp_class _ _ _ _ Hok) as Hcl. rewrite Forall_forall in Hcl.
  destruct (Hcl cj) as (v & Hv & _ & Hc); [by eapply list_elem_of_lookup_2|].
  rewrite Hperm. rewrite Hperm in Hv.
  eapply connected_nodes; [|exact Hv]. by apply Hc.
Qed.

End walk.

(** C8, as the code has it.  The nodes are walked in ascending order.
    Around a node, the components are walked in the order in which
    networkx iterates the cells of the view, whatever that order is: the
    component of the first cell iterated comes first, and a component
    comes before another when one of its cells is iterated before each
    cell of the other; the first component keeps the node and every later
    one gets an id from the counter.  That is the order of the smallest
    cells when the iteration is in ascending cell id. *)
Theorem identify_split_walk_order walk N G ntc :
  NoDup ntc.*1 →
  iterates_views G ntc walk →
  let items := sorted_items ntc in
  let plan := identify_split_walk walk N G ntc in
  items ≡ₚ ntc ∧
  (∀ (i j : nat) a b, (i < j)%nat → items !! i = Some a → items !! j = Some b → a.1 < b.1) ∧
  (∀ n cells, (n, cells) ∈ ntc →
     let comps := walk_components walk G (n, cells) in
     (∀ v rest, walk n cells = v :: rest → ∃ c0 cs, comps = c0 :: cs ∧ v ∈ c0) ∧
     (∀ (i j : nat) ci cj w, (i < j)%nat → comps !! i = Some ci → comps !! j = Some cj →
        w ∈ cj → ∃ v, v ∈ ci ∧ before (walk n cells) v w) ∧
     (∀ c0 cs cell, comps = c0 :: cs → cell ∈ c0 → plan_lookup plan cell n = Some n) ∧
     (∀ c0 cs (j : nat) c cell, comps = c0 :: cs → cs !! j = Some c → cell ∈ c →
        ∃ o, plan_lookup plan cell n = Some o ∧ N ≤ o) ∧
     (StronglySorted Z.lt (walk n cells) → smallest_cell_first comps)).
Proof.
  intros Hnd Hwalk items plan. subst items plan.
  split; [apply sorted_items_perm|].
  split; [intros i j a b; by apply sorted_items_ascending|].
  intros n cells Hin comps.
  assert (∃ k : nat, sorted_items ntc !! k = Some (n, cells)) as [k Hk].
  { apply list_elem_of_lookup. by rewrite sorted_items_perm. }
  assert (∀ (i j : nat) ci cj w, (i < j)%nat → comps !! i = Some ci → comps !! j = Some cj →
            w ∈ cj → ∃ v, v ∈ ci ∧ before (walk n cells) v w) as Horder.
  { intros i j ci cj w. apply walk_components_order. by apply Hwalk. }
  split_and!.
  - intros v rest Hw. by apply (walk_components_first walk G (n, cells) v rest).
  - exact Horder.
  - intros c0 cs cell Hc Hcell.
    apply (identify_split_walk_lookup walk G N ntc k n cells cell 0%nat c0 Hnd Hk); [|done].
    fold comps. by rewrite Hc.
  - intros c0 cs j c cell Hc Hj Hcell. eexists. split.
    + apply (identify_split_walk_lookup walk G N ntc k n cells cell (S j) c Hnd Hk); [|done].
      fold comps. by rewrite Hc.
    + simpl. lia.
  - intros Hsorted i j ci cj w Hij Hi Hj Hw.
    destruct (Horder i j ci cj w Hij Hi Hj Hw) as (v & Hv & Hb).
    exists v. split; [done|]. by eapply before_sorted.
Qed.

Lemma identify_split_walk_order_witness :
  NoDup node_to_cells_5_2.*1 ∧
  iterates_views graph_0_3_1 node_to_cells_5_2 walk_3_first ∧
  walk_components walk_3_first graph_0_3_1 (5, {[0; 3]}) = [{[3]}; {[0]}] ∧
  plan_lookup (identify_split_walk walk_3_first 6 graph_0_3_1 node_to_cells_5_2) 3 5 = Some 5 ∧
  plan_lookup (__identify_split 6 graph_0_3_1 node_to_cells_5_2) 3 5 = Some 6.
Proof.
  assert (NoDup node_to_cells_5_2.*1) as Hnd by compute_done.
  assert (iterates_views graph_0_3_1 node_to_cells_5_2 walk_3_first) as Hwalk.
  { intros n cells Hin. unfold node_to_cells_5_2 in Hin.
    apply elem_of_cons in Hin as [Heq|Hin].
    - injection Heq as -> ->.
      replace (nodes (subgraph graph_0_3_1 {[0; 3]})) with [0; 3] by (vm_compute; reflexivity).
      apply perm_swap.
    - apply elem_of_cons in Hin as [Heq|Hin]; [|by apply elem_of_nil in Hin].
      injection Heq as -> ->. reflexivity. }
  split; [exact Hnd|]. split; [exact Hwalk|].
  split; [vm_compute; reflexivity|].
  split; [|vm_compute; reflexivity].
  pose proof (identify_split_walk_order walk_3_first 6 graph_0_3_1 node_to_cells_5_2 Hnd Hwalk)
    as (_ & _ & H).
  destruct (H 5 {[0; 3]}) as (_ & _ & H1 & _).
  { by compute_done. }
  apply (H1 {[3]} [{[0]}]); [vm_compute; reflexivity|by compute_done].
Defined.

(** C8 fails as stated: the walk is not ordered by smallest cell id.  In a
    graph that enumerates cell 8 before cell 1, the component of cell 8 is
    walked first and keeps node 0, and cell 1 gets the new id. *)
Lemma identify_split_not_smallest_first :
  ¬ smallest_cell_first (connected_components (subgraph graph_8_1 {[1; 8]})) ∧
  plan_lookup (__identify_split 4 graph_8_1 node_to_cells_8_1) 8 0 = Some 0 ∧
  plan_lookup (__identify_split 4 graph_8_1 node_to_cells_8_1) 1 0 = Some 4.
Proof.
  split; [|split; vm_compute; reflexivity].
  intros H.
  destruct (H 0%nat 1%nat {[8]} {[1]} 1) as (v & Hv & Hlt);
    [lia|vm_compute; reflexivity|vm_compute; reflexivity|set_solver|].
  apply elem_of_singleton in Hv. lia.
Qed.

Section volumetric.
Context {Point DataTuple : Type} (uninitialized : Point) (cell_faces : Z → list Z → list (list Z)).

(** The split of the points under a plan of [__identify_split]. *)
Lemma split_points_of_plan (old_points : list Point) G ntc :
  let N := Z.of_nat (length old_points) in
  let plan := __identify_split N G ntc in
  let E := size (added_points plan) in
  NoDup ntc.*1 → (∀ n, n ∈ ntc.*1 → 0 ≤ n < N) →
  ∃ pts C,
    split_points uninitialized old_points plan = Ok (pts, C) ∧
    length pts = (length old_points + E)%nat ∧ length C = (length old_points + E)%nat ∧
    (∀ o, o ∈ added_points plan ↔ N ≤ o < N + Z.of_nat E) ∧
    (∀ p : nat, (p < length old_points)%nat →
       C !! p = Some (Z.of_nat p) ∧ pts !! p = old_points !! p) ∧
    (∀ i o, (i, o) ∈ plan_items plan → i ≠ o →
       0 ≤ i < N ∧ C !! Z.to_nat o = Some i ∧ pts !! Z.to_nat o = old_points !! Z.to_nat i).
Proof.
  intros N plan E Hnd Hkeys.
  pose proof (plan_added_size N G ntc Hnd Hkeys) as Hsize. fold plan in Hsize.
  pose proof (plan_added_range N G ntc Hnd Hkeys) as Hadded. fold plan in Hadded.
  rewrite <-Hsize in Hadded. fold E in Hadded.
  destruct (split_points_spec uninitialized old_points plan E)
    as (pts & C & Heq & Hl1 & Hl2 & Hold & Hnew).
  - intros i o. apply (plan_items_range N G ntc Hnd Hkeys).
  - exact Hadded.
  - done.
  - apply (plan_items_functional N G ntc Hnd).
  - exists pts, C. split_and!; try done.
    intros i o Hio Hne. split; [by eapply (plan_items_range N G ntc Hnd Hkeys)|].
    by apply Hnew.
Qed.


(** C5. Under a plan of [__identify_split] for fracture nodes that are
    points of the mesh: [collocated_nodes[i] = i] for every old point
    [i < N], [collocated_nodes[new] = orig] for every replacement of
    [orig] by another id [new], the coordinates of every new point are
    those of the old point that [collocated_nodes] names, and these are
    the points of the returned mesh. *)
Theorem collocated_nodes_spec (old_mesh : @vtkUnstructuredGrid Point DataTuple) G ntc :
  let N := Z.of_nat (GetNumberOfPoints old_mesh) in
  let plan := __identify_split N G ntc in
  NoDup ntc.*1 → (∀ n, n ∈ ntc.*1 → 0 ≤ n < N) →
  ∃ new_points collocated_nodes,
    split_points uninitialized (Points old_mesh) plan = Ok (new_points, collocated_nodes) ∧
    length new_points = length collocated_nodes ∧
    (∀ i, 0 ≤ i < N → collocated_nodes !! Z.to_nat i = Some i) ∧
    (∀ cell orig_node new_node,
       plan_lookup plan cell orig_node = Some new_node → new_node ≠ orig_node →
       collocated_nodes !! Z.to_nat new_node = Some orig_node) ∧
    (∀ (p : nat) c, collocated_nodes !! p = Some c →
       ∃ x, new_points !! p = Some x ∧ 0 ≤ c ∧ Points old_mesh !! Z.to_nat c = Some x) ∧
    (∀ new_mesh, __perform_polyhedron_split uninitialized cell_faces old_mesh plan = Ok new_mesh →
       Points new_mesh = new_points).
Proof.
  intros N plan Hnd Hkeys. unfold GetNumberOfPoints in N.
  destruct (split_points_of_plan (Points old_mesh) G ntc Hnd Hkeys)
    as (pts & C & Heq & Hl1 & Hl2 & Hadded & Hold & Hnew).
  exists pts, C. split_and!; [done|congruence| | | |].
  - intros i Hi. destruct (Hold (Z.to_nat i)) as [Hc _]; [lia|].
    rewrite Hc. f_equal. lia.
  - intros cell i o Hl Hne. apply (Hnew i o); [|done].
    apply elem_of_plan_items. eauto.
  - intros p c Hp.
    destruct (decide (p < length (Points old_mesh))%nat) as [Hlt|Hge].
    + destruct (Hold p Hlt) as [Hc Hx]. rewrite Hc in Hp. simplify_eq.
      destruct (lookup_lt_is_Some_2 (Points old_mesh) p Hlt) as [x Hx'].
      exists x. rewrite Nat2Z.id. split; [congruence|]. split; [lia|done].
    + pose proof (lookup_lt_Some _ _ _ Hp) as Hlen. rewrite Hl2 in Hlen.
      assert (Z.of_nat p ∈ added_points (__identify_split N G ntc)) as Hin
        by (apply Hadded; lia).
      apply elem_of_added_points in Hin as (i & Hio & Hne).
      destruct (Hnew i _ Hio Hne) as (Hi & Hc & Hx).
      rewrite Nat2Z.id in Hc, Hx. rewrite Hc in Hp. simplify_eq.
      destruct (lookup_lt_is_Some_2 (Points old_mesh) (Z.to_nat c)) as [x Hx']; [lia|].
      exists x. split; [congruence|]. split; [lia|done].
  - intros new_mesh. unfold __perform_polyhedron_split. subst plan N. rewrite Heq. simpl.
    destruct (py_for _ _ _) as [new_cells|]; simpl; [|done].
    unfold __copy_fields. destruct (mapM_py _ _); simpl; [|done].
    by intros [= <-].
Qed.
End volumetric.

Lemma read_faces_stream (faces : list (list Z)) :
  read_faces (length faces) (faces ≫= λ face, Z.of_nat (length face) :: face) = Some faces.
Proof.
  induction faces as [|face faces IH]; [done|].
  rewrite bind_cons. cbn [length read_faces app].
  rewrite decide_True by (rewrite length_app; lia).
  rewrite Nat2Z.id, take_app_length, drop_app_length, IH. done.
Qed.

Lemma read_face_stream_face_stream node_mapping cell :
  read_face_stream (face_stream node_mapping cell) = Some (Faces (relabel_cell node_mapping cell)).
Proof.
  unfold read_face_stream, face_stream. rewrite decide_True by lia. rewrite Nat2Z.id.
  simpl. rewrite <-(read_faces_stream ((λ face : list Z, get_or_self node_mapping <$> face) <$> Faces cell)).
  rewrite length_fmap. f_equal.
  induction (Faces cell) as [|face faces IH]; [done|].
  rewrite fmap_cons, !bind_cons, IH. by rewrite length_fmap.
Qed.

Lemma InsertNextCell_face_stream cell_faces cells node_mapping cell :
  InsertNextCell cell_faces cells (CellType cell) (face_stream node_mapping cell)
  = Ok (cells ++ [inserted_cell cell_faces node_mapping cell]).
Proof.
  unfold InsertNextCell, inserted_cell. case_decide as Ht; [|done].
  rewrite read_face_stream_face_stream. unfold relabel_cell. simpl. by rewrite Ht.
Qed.

Lemma inserted_cell_polyhedron cell_faces node_mapping cell :
  CellType cell = VTK_POLYHEDRON →
  inserted_cell cell_faces node_mapping cell = relabel_cell node_mapping cell.
Proof. intros Ht. unfold inserted_cell. by rewrite decide_True. Qed.

Lemma inserted_cell_type cell_faces node_mapping cell :
  CellType (inserted_cell cell_faces node_mapping cell) = CellType cell.
Proof. unfold inserted_cell. by case_decide. Qed.

Section faces.
Context {Point DataTuple : Type} (uninitialized : Point) (cell_faces : Z → list Z → list (list Z)).

Lemma GetCell_lookup (mesh : @vtkUnstructuredGrid Point DataTuple) (c : nat) cell :
  Cells mesh !! c = Some cell → GetCell mesh (Z.of_nat c) = Ok cell.
Proof. intros H. unfold GetCell. rewrite decide_True by lia. by rewrite Nat2Z.id, H. Qed.

Lemma GetCell_Ok (mesh : @vtkUnstructuredGrid Point DataTuple) c cell :
  GetCell mesh c = Ok cell → 0 ≤ c ∧ Cells mesh !! Z.to_nat c = Some cell.
Proof.
  unfold GetCell. case_decide; [|done].
  destruct (Cells mesh !! Z.to_nat c) eqn:Hc; [|done]. by intros [= ->].
Qed.

(** The cell loop of [__perform_polyhedron_split] never raises. *)
Lemma relabel_cells_loop (old_mesh : @vtkUnstructuredGrid Point DataTuple)
    (plan : gmap Z (gmap Z Z)) :
  py_for (range (GetNumberOfCells old_mesh))
    (λ new_cells c,
       let node_mapping := default ∅ (plan !! c) in
       cell ← GetCell old_mesh c;
       InsertNextCell cell_faces new_cells (CellType cell) (face_stream node_mapping cell))
    []
  = Ok (imap (λ c cell, inserted_cell cell_faces (default ∅ (plan !! Z.of_nat c)) cell)
          (Cells old_mesh)).
Proof.
  set (f := λ (c : nat) cell, inserted_cell cell_faces (default ∅ (plan !! Z.of_nat c)) cell).
  edestruct (py_for_total
    (λ (pre : list Z) (cs : list vtkCell), cs = imap f (take (length pre) (Cells old_mesh))))
    as (cs & -> & ->); [done| |].
  - intros pre x post cs Heq ->. apply range_split in Heq as [-> Hlt].
    destruct (lookup_lt_is_Some_2 (Cells old_mesh) (length pre) Hlt) as [cell Hcell].
    rewrite (GetCell_lookup _ _ _ Hcell). simpl. rewrite InsertNextCell_face_stream.
    eexists. split; [done|].
    rewrite length_app. simpl. rewrite Nat.add_1_r, (take_S_r _ _ _ Hcell), imap_app.
    simpl. rewrite length_take_le by (unfold GetNumberOfCells in Hlt; lia).
    by rewrite Nat.add_0_r.
  - unfold range. rewrite length_fmap, length_seq. by rewrite take_ge.
Qed.


(** A cell of another type comes out with the face stream as its point
    list: the count of faces, then for each face its length and its
    relabelled points. *)
Lemma polyhedron_split_other_cell (old_mesh new_mesh : @vtkUnstructuredGrid Point DataTuple)
    (cell_to_node_mapping : gmap Z (gmap Z Z)) (c : nat) cell :
  __perform_polyhedron_split uninitialized cell_faces old_mesh cell_to_node_mapping
    = Ok new_mesh →
  Cells old_mesh !! c = Some cell → CellType cell ≠ VTK_POLYHEDRON →
  ∃ cell', Cells new_mesh !! c = Some cell' ∧
    CellType cell' = CellType cell ∧
    PointIds cell' = face_stream (default ∅ (cell_to_node_mapping !! Z.of_nat c)) cell.
Proof.
  unfold __perform_polyhedron_split.
  destruct (split_points _ _ _) as [pc|]; simpl; [|done].
  rewrite relabel_cells_loop. simpl.
  unfold __copy_fields. destruct (mapM_py _ _); simpl; [|done].
  intros [= <-] Hc Ht. simpl. eexists. split.
  { rewrite list_lookup_imap, Hc. done. }
  unfold inserted_cell. by rewrite decide_False.
Qed.
End faces.

Lemma elem_of_copies_of plan n x :
  x ∈ copies_of plan n ↔ x = n ∨ ∃ cell, plan_lookup plan cell n = Some x.
Proof.
  unfold copies_of. rewrite elem_of_union, elem_of_singleton, elem_of_list_to_set, list_elem_of_omap.
  apply or_iff_compat_l. split.
  - intros ([i o] & Hin & Hd). simpl in Hd. case_decide; simplify_eq.
    by apply elem_of_plan_items.
  - intros Hex%elem_of_plan_items. exists (n, x). split; [done|]. simpl. by rewrite decide_True.
Qed.

Lemma elem_of_enumerate {A} (l : list A) i x :
  (i, x) ∈ enumerate l ↔ 0 ≤ i ∧ l !! Z.to_nat i = Some x.
Proof.
  unfold enumerate. rewrite list_elem_of_lookup. setoid_rewrite list_lookup_imap. split.
  - intros (k & Hk). destruct (l !! k) eqn:Hl; simplify_eq/=. rewrite Nat2Z.id. split; [lia|done].
  - intros [Hi Hl]. exists (Z.to_nat i). rewrite Hl. simpl. do 2 f_equal. lia.
Qed.

Lemma take_imap {A B} (f : nat → A → B) (l : list A) (k : nat) :
  take k (imap f l) = imap f (take k l).
Proof.
  revert f k. induction l as [|x l IH]; intros f [|k]; simpl; try done.
  f_equal. apply IH.
Qed.

Lemma enumerate_split {A} (l : list A) pre x post :
  enumerate l = pre ++ x :: post →
  x.1 = Z.of_nat (length pre) ∧ l !! length pre = Some x.2 ∧
  pre = enumerate (take (length pre) l).
Proof.
  intros H.
  assert (enumerate l !! length pre = Some x) as Hl by (rewrite H; by rewrite list_lookup_middle).
  unfold enumerate in Hl. rewrite list_lookup_imap in Hl.
  destruct (l !! length pre) as [y|] eqn:Hy; simplify_eq/=. split; [done|]. split; [done|].
  assert (take (length pre) (enumerate l) = pre) as Ht by (rewrite H; by rewrite take_app_length).
  rewrite <-Ht at 1. unfold enumerate. apply take_imap.
Qed.

Section node_map.
Context {Point : Type} (uninitialized : Point).

(** The 3-D to 2-D node map sends each fracture node to its rank. *)
Lemma fracture_points_map (mesh_points : list Point) (keys : list Z) pm :
  NoDup keys →
  fracture_points uninitialized mesh_points keys = Ok pm →
  ∀ n k, pm.2 !! n = Some k ↔ 0 ≤ k ∧ keys !! Z.to_nat k = Some n.
Proof.
  intros Hnd Hfp n k. rewrite <-elem_of_enumerate. revert n k.
  unfold fracture_points in Hfp.
  eapply (py_for_partial
    (λ pre (st : list Point * gmap Z Z), ∀ n k, st.2 !! n = Some k ↔ (k, n) ∈ pre)
    _ _ _ pm); [| |exact Hfp].
  - intros n k. simpl. rewrite lookup_empty. split; [done|]. intros H. by apply elem_of_nil in H.
  - intros pre [i n'] post [pts m] st' Heq Hinv Hbody. simpl in *.
    destruct (GetPoint mesh_points n'); simpl in Hbody; [|done].
    destruct (SetPoint pts i a); simpl in Hbody; [|done]. simplify_eq. simpl.
    intros n k. rewrite elem_of_app, list_elem_of_singleton, <-Hinv.
    destruct (decide (n = n')) as [->|Hne].
    + rewrite lookup_insert_eq. split; [intros [= ->]; auto|].
      intros [Hm|[= ->]]; [|done]. exfalso.
      apply Hinv in Hm.
      apply enumerate_split in Heq as (Hi & Hl & Hpre). simpl in *.
      rewrite Hpre in Hm. apply elem_of_enumerate in Hm as [Hk Hm].
      rewrite lookup_take_Some in Hm. destruct Hm as [Hm Hlt].
      assert (Z.to_nat k = length pre) by (eapply NoDup_lookup; eauto). lia.
    + rewrite lookup_insert_ne by done. split; [auto|]. intros [?|[= -> ->]]; done.
Qed.
End node_map.

Section buckets.
Context (node_3d_to_node_2d : gmap Z Z).

Lemma bucket_of_miss pre k : ¬ bucket_hit node_3d_to_node_2d pre k → bucket_of node_3d_to_node_2d pre k = ∅.
Proof.
  intros Hno. unfold bucket_of.
  assert (pre ≫= bucket_sel node_3d_to_node_2d k = []) as ->; [|done].
  induction pre as [|io pre IH]; [done|].
  rewrite bind_cons. unfold bucket_hit in Hno. rewrite Exists_cons in Hno.
  unfold bucket_sel at 1. rewrite decide_False by tauto. simpl. apply IH.
  unfold bucket_hit. tauto.
Qed.

Lemma bucket_hit_snoc pre io k :
  bucket_hit node_3d_to_node_2d (pre ++ [io]) k ↔ bucket_hit node_3d_to_node_2d pre k ∨ node_3d_to_node_2d !! io.1 = Some k.
Proof. unfold bucket_hit. rewrite Exists_app, Exists_cons, Exists_nil. tauto. Qed.

Lemma bucket_of_snoc pre io k :
  bucket_of node_3d_to_node_2d (pre ++ [io]) k = bucket_of node_3d_to_node_2d pre k ∪ list_to_set (bucket_sel node_3d_to_node_2d k io).
Proof.
  unfold bucket_of. rewrite bind_app, list_to_set_app_L, bind_cons. simpl.
  by rewrite app_nil_r.
Qed.

Lemma elem_of_bucket_of pre k x :
  x ∈ bucket_of node_3d_to_node_2d pre k ↔
  ∃ i o, (i, o) ∈ pre ∧ node_3d_to_node_2d !! i = Some k ∧ (x = i ∨ x = o).
Proof.
  unfold bucket_of. rewrite elem_of_list_to_set, list_elem_of_bind. split.
  - intros ([i o] & Hx & Hin). unfold bucket_sel in Hx. simpl in Hx.
    case_decide; [|by apply elem_of_nil in Hx].
    exists i, o. split; [done|]. split; [done|]. set_solver.
  - intros (i & o & Hin & Hk & Hx). exists (i, o). split; [|done].
    unfold bucket_sel. simpl. rewrite decide_True by done. set_solver.
Qed.
Context (plan : gmap Z (gmap Z Z)).
Context (Hitems : ∀ i o, (i, o) ∈ plan_items plan →
                    i ≤ o ∧ is_Some (node_3d_to_node_2d !! i)).

Lemma build_buckets_spec :
  ∃ buckets,
    build_buckets node_3d_to_node_2d plan = Ok buckets ∧
    ∀ k, buckets !! k =
         if decide (bucket_hit node_3d_to_node_2d (plan_items plan) k)
         then Some (bucket_of node_3d_to_node_2d (plan_items plan) k) else None.
Proof.
  unfold build_buckets.
  set (I := λ pre (b : gmap Z (gset Z)),
         ∀ k, b !! k = if decide (bucket_hit node_3d_to_node_2d pre k) then Some (bucket_of node_3d_to_node_2d pre k) else None).
  apply (py_for_total I); subst I; cbn beta.
  { intros k. rewrite lookup_empty. rewrite decide_False; [done|].
    unfold bucket_hit. rewrite Exists_nil. tauto. }
  intros pre [i o] post b Heq Hinv. simpl.
  destruct (Hitems i o) as [Hle [k0 Hk0]]; [rewrite Heq; set_solver|].
  rewrite Z.min_l by done. unfold dict_item. rewrite Hk0. simpl.
  eexists. split; [done|]. intros k.
  assert (default ∅ (b !! k0) = bucket_of node_3d_to_node_2d pre k0) as ->.
  { rewrite Hinv. case_decide; [done|]. by rewrite bucket_of_miss. }
  destruct (decide (k = k0)) as [->|Hne].
  - rewrite lookup_insert_eq.
    rewrite decide_True by (apply bucket_hit_snoc; by right).
    f_equal. rewrite bucket_of_snoc. unfold bucket_sel. simpl.
    rewrite decide_True by done. set_solver.
  - rewrite lookup_insert_ne by done. rewrite Hinv, bucket_of_snoc.
    unfold bucket_sel. simpl. rewrite (decide_False (P := _ = Some k)) by congruence.
    destruct (decide (bucket_hit node_3d_to_node_2d pre k)) as [Hhit|Hmiss].
    + rewrite decide_True by (apply bucket_hit_snoc; by left). f_equal. set_solver.
    + rewrite decide_False; [done|].
      rewrite bucket_hit_snoc. simpl. intros [?|?]; [done|congruence].
Qed.

End buckets.

Lemma fold_left_max (l : list nat) (a : nat) :
  (a ≤ fold_left Nat.max l a)%nat ∧
  Forall (λ x, x ≤ fold_left Nat.max l a)%nat l ∧
  (fold_left Nat.max l a = a ∨ fold_left Nat.max l a ∈ l).
Proof.
  revert a. induction l as [|x l IH]; intros a; simpl.
  { split; [lia|]. split; [constructor|by left]. }
  destruct (IH (a `max` x)%nat) as (H1 & H2 & H3). split; [lia|]. split.
  - constructor; [lia|done].
  - destruct H3 as [H3|H3]; [|right; by apply elem_of_cons; right].
    rewrite H3. destruct (Nat.max_spec a x) as [[? ->]|[? ->]]; [right; apply elem_of_cons|]; auto.
Qed.

Lemma py_max_spec (l : list nat) :
  l ≠ [] → ∃ w, py_max l = Ok w ∧ w ∈ l ∧ Forall (λ x, x ≤ w)%nat l.
Proof.
  destruct l as [|x l]; [done|]. intros _. simpl. eexists. split; [done|].
  destruct (fold_left_max l x) as (H1 & H2 & H3). split.
  - apply elem_of_cons. destruct H3; auto.
  - by constructor.
Qed.

(** Filling one row from its bucket. *)
Lemma fill_row (rows : list (list Z)) (W : nat) (k : Z) (l : list Z) :
  0 ≤ k < Z.of_nat (length rows) →
  rows !! Z.to_nat k = Some (replicate W (-1)) → (length l ≤ W)%nat →
  py_for (enumerate l)
    (λ collocated_nodes jval, setitem2 collocated_nodes k jval.1 jval.2) rows
  = Ok (<[Z.to_nat k := l ++ replicate (W - length l) (-1)]> rows).
Proof.
  intros Hk Hrow Hl.
  edestruct (py_for_total
    (λ (pre : list (Z * Z)) (rows' : list (list Z)),
       rows' = <[Z.to_nat k := take (length pre) l ++ replicate (W - length pre) (-1)]> rows)
    (enumerate l)) as (rows' & -> & ->).
  - simpl. rewrite Nat.sub_0_r. by rewrite list_insert_id.
  - intros pre [j val] post rows' Heq ->.
    apply enumerate_split in Heq as (Hj & Hval & _). simpl in *. subst j.
    pose proof (lookup_lt_Some _ _ _ Hval) as Hlt.
    unfold setitem2.
    destruct (getitem_in_range
                (<[Z.to_nat k := take (length pre) l ++ replicate (W - length pre) (-1)]> rows)
                k) as (row & Hrow' & ->).
    { rewrite length_insert. lia. }
    rewrite list_lookup_insert_eq in Hrow' by lia. simplify_eq. simpl.
    rewrite setitem_in_range
      by (rewrite length_app, length_take, length_replicate; lia).
    simpl. rewrite setitem_in_range by (rewrite length_insert; lia). simpl.
    eexists. split; [done|].
    rewrite !Nat2Z.id, list_insert_insert_eq. f_equal.
    rewrite length_app. simpl. rewrite Nat.add_1_r, (take_S_r _ _ _ Hval).
    rewrite insert_app_r_alt by (rewrite length_take; lia).
    rewrite length_take_le by lia. rewrite Nat.sub_diag.
    replace (W - length pre)%nat with (S (W - S (length pre))) by lia.
    simpl. by rewrite <-app_assoc.
  - unfold enumerate. rewrite length_imap, firstn_all. done.
Qed.

Lemma fill_collocated_nodes_spec (P : nat) (buckets : gmap Z (gset Z)) :
  dom buckets = list_to_set (range P) → P ≠ 0%nat →
  ∃ rows (W : nat),
    fill_collocated_nodes P buckets = Ok rows ∧
    length rows = P ∧
    (∃ k s, buckets !! k = Some s ∧ size s = W) ∧
    (∀ k s, buckets !! k = Some s → (size s ≤ W)%nat) ∧
    (∀ k : nat, (k < P)%nat → rows !! k = Some (row_of W (buckets !! Z.of_nat k))).
Proof.
  intros Hdom HP. unfold fill_collocated_nodes. rewrite decide_True by done.
  assert (∀ k s, buckets !! k = Some s → 0 ≤ k < Z.of_nat P) as Hkeys.
  { intros k s Hk. apply elem_of_range.
    apply (elem_of_list_to_set (C := gset Z)). rewrite <-Hdom.
    apply elem_of_dom. eauto. }
  destruct (py_max_spec (size <$> (map_to_list buckets).*2)) as (W & -> & HW1 & HW2).
  { intros Hnil%fmap_nil_inv%fmap_nil_inv%map_to_list_empty_iff.
    assert (0 ∈ dom buckets) as Hin.
    { rewrite Hdom, elem_of_list_to_set. apply elem_of_range. lia. }
    rewrite Hnil in Hin. set_solver. }
  simpl.
  assert (∀ k s, buckets !! k = Some s → (size s ≤ W)%nat) as Hle.
  { intros k s Hk. rewrite Forall_forall in HW2. apply HW2.
    apply list_elem_of_fmap. exists s. split; [done|].
    apply list_elem_of_fmap. exists (k, s). split; [done|]. by apply elem_of_map_to_list. }
  edestruct (py_for_total
    (λ (pre : list (Z * gset Z)) (rows : list (list Z)),
       length rows = P ∧
       ∀ k : nat, (k < P)%nat →
         rows !! k = Some (row_of W ((list_to_map pre : gmap Z (gset Z)) !! Z.of_nat k)))
    (map_to_list buckets)) as (rows & -> & Hlen & Hrows).
  - split; [by rewrite length_replicate|]. intros k Hk. simpl.
    rewrite lookup_empty. simpl. by rewrite lookup_replicate_2.
  - intros pre [k s] post rows Heq [Hlen Hrows]. simpl.
    assert (buckets !! k = Some s) as Hks.
    { apply elem_of_map_to_list. rewrite Heq. set_solver. }
    assert (k ∉ pre.*1) as Hfresh.
    { pose proof (NoDup_fst_map_to_list buckets) as Hnd. rewrite Heq in Hnd.
      rewrite fmap_app, fmap_cons in Hnd. apply NoDup_app in Hnd as (_ & Hnd & _).
      intros Hin. apply (Hnd _ Hin). set_solver. }
    destruct (Hkeys k s Hks) as [Hk0 HkP].
    assert ((list_to_map pre : gmap Z (gset Z)) !! k = None) as Hnone
      by (by apply not_elem_of_list_to_map_1).
    pose proof (Hrows (Z.to_nat k) ltac:(lia)) as Hrow.
    rewrite Z2Nat.id, Hnone in Hrow by lia. simpl in Hrow.
    rewrite (fill_row rows W k (set_iter s));
      [|lia|done|rewrite length_set_iter; by eapply Hle].
    eexists. split; [done|]. split; [by rewrite length_insert|].
    intros k' Hk'. rewrite list_to_map_snoc by done.
    destruct (decide (k' = Z.to_nat k)) as [->|Hne].
    + rewrite list_lookup_insert_eq by lia. rewrite Z2Nat.id, lookup_insert_eq by lia.
      simpl. by rewrite length_set_iter.
    + rewrite list_lookup_insert_ne by done. rewrite lookup_insert_ne by lia.
      by apply Hrows.
  - exists rows, W. split; [done|]. split; [done|]. split; [|split; [done|]].
    + apply list_elem_of_fmap in HW1 as (s & -> & Hs).
      apply list_elem_of_fmap in Hs as ([k s'] & -> & Hks%elem_of_map_to_list). eauto.
    + intros k Hk. rewrite (Hrows k Hk). by rewrite list_to_map_to_list.
Qed.

Section surface.
Context {Point DataTuple : Type} (uninitialized : Point).

(** C6. When the fracture has nodes, all of them points below [N] with an
    incident cell in the graph, [__generate_fracture_mesh] attaches one
    point array, named collocated_nodes, with one row per fracture node.
    The rows have the width [W], the largest number of copies of a node.
    Row [k] lists the node that the 3-D to 2-D map sends to [k] together
    with every id that replaces it in a cell, in some order, and is filled
    with -1 up to [W]. *)
Theorem fracture_mesh_collocated_nodes (mesh_points : list Point)
    (fracture_info : FractureInfo) (N : Z) (G : Graph) pm polygons :
  let ntc := node_to_cells fracture_info in
  let fracture_nodes := dict_keys ntc in
  let plan := __identify_split N G ntc in
  NoDup fracture_nodes →
  (∀ n, n ∈ fracture_nodes → n < N) →
  (∀ n cells, (n, cells) ∈ ntc → ∃ cell, cell ∈ cells ∧ cell ∈ nodes G) →
  fracture_nodes ≠ [] →
  fracture_points uninitialized mesh_points fracture_nodes = Ok pm →
  mapM_py (mapM_py (dict_item pm.2)) (face_nodes fracture_info) = Ok polygons →
  ∃ (fracture_mesh : @vtkUnstructuredGrid Point DataTuple) rows (W : nat),
    __generate_fracture_mesh uninitialized mesh_points fracture_info plan = Ok fracture_mesh ∧
    PointData fracture_mesh = [("collocated_nodes"%string, IdTypeArray rows)] ∧
    length rows = length fracture_nodes ∧
    (∃ n, n ∈ fracture_nodes ∧ size (copies_of plan n) = W) ∧
    (∀ n, n ∈ fracture_nodes → (size (copies_of plan n) ≤ W)%nat) ∧
    (∀ (k : nat) n, fracture_nodes !! k = Some n →
       pm.2 !! n = Some (Z.of_nat k) ∧
       ∃ ids, ids ≡ₚ elements (copies_of plan n) ∧
         rows !! k = Some (ids ++ replicate (W - size (copies_of plan n)) (-1))).
Proof.
  intros ntc keys plan Hnd Hlt Hcells Hne Hfp Hpoly.
  pose proof (fracture_points_map uninitialized mesh_points keys pm Hnd Hfp) as Hmap.
  assert (∀ n, n ∈ keys → ∃ o, (n, o) ∈ plan_items plan) as Hassigned.
  { intros n (item & -> & Hin)%list_elem_of_fmap. destruct item as [n cells]. simpl.
    destruct (Hcells n cells Hin) as (cell & Hc1 & Hc2).
    destruct (component_subgraph_cover G cells cell Hc1 Hc2) as (j & c & Hj & Hc).
    pose proof Hin as Hin'. rewrite <-sorted_items_perm in Hin'.
    apply list_elem_of_lookup in Hin' as (k & Hk).
    destruct (identify_split_lookup N G ntc k n cells cell Hnd Hk) as [H1 _].
    eexists. apply elem_of_plan_items. exists cell. by apply (H1 j c). }
  assert (∀ i o, (i, o) ∈ plan_items plan → i ∈ keys ∧ i ≤ o) as Hitems.
  { intros i o (cell & Hl)%elem_of_plan_items.
    apply identify_split_lookup_inv in Hl as (k & cells & j & c & Hk & _ & _ & ->); [|done].
    assert (i ∈ keys) as Hi.
    { unfold keys, dict_keys. rewrite <-sorted_items_perm. apply list_elem_of_fmap.
      exists (i, cells). split; [done|]. by eapply list_elem_of_lookup_2. }
    split; [done|]. specialize (Hlt i Hi). destruct j; simpl; lia. }
  destruct (build_buckets_spec pm.2 plan) as (buckets & Hbb & Hbuckets).
  { intros i o Hio. destruct (Hitems i o Hio) as [(k & Hk)%list_elem_of_lookup Hle].
    split; [done|]. exists (Z.of_nat k). apply Hmap. rewrite Nat2Z.id. split; [lia|done]. }
  assert (∀ (k : nat) n, keys !! k = Some n →
            buckets !! Z.of_nat k = Some (copies_of plan n)) as Hbucket.
  { intros k n Hk. rewrite Hbuckets.
    destruct (Hassigned n) as (o0 & Ho0); [by eapply list_elem_of_lookup_2|].
    assert (pm.2 !! n = Some (Z.of_nat k)) as Hn2
      by (apply Hmap; rewrite Nat2Z.id; split; [lia|done]).
    rewrite decide_True.
    2:{ apply Exists_exists. exists (n, o0). done. }
    f_equal. apply set_eq. intros x.
    rewrite elem_of_bucket_of, elem_of_copies_of. split.
    - intros (i & o & Hio & Hi & Hx).
      apply Hmap in Hi as [_ Hi]. rewrite Nat2Z.id in Hi.
      assert (i = n) as -> by congruence.
      destruct Hx as [-> | ->]; [by left|]. right. by apply elem_of_plan_items.
    - intros [->|Hx].
      + exists n, o0. split; [done|]. split; [done|]. by left.
      + apply elem_of_plan_items in Hx. exists n, x.
        split; [done|]. split; [done|]. by right. }
  assert (dom buckets = list_to_set (range (length keys))) as Hdom.
  { apply set_eq. intros k. rewrite elem_of_list_to_set, elem_of_range, elem_of_dom.
    rewrite Hbuckets. split.
    - case_decide as Hhit; [|by intros [? ?]]. intros _.
      apply Exists_exists in Hhit as ([i o] & _ & Hi). simpl in Hi.
      apply Hmap in Hi as [? Hi%lookup_lt_Some]. lia.
    - intros Hk. destruct (lookup_lt_is_Some_2 keys (Z.to_nat k)) as [n Hn]; [lia|].
      pose proof (Hbucket _ _ Hn) as Hb. rewrite Z2Nat.id, Hbuckets in Hb by lia.
      case_decide; [eauto|done]. }
  destruct (fill_collocated_nodes_spec (length keys) buckets Hdom)
    as (rows & W & Hfill & Hlen & (k0 & s0 & Hk0 & Hs0) & HW & Hrows).
  { by destruct keys. }
  eexists _, rows, W. split.
  { unfold __generate_fracture_mesh. fold ntc keys. rewrite Hfp. simpl.
    rewrite Hpoly. simpl. rewrite Hbb. simpl. rewrite Hfill. simpl. done. }
  simpl. split; [done|]. split; [done|]. split; [|split].
  - assert (0 ≤ k0 < Z.of_nat (length keys)) as Hk0r.
    { apply elem_of_range. apply (elem_of_list_to_set (C := gset Z)).
      rewrite <-Hdom. apply elem_of_dom. eauto. }
    destruct (lookup_lt_is_Some_2 keys (Z.to_nat k0)) as [n Hn]; [lia|].
    exists n. split; [by eapply list_elem_of_lookup_2|].
    pose proof (Hbucket _ _ Hn) as Hb. rewrite Z2Nat.id in Hb by lia. congruence.
  - intros n (k & Hk)%list_elem_of_lookup. eapply HW. by apply Hbucket.
  - intros k n Hk. split; [apply Hmap; rewrite Nat2Z.id; split; [lia|done]|].
    exists (set_iter (copies_of plan n)). split; [apply set_iter_perm|].
    rewrite Hrows by (by eapply lookup_lt_Some). by rewrite (Hbucket k n Hk).
Qed.
End surface.

Lemma Py_bind_Ok {A B} (m : Py A) (k : A → Py B) y :
  m ≫= k = Ok y → ∃ a, m = Ok a ∧ k a = Ok y.
Proof. destruct m as [a|e]; simpl; [eauto|done]. Qed.

Lemma recorded_nil c i : ¬ recorded [] c i.
Proof. intros (l & H & _). by apply elem_of_nil in H. Qed.

Lemma recorded_dd_update d c i c' i' :
  recorded (dd_update [] (λ l, l ++ [i]) d c) c' i' ↔ recorded d c' i' ∨ (c' = c ∧ i' = i).
Proof.
  unfold recorded. induction d as [|[k v] d IH]; simpl.
  - split.
    + intros (l & Hin & Hi). apply list_elem_of_singleton in Hin as [= -> ->].
      apply list_elem_of_singleton in Hi as ->. by right.
    + intros [(l & H & _)|[-> ->]]; [by apply elem_of_nil in H|].
      exists [i]. split; by apply list_elem_of_singleton.
  - case_decide as Hk; [subst k|].
    + split.
      * intros (l & Hin & Hi). apply elem_of_cons in Hin as [[= -> ->]|Hin].
        -- apply elem_of_app in Hi as [Hi|Hi%list_elem_of_singleton]; [|by right].
           left. exists v. split; [by left|done].
        -- left. exists l. split; [by right|done].
      * intros [(l & Hin & Hi)|[-> ->]].
        -- apply elem_of_cons in Hin as [[= -> ->]|Hin].
           ++ exists (v ++ [i]). split; [by left|]. apply elem_of_app. by left.
           ++ exists l. split; [by right|done].
        -- exists (v ++ [i]). split; [by left|]. apply elem_of_app. right.
           by apply list_elem_of_singleton.
    + split.
      * intros (l & Hin & Hi). apply elem_of_cons in Hin as [[= -> ->]|Hin].
        -- left. exists v. split; [by left|done].
        -- destruct (proj1 IH) as [(l' & ? & ?)|?]; [by exists l| |by right].
           left. exists l'. split; [by right|done].
      * intros [(l & Hin & Hi)|Heq].
        -- apply elem_of_cons in Hin as [[= -> ->]|Hin].
           ++ exists v. split; [by left|done].
           ++ destruct (proj2 IH) as (l' & ? & ?); [left; by exists l|].
              exists l'. split; [by right|done].
        -- destruct (proj2 IH) as (l' & ? & ?); [by right|].
           exists l'. split; [by right|done].
Qed.

Section detect.
Context {Point DataTuple : Type}.
Context (mesh : @vtkUnstructuredGrid Point DataTuple) (f : list Z) (field_values : gset Z).

Lemma elem_of_GetCellNeighbors cell_id ptIds x :
  x ∈ GetCellNeighbors mesh cell_id ptIds ↔
  x ≠ cell_id ∧ ∃ cell, GetCell mesh x = Ok cell ∧ uses_points ptIds cell.
Proof.
  unfold GetCellNeighbors. rewrite list_elem_of_fmap. split.
  - intros ([i cell] & -> & Hin). apply list_elem_of_filter in Hin as [[Hne Hu] Hin].
    apply elem_of_enumerate in Hin as [Hi Hl]. simpl in *. split; [done|].
    exists cell. split; [|done]. unfold GetCell. rewrite decide_True by done. by rewrite Hl.
  - intros (Hne & cell & Hc & Hu). apply GetCell_Ok in Hc as [Hx Hl].
    exists (x, cell). split; [done|]. apply list_elem_of_filter. split; [done|].
    by apply elem_of_enumerate.
Qed.

(** The loop over the neighbours of face [i] of cell [x]. *)
Lemma neighbor_loop_spec x i fc nbs ctf ctf' :
  getitem f x = Ok fc →
  py_for nbs
    (λ cells_to_faces neighbor_cell_id,
       f_neighbor ← getitem f neighbor_cell_id;
       f_cell ← getitem f x;
       if decide (f_neighbor ≠ f_cell ∧ f_neighbor ∈ field_values)
       then Ok (dd_update [] (λ l, l ++ [i]) cells_to_faces x)
       else Ok cells_to_faces)
    ctf = Ok ctf' →
  ∀ c i', recorded ctf' c i' ↔
    recorded ctf c i' ∨
    (c = x ∧ i' = i ∧ ∃ nb vn, nb ∈ nbs ∧ getitem f nb = Ok vn ∧
                                vn ≠ fc ∧ vn ∈ field_values).
Proof.
  intros Hfc Hrun.
  eapply (py_for_partial
    (λ pre_n ctf3, ∀ c i', recorded ctf3 c i' ↔
       recorded ctf c i' ∨
       (c = x ∧ i' = i ∧ ∃ nb vn, nb ∈ pre_n ∧ getitem f nb = Ok vn ∧
                                   vn ≠ fc ∧ vn ∈ field_values))
    _ _ _ ctf'); [| |exact Hrun].
  - intros c i'. split; [auto|].
    intros [?|(_ & _ & nb & _ & Hnb & _)]; [done|]. by apply elem_of_nil in Hnb.
  - clear Hrun. intros pre_n nb post_n ctf3 ctf4 Heqn Hinv3 Hbody. cbn beta in Hbody.
    apply Py_bind_Ok in Hbody as (vn & Hvn & Hbody).
    rewrite Hfc in Hbody. simpl in Hbody.
    intros c i'. setoid_rewrite elem_of_app. setoid_rewrite list_elem_of_singleton.
    case_decide as Hcond; simplify_eq.
    + rewrite recorded_dd_update, Hinv3. split.
      * intros [[?|(-> & -> & nb' & vn' & ? & ?)]|[-> ->]]; [by left| |].
        -- right. split; [done|]. split; [done|]. exists nb', vn'. auto.
        -- right. split; [done|]. split; [done|]. exists nb, vn. tauto.
      * intros [?|(-> & -> & nb' & vn' & [?| ->] & ?)]; [by left; left| |by right].
        left. right. split; [done|]. split; [done|]. exists nb', vn'. auto.
    + rewrite Hinv3. split.
      * intros [?|(-> & -> & nb' & vn' & ? & ?)]; [by left|].
        right. split; [done|]. split; [done|]. exists nb', vn'. auto.
      * intros [?|(-> & -> & nb' & vn' & [?| ->] & Hvn' & ? & ?)]; [by left| |].
        -- right. split; [done|]. split; [done|]. exists nb', vn'. auto.
        -- exfalso. rewrite Hvn in Hvn'. simplify_eq. tauto.
Qed.

(** The loop over the faces of cell [x]. *)
Lemma face_loop_spec x cell fc ctf ctf' :
  GetCell mesh x = Ok cell → getitem f x = Ok fc → fc ∈ field_values →
  py_for (range (length (Faces cell)))
    (λ cells_to_faces i,
       face ← GetFace cell i;
       let neighbor_cell_ids := GetCellNeighbors mesh x face in
       if decide (length neighbor_cell_ids < 2)%nat then
         py_for neighbor_cell_ids
           (λ cells_to_faces neighbor_cell_id,
              f_neighbor ← getitem f neighbor_cell_id;
              f_cell ← getitem f x;
              if decide (f_neighbor ≠ f_cell ∧ f_neighbor ∈ field_values)
              then Ok (dd_update [] (λ l, l ++ [i]) cells_to_faces x)
              else Ok cells_to_faces)
           cells_to_faces
       else Raise AssertionError)
    ctf = Ok ctf' →
  ∀ c i, recorded ctf' c i ↔ recorded ctf c i ∨ (c = x ∧ qualifies mesh f field_values x i).
Proof.
  intros Hcell Hfc HfcV Hrun.
  assert (∀ c i, recorded ctf' c i ↔
            recorded ctf c i ∨
            (c = x ∧ i ∈ range (length (Faces cell)) ∧ qualifies mesh f field_values x i)) as Hres.
  { eapply (py_for_partial
      (λ pre_f ctf1, ∀ c i, recorded ctf1 c i ↔
         recorded ctf c i ∨ (c = x ∧ i ∈ pre_f ∧ qualifies mesh f field_values x i))
      _ _ _ ctf'); [| |exact Hrun].
    - intros c i. split; [auto|].
      intros [?|(_ & Hi & _)]; [done|]. by apply elem_of_nil in Hi.
    - clear Hrun. intros pre_f i post_f ctf1 ctf2 Heqf Hinv1 Hbody. cbn beta in Hbody.
      apply Py_bind_Ok in Hbody as (face & Hface & Hbody). cbn zeta in Hbody.
      case_decide as Hlen; [|done].
      pose proof (neighbor_loop_spec x i fc _ ctf1 ctf2 Hfc Hbody) as Hn.
      intros c i'. rewrite Hn, Hinv1, elem_of_app, list_elem_of_singleton. split.
      + intros [[?|(-> & ? & ?)]|(-> & -> & nb & vn & Hnb & Hvn & Hne & HV)];
          [by left|right; auto|].
        right. split; [done|]. split; [auto|].
        by exists cell, face, nb, fc, vn.
      + intros [?|(-> & [?| ->] & Hq)]; [by left; left|left; right; auto|].
        right. split; [done|]. split; [done|].
        destruct Hq as (cell' & face' & nb & vc & vn & Hc' & Hf' & Hnb & Hvc & Hvn & _ & ? & ?).
        rewrite Hcell in Hc'. simplify_eq. rewrite Hface in Hf'. simplify_eq.
        exists nb, vn. by rewrite Hfc in Hvc; simplify_eq. }
  intros c i. rewrite Hres. split.
  - intros [?|(-> & _ & ?)]; auto.
  - intros [?|[-> Hq]]; [by left|]. right. split; [done|]. split; [|done].
    destruct Hq as (cell' & face & _ & _ & _ & Hc' & Hface & _).
    rewrite Hcell in Hc'. simplify_eq.
    unfold GetFace in Hface. case_decide; [|done].
    destruct (Faces cell' !! Z.to_nat i) eqn:Hl; [|done].
    apply elem_of_range. apply lookup_lt_Some in Hl. lia.
Qed.

Lemma build_cells_to_faces_spec cells_to_faces :
  build_cells_to_faces mesh f field_values = Ok cells_to_faces →
  (∀ c, 0 ≤ c < Z.of_nat (GetNumberOfCells mesh) → ∃ v, getitem f c = Ok v) ∧
  ∀ c i, recorded cells_to_faces c i ↔ qualifies mesh f field_values c i.
Proof.
  unfold build_cells_to_faces. intros Hrun.
  assert ((∀ c, c ∈ range (GetNumberOfCells mesh) → ∃ v, getitem f c = Ok v) ∧
          ∀ c i, recorded cells_to_faces c i ↔
                 c ∈ range (GetNumberOfCells mesh) ∧ qualifies mesh f field_values c i) as [H1 H2].
  { eapply (py_for_partial
      (λ pre ctf, (∀ c, c ∈ pre → ∃ v, getitem f c = Ok v) ∧
                  ∀ c i, recorded ctf c i ↔ c ∈ pre ∧ qualifies mesh f field_values c i)
      _ _ _ cells_to_faces); [| |exact Hrun].
    - split; [intros c Hc; by apply elem_of_nil in Hc|].
      intros c i. split; [by intros ?%recorded_nil|]. intros [Hc _]. by apply elem_of_nil in Hc.
    - clear Hrun. intros pre x post ctf ctf' Heq [Hv Hinv] Hbody. cbn beta in Hbody.
      apply Py_bind_Ok in Hbody as (fc & Hfc & Hbody).
      assert (∀ c, c ∈ pre ++ [x] → ∃ v, getitem f c = Ok v) as Hv'.
      { intros c [?| ->%list_elem_of_singleton]%elem_of_app; eauto. }
      split; [done|].
      case_decide as HfcV.
      { simplify_eq. intros c i. rewrite Hinv, elem_of_app, list_elem_of_singleton.
        split; [tauto|]. intros [[?| ->] Hq]; [tauto|]. exfalso.
        destruct Hq as (? & ? & ? & vc & ? & _ & _ & _ & Hvc & _ & HV & _).
        rewrite Hfc in Hvc. by simplify_eq. }
      apply Py_bind_Ok in Hbody as (cell & Hcell & Hbody).
      pose proof (face_loop_spec x cell fc ctf ctf' Hcell Hfc HfcV Hbody) as Hf.
      intros c i. rewrite Hf, Hinv, elem_of_app, list_elem_of_singleton. split.
      + intros [[? ?]|[-> ?]]; auto.
      + intros [[?| ->] Hq]; auto. }
  split.
  - intros c Hc. apply H1. by apply elem_of_range.
  - intros c i. rewrite H2. split; [tauto|]. intros Hq. split; [|done].
    destruct Hq as (cell & _ & _ & _ & _ & (Hc & Hl)%GetCell_Ok & _).
    apply elem_of_range. apply lookup_lt_Some in Hl. unfold GetNumberOfCells. lia.
Qed.
End detect.

Section extract.
Context {Point DataTuple : Type}.
Context (mesh : @vtkUnstructuredGrid Point DataTuple).

Lemma face_id_loop_spec c cell l acc acc' :
  GetCell mesh c = Ok cell →
  py_for l
    (λ '(face_nodes, face_nodes_hashes) face_id,
       fn ← GetFace cell face_id;
       let fnh := frozenset fn in
       if decide (fnh ∉ face_nodes_hashes)
       then Ok (face_nodes ++ [fn], {[fnh]} ∪ face_nodes_hashes)
       else Ok (face_nodes, face_nodes_hashes))
    acc = Ok acc' →
  faces_ok acc →
  faces_ok acc' ∧
  ∀ s, s ∈ acc'.2 ↔ s ∈ acc.2 ∨ ∃ i face, i ∈ l ∧ GetFace cell i = Ok face ∧ frozenset face = s.
Proof.
  intros Hcell Hrun Hok.
  eapply (py_for_partial
    (λ pre (a : list (list Z) * gset (gset Z)),
       faces_ok a ∧
       ∀ s, s ∈ a.2 ↔ s ∈ acc.2 ∨
              ∃ i face, i ∈ pre ∧ GetFace cell i = Ok face ∧ frozenset face = s)
    _ _ _ acc'); [| |exact Hrun].
  - split; [done|]. intros s. split; [auto|].
    intros [?|(i & _ & Hi & _)]; [done|]. by apply elem_of_nil in Hi.
  - clear Hrun. intros pre i post [fns hs] a' Heq [[Hh Hnd] Hinv] Hbody. simpl in *.
    apply Py_bind_Ok in Hbody as (fn & Hfn & Hbody). cbn zeta in Hbody.
    setoid_rewrite elem_of_app. setoid_rewrite list_elem_of_singleton.
    case_decide as Hin; simplify_eq; simpl.
    + split.
      * split; simpl.
        -- rewrite fmap_app, list_to_set_app_L. simpl. set_solver.
        -- rewrite fmap_app. apply NoDup_app. split; [done|]. split; [|apply NoDup_singleton].
           intros s Hs ->%list_elem_of_singleton. apply Hin.
           by apply elem_of_list_to_set.
      * intros s. rewrite elem_of_union, elem_of_singleton, Hinv. split.
        -- intros [->|[?|(i' & face & ? & ? & ?)]]; [|by left|].
           ++ right. exists i, fn. auto.
           ++ right. exists i', face. auto.
        -- intros [?|(i' & face & [?| ->] & Hf & Hs)]; [by right; left| |].
           ++ right. right. exists i', face. auto.
           ++ left. rewrite Hfn in Hf. by simplify_eq.
    + split; [done|]. intros s. rewrite Hinv. split.
      * intros [?|(i' & face & ? & ? & ?)]; [by left|]. right. exists i', face. auto.
      * intros [?|(i' & face & [?| ->] & Hf & Hs)]; [by left| |].
        -- right. exists i', face. auto.
        -- rewrite Hfn in Hf. simplify_eq. by apply Hinv.
Qed.

Lemma extract_face_nodes_spec cells_to_faces fh :
  extract_face_nodes mesh cells_to_faces = Ok fh →
  NoDup (frozenset <$> fh.1) ∧
  ∀ s, (∃ fn, fn ∈ fh.1 ∧ frozenset fn = s) ↔ recorded_set mesh cells_to_faces s.
Proof.
  unfold extract_face_nodes. intros Hrun.
  assert (faces_ok fh ∧ ∀ s, s ∈ fh.2 ↔ recorded_set mesh cells_to_faces s) as [[Hh Hnd] Hs].
  { eapply (py_for_partial
      (λ pre (a : list (list Z) * gset (gset Z)),
         faces_ok a ∧ ∀ s, s ∈ a.2 ↔ recorded_set mesh pre s)
      _ _ _ fh); [| |exact Hrun].
    - split; [split; [done|constructor]|]. intros s. split; [set_solver|].
      intros (c & i & _ & _ & ?%recorded_nil & _). done.
    - clear Hrun. intros pre [c l] post acc acc' Heq [Hok Hinv] Hbody. cbn beta in Hbody.
      apply Py_bind_Ok in Hbody as (cell & Hcell & Hbody). simpl in Hcell.
      destruct (face_id_loop_spec c cell l acc acc' Hcell Hbody Hok) as [Hok' Hs].
      split; [done|]. intros s. rewrite Hs, Hinv. unfold recorded_set, recorded.
      setoid_rewrite elem_of_app. setoid_rewrite list_elem_of_singleton. split.
      + intros [(c' & i & cell' & face & (l' & ? & ?) & ?)|(i & face & ? & ? & ?)].
        * exists c', i, cell', face. split; [|done]. exists l'. auto.
        * exists c, i, cell, face. split; [|done]. exists l. auto.
      + intros (c' & i & cell' & face & (l' & [?|[= -> ->]] & ?) & Hc' & Hf & ?).
        * left. exists c', i, cell', face. split; [|done]. exists l'. auto.
        * right. rewrite Hcell in Hc'. simplify_eq. exists i, face. auto. }
  split; [done|]. intros s. rewrite <-Hs, Hh, elem_of_list_to_set, list_elem_of_fmap.
  split; intros (fn & ? & ?); exists fn; auto.
Qed.
End extract.

Lemma GetFace_lookup cell (i : nat) face :
  Faces cell !! i = Some face → GetFace cell (Z.of_nat i) = Ok face.
Proof. intros H. unfold GetFace. rewrite decide_True by lia. by rewrite Nat2Z.id, H. Qed.

Lemma GetFace_Ok cell i face :
  GetFace cell i = Ok face → 0 ≤ i ∧ Faces cell !! Z.to_nat i = Some face.
Proof.
  unfold GetFace. case_decide; [|done].
  destruct (Faces cell !! Z.to_nat i) eqn:Hl; [|done]. by intros [= ->].
Qed.

Lemma uses_points_frozenset a b cell :
  frozenset a = frozenset b → uses_points a cell → uses_points b cell.
Proof.
  unfold uses_points, frozenset. rewrite !Forall_forall. intros Heq Ha p Hp.
  apply Ha. apply (elem_of_list_to_set (C := gset Z)). rewrite Heq.
  by apply elem_of_list_to_set.
Qed.

Section detection.
Context {Point DataTuple : Type}.
Context (mesh : @vtkUnstructuredGrid Point DataTuple).

Lemma GetCellNeighbors_frozenset c a b :
  frozenset a = frozenset b → GetCellNeighbors mesh c a = GetCellNeighbors mesh c b.
Proof.
  intros Heq. unfold GetCellNeighbors. f_equal. apply list_filter_iff.
  intros [i cell]. simpl. split; intros [? ?]; (split; [done|]).
  - by apply (uses_points_frozenset a b).
  - by apply (uses_points_frozenset b a).
Qed.

Lemma getitem_GetArray_range (f : list Z) c :
  (∀ c, 0 ≤ c < Z.of_nat (GetNumberOfCells mesh) → ∃ v, getitem f c = Ok v) →
  (∃ cell, GetCell mesh c = Ok cell) → ∃ v, getitem f c = Ok v.
Proof.
  intros Hget (cell & [Hc Hl]%GetCell_Ok). apply Hget.
  apply lookup_lt_Some in Hl. unfold GetNumberOfCells. lia.
Qed.

(** C1. When [build_fracture_info] returns, on a mesh whose faces lie
    within their cells: a face whose cell has exactly one neighbour across
    it is among the fracture faces exactly when the field values of the
    two cells are both admitted and differ; a face without a neighbour is
    never among them; and no two fracture faces have the same vertex
    set. *)
Theorem build_fracture_info_faces (field : string) (field_values : gset Z) info :
  faces_within_cells mesh →
  build_fracture_info mesh field field_values = Ok info →
  ∃ f, GetArray (CellData mesh) field = Some f ∧
    (∀ (c1 : nat) cell (i : nat) face c2,
       Cells mesh !! c1 = Some cell → Faces cell !! i = Some face →
       GetCellNeighbors mesh (Z.of_nat c1) face = [c2] →
       ∃ v1 v2, getitem f (Z.of_nat c1) = Ok v1 ∧ getitem f c2 = Ok v2 ∧
         ((∃ fn, fn ∈ face_nodes info ∧ frozenset fn = frozenset face) ↔
          v1 ∈ field_values ∧ v2 ∈ field_values ∧ v1 ≠ v2)) ∧
    (∀ (c : nat) cell (i : nat) face,
       Cells mesh !! c = Some cell → Faces cell !! i = Some face →
       GetCellNeighbors mesh (Z.of_nat c) face = [] →
       ¬ ∃ fn, fn ∈ face_nodes info ∧ frozenset fn = frozenset face) ∧
    NoDup (frozenset <$> face_nodes info).
Proof.
  intros Hclosed Hrun. unfold build_fracture_info in Hrun.
  destruct (GetArray (CellData mesh) field) as [f|]; [|done]. simpl in Hrun.
  apply Py_bind_Ok in Hrun as (ctf & Hctf & Hrun).
  apply Py_bind_Ok in Hrun as (fh & Hfh & Hrun).
  apply Py_bind_Ok in Hrun as (ntc & Hntc & [= <-]). simpl.
  destruct (build_cells_to_faces_spec mesh f field_values ctf Hctf) as [Hget Hrec].
  destruct (extract_face_nodes_spec mesh ctf fh Hfh) as [Hnd Hset].
  assert (∀ c cell i face, GetCell mesh c = Ok cell → GetFace cell i = Ok face →
            uses_points face cell) as Huses.
  { intros c cell i face [_ Hc]%GetCell_Ok [_ Hf]%GetFace_Ok.
    unfold faces_within_cells in Hclosed. rewrite Forall_forall in Hclosed.
    specialize (Hclosed cell (list_elem_of_lookup_2 _ _ _ Hc)).
    rewrite Forall_forall in Hclosed. apply Hclosed. by eapply list_elem_of_lookup_2. }
  assert (∀ s, (∃ fn, fn ∈ fh.1 ∧ frozenset fn = s) →
            ∃ c i cell face nb vc vn,
              GetCell mesh c = Ok cell ∧ GetFace cell i = Ok face ∧ frozenset face = s ∧
              nb ∈ GetCellNeighbors mesh c face ∧ getitem f c = Ok vc ∧
              getitem f nb = Ok vn ∧ vc ∈ field_values ∧ vn ≠ vc ∧ vn ∈ field_values)
    as Hfrac.
  { intros s (c & i & cell & face & Hr & Hc & Hf & Hs)%Hset.
    apply Hrec in Hr as (cell' & face' & nb & vc & vn & Hc' & Hf' & Hq).
    rewrite Hc in Hc'. simplify_eq. rewrite Hf in Hf'. simplify_eq.
    exists c, i, cell', face', nb, vc, vn. tauto. }
  exists f. split; [done|]. split; [|split; [|done]].
  - intros c1 cell i face c2 Hc1 Hf Hnb.
    pose proof (GetCell_lookup mesh c1 cell Hc1) as Hcell.
    pose proof (GetFace_lookup cell i face Hf) as Hface.
    assert (c2 ∈ GetCellNeighbors mesh (Z.of_nat c1) face) as Hc2 by (rewrite Hnb; set_solver).
    pose proof Hc2 as (Hne & cell2 & Hcell2 & Hu2)%elem_of_GetCellNeighbors.
    destruct (getitem_GetArray_range f (Z.of_nat c1) Hget) as [v1 Hv1]; [eauto|].
    destruct (getitem_GetArray_range f c2 Hget) as [v2 Hv2]; [eauto|].
    exists v1, v2. split; [done|]. split; [done|]. split.
    + intros (c & j & cell' & face' & nb & vc & vn & Hc & Hf' & Hs & Hn & Hvc & Hvn & HV1 & Hneq & HV2)%Hfrac.
      pose proof (Huses _ _ _ _ Hc Hf') as Hu'.
      rewrite (GetCellNeighbors_frozenset c face' face Hs) in Hn.
      destruct (decide (c = Z.of_nat c1)) as [->|Hcne].
      * rewrite Hnb in Hn. apply list_elem_of_singleton in Hn as ->.
        rewrite Hv1 in Hvc. rewrite Hv2 in Hvn. simplify_eq. done.
      * assert (c ∈ GetCellNeighbors mesh (Z.of_nat c1) face) as Hcin.
        { apply elem_of_GetCellNeighbors. split; [done|]. exists cell'. split; [done|].
          by eapply uses_points_frozenset. }
        rewrite Hnb in Hcin. apply list_elem_of_singleton in Hcin as ->.
        apply elem_of_GetCellNeighbors in Hn as (Hnbne & cellnb & Hcnb & Hunb).
        destruct (decide (nb = Z.of_nat c1)) as [->|Hnbne1].
        -- rewrite Hv1 in Hvn. rewrite Hv2 in Hvc. simplify_eq. done.
        -- exfalso. assert (nb ∈ GetCellNeighbors mesh (Z.of_nat c1) face) as Hin.
           { apply elem_of_GetCellNeighbors. eauto. }
           rewrite Hnb in Hin. by apply list_elem_of_singleton in Hin.
    + intros (HV1 & HV2 & Hneq). apply Hset.
      exists (Z.of_nat c1), (Z.of_nat i), cell, face. split; [|done].
      apply Hrec. exists cell, face, c2, v1, v2. split_and!; try done.
  - intros c cell i face Hc Hf Hnb
      (c' & j & cell' & face' & nb & vc & vn & Hc' & Hf' & Hs & Hn & _)%Hfrac.
    pose proof (GetCell_lookup mesh c cell Hc) as Hcell.
    pose proof (Huses _ _ _ _ Hc' Hf') as Hu'.
    rewrite (GetCellNeighbors_frozenset c' face' face Hs) in Hn.
    destruct (decide (c' = Z.of_nat c)) as [->|Hcne].
    + rewrite Hnb in Hn. by apply elem_of_nil in Hn.
    + assert (c' ∈ GetCellNeighbors mesh (Z.of_nat c) face) as Hcin.
      { apply elem_of_GetCellNeighbors. split; [done|]. exists cell'. split; [done|].
        by eapply uses_points_frozenset. }
      rewrite Hnb in Hcin. by apply elem_of_nil in Hcin.
Qed.
End detection.

Section no_fracture.
Context {Point DataTuple VtkOutput : Type} (uninitialized : Point) (cell_faces : Z → list Z → list (list Z)).

Lemma build_node_to_cells_nil (mesh : @vtkUnstructuredGrid Point DataTuple) ntc :
  build_node_to_cells mesh [] = Ok ntc → ntc = [].
Proof.
  unfold build_node_to_cells. simpl. intros Hrun.
  eapply (py_for_partial (λ _ (d : list (Z * gset Z)), d = []) _ _ _ ntc);
    [done| |exact Hrun].
  intros pre x post s s' _ -> Hbody. cbn beta in Hbody.
  apply Py_bind_Ok in Hbody as (cell & _ & Hbody). cbn zeta in Hbody.
  replace (frozenset (PointIds cell) ∩ ∅) with (∅ : gset Z) in Hbody by set_solver.
  rewrite set_iter_empty in Hbody. simpl in Hbody. by simplify_eq.
Qed.

(** Without a fracture face the assembly of the fracture mesh stops at
    [max] of an empty sequence. *)
Lemma generate_fracture_mesh_empty (mesh_points : list Point) :
  __generate_fracture_mesh (DataTuple := DataTuple) uninitialized mesh_points
    {| node_to_cells := []; face_nodes := [] |} ∅
  = Raise (ValueError max_empty_message).
Proof. reflexivity. Qed.

Lemma build_cell_to_cell_graph_empty (mesh : @vtkUnstructuredGrid Point DataTuple) :
  build_cell_to_cell_graph mesh {| node_to_cells := []; face_nodes := [] |} = Ok [].
Proof. reflexivity. Qed.

Lemma identify_split_empty N : __identify_split N [] [] = ∅.
Proof. reflexivity. Qed.

Lemma split_without_fracture_raises (mesh : @vtkUnstructuredGrid Point DataTuple)
    (options : @Options VtkOutput) info :
  build_fracture_info mesh (field options) (field_values options) = Ok info →
  face_nodes info = [] →
  ∃ e, __split_mesh_on_fracture uninitialized cell_faces mesh options = Raise e.
Proof.
  intros Hinfo Hfaces. unfold __split_mesh_on_fracture. rewrite Hinfo. simpl.
  assert (info = {| node_to_cells := []; face_nodes := [] |}) as ->.
  { unfold build_fracture_info in Hinfo.
    destruct (GetArray _ _); [|done]. simpl in Hinfo.
    apply Py_bind_Ok in Hinfo as (ctf & _ & Hinfo).
    apply Py_bind_Ok in Hinfo as (fh & _ & Hinfo).
    apply Py_bind_Ok in Hinfo as (ntc & Hntc & [= <-]). simpl in *.
    rewrite Hfaces in Hntc. apply build_node_to_cells_nil in Hntc as ->.
    by rewrite Hfaces. }
  rewrite build_cell_to_cell_graph_empty. simpl. rewrite identify_split_empty.
  destruct (__perform_polyhedron_split _ _ _) as [out|e]; simpl; [|eauto].
  rewrite generate_fracture_mesh_empty. simpl. eauto.
Qed.
End no_fracture.

(** C7, where the code departs from it.  On the two hexahedra with field
    values 1 and 2, admitting only the value 1, or no value at all, leaves
    no fracture face, and the split does not return the two meshes: it
    stops with the [ValueError] of [max] on an empty sequence. *)
Theorem split_without_fracture_face_fails (uninitialized : Z * Z * Z)
    (cell_faces : Z → list Z → list (list Z)) :
  __split_mesh_on_fracture uninitialized cell_faces two_hexahedra (options_for "attribute" {[1]})
  = Raise (ValueError max_empty_message) ∧
  __split_mesh_on_fracture uninitialized cell_faces two_hexahedra (options_for "attribute" ∅)
  = Raise (ValueError max_empty_message) ∧
  (∃ info, build_fracture_info two_hexahedra "attribute" {[1]} = Ok info ∧
           face_nodes info = []).
Proof.
  split; [|split].
  - vm_compute. reflexivity.
  - vm_compute. reflexivity.
  - eexists. split; [vm_compute; reflexivity|done].
Qed.

Section check.
Context {Point DataTuple VtkOutput World : Type} (uninitialized : Point) (cell_faces : Z → list Z → list (list Z)).
Context (read_mesh : string → World → Py (@vtkUnstructuredGrid Point DataTuple)).
Context (write_mesh : @vtkUnstructuredGrid Point DataTuple → VtkOutput → World
                      → Py unit * World).
Context (logging_error : Exception → World → World).

(** C9, as the code has it.  [check] returns the result OK exactly when the
    mesh was read, split, and both meshes were written.  In every other
    case it returns the one result "Something went wrong", whatever the
    stage and the exception, and hands the exception to the log. *)
Theorem check_result (vtk_input_file : string) (options : @Options VtkOutput) (w : World) :
  let r := check uninitialized cell_faces read_mesh write_mesh logging_error
             vtk_input_file options w in
  (r.1 = {| info := "OK" |} ↔
     ∃ mesh output_mesh fracture_mesh u1 w1 u2,
       read_mesh vtk_input_file w = Ok mesh ∧
       __split_mesh_on_fracture uninitialized cell_faces mesh options
         = Ok (output_mesh, fracture_mesh) ∧
       write_mesh output_mesh (vtk_output options) w = (Ok u1, w1) ∧
       write_mesh fracture_mesh (vtk_fracture_output options) w1 = (Ok u2, r.2)) ∧
  (r.1 ≠ {| info := "OK" |} →
     r.1 = {| info := "Something went wrong" |} ∧ ∃ e w', r.2 = logging_error e w').
Proof.
  unfold check, __check.
  destruct (read_mesh vtk_input_file w) as [mesh|e0] eqn:Hread; simpl.
  2:{ split; [split; [discriminate|]|intros _; split; [done|eauto]].
      intros (? & ? & ? & ? & ? & ? & Ha & _). discriminate Ha. }
  destruct (__split_mesh_on_fracture uninitialized cell_faces mesh options)
    as [[out frac]|e1] eqn:Hsplit; simpl.
  2:{ split; [split; [discriminate|]|intros _; split; [done|eauto]].
      intros (? & ? & ? & ? & ? & ? & Ha & Hb & _). simplify_eq; congruence. }
  destruct (write_mesh out (vtk_output options) w) as [[u1|e2] w1] eqn:Hw1; simpl.
  2:{ split; [split; [discriminate|]|intros _; split; [done|eauto]].
      intros (? & ? & ? & ? & ? & ? & Ha & Hb & Hc & _). simplify_eq; congruence. }
  destruct (write_mesh frac (vtk_fracture_output options) w1) as [[u2|e3] w2] eqn:Hw2; simpl.
  2:{ split; [split; [discriminate|]|intros _; split; [done|eauto]].
      intros (? & ? & ? & ? & ? & ? & Ha & Hb & Hc & Hd). simplify_eq; congruence. }
  split; [|done]. split; [|done]. intros _.
  exists mesh, out, frac, u1, w1, u2. done.
Qed.
End check.

(** C9 fails as stated: a file that cannot be read, a missing field and a
    face with two neighbours fail in three different stages with three
    different exceptions, and [check] returns the same result for all. *)
Lemma check_failure_is_generic :
  check_example "absent.vtu" "attribute" {[1; 2]}
  = ({| info := "Something went wrong" |}, [IOError "absent.vtu"]) ∧
  check_example "two_hexahedra.vtu" "porosity" {[1; 2]}
  = ({| info := "Something went wrong" |}, [ValueError (missing_field_message "porosity")]) ∧
  check_example "three_on_a_face.vtu" "attribute" {[1; 2; 3]}
  = ({| info := "Something went wrong" |}, [AssertionError]) ∧
  check_example "two_hexahedra.vtu" "attribute" {[1; 2]} = ({| info := "OK" |}, []).
Proof. repeat split; vm_compute; reflexivity. Qed.

Lemma dd_update_keys {V} (dflt : V) (f : V → V) d k :
  NoDup d.*1 → NoDup (dd_update dflt f d k).*1.
Proof.
  assert (∀ d, (dd_update dflt f d k).*1 = d.*1 ∨ (k ∉ d.*1 ∧ (dd_update dflt f d k).*1 = d.*1 ++ [k]))
    as Hkeys.
  { clear d. induction d as [|[k' v] d IH]; cbn [dd_update].
    - right. split; [apply not_elem_of_nil|done].
    - case_decide as Hk; [by left|]. rewrite !fmap_cons. cbn [fst].
      destruct IH as [->|[Hnin ->]]; [by left|].
      right. split; [|done]. rewrite not_elem_of_cons. split; [congruence|done]. }
  intros Hnd. destruct (Hkeys d) as [->|[Hnin ->]]; [done|].
  apply NoDup_app. split; [done|]. split; [|apply NoDup_singleton].
  intros x Hx ->%list_elem_of_singleton. done.
Qed.

Lemma elem_of_dd_update {V} (dflt : V) (f : V → V) d k n s :
  (n, s) ∈ dd_update dflt f d k →
  (n, s) ∈ d ∨ (n = k ∧ ∃ s0, (s0 = dflt ∨ (k, s0) ∈ d) ∧ s = f s0).
Proof.
  induction d as [|[k' v] d IH]; simpl.
  - intros [= -> ->]%list_elem_of_singleton. right. split; [done|]. exists dflt. auto.
  - case_decide as Hk; [subst k'|].
    + intros [[= -> ->]|Hin]%elem_of_cons.
      * right. split; [done|]. exists v. split; [right; by left|done].
      * left. by right.
    + intros [[= -> ->]|Hin]%elem_of_cons; [left; by left|].
      destruct (IH Hin) as [?|(-> & s0 & [->|?] & ->)].
      * left. by right.
      * right. split; [done|]. exists dflt. auto.
      * right. split; [done|]. exists s0. split; [right; by right|done].
Qed.

Lemma elem_of_fold_union (l : list (gset Z)) (acc : gset Z) c :
  c ∈ fold_left (λ cells cell_ids,
                   fold_left (λ cells cell_id, {[cell_id]} ∪ cells) (set_iter cell_ids) cells)
        l acc
  ↔ c ∈ acc ∨ ∃ s, s ∈ l ∧ c ∈ s.
Proof.
  assert (∀ (xs : list Z) (a : gset Z),
            c ∈ fold_left (λ cells cell_id, {[cell_id]} ∪ cells) xs a ↔ c ∈ a ∨ c ∈ xs) as Hin.
  { induction xs as [|x xs IH]; intros a; simpl; [set_solver|]. rewrite IH. set_solver. }
  revert acc. induction l as [|s l IH]; intros acc; simpl; [set_solver|].
  rewrite IH, Hin, elem_of_set_iter. set_solver.
Qed.

Section pipeline.
Context {Point DataTuple : Type}.
Context (mesh : @vtkUnstructuredGrid Point DataTuple).

(** What [build_node_to_cells] returns: a dict of non-empty sets of cells,
    each cell using the node it is listed under. *)
Lemma build_node_to_cells_spec face_nodes ntc :
  build_node_to_cells mesh face_nodes = Ok ntc →
  NoDup ntc.*1 ∧
  ∀ n s, (n, s) ∈ ntc →
    (∃ c, c ∈ s) ∧ ∀ c, c ∈ s → ∃ cell, GetCell mesh c = Ok cell ∧ n ∈ PointIds cell.
Proof.
  unfold build_node_to_cells. intros Hrun.
  set (Inv := λ d : list (Z * gset Z),
    NoDup d.*1 ∧
    ∀ n s, (n, s) ∈ d →
      (∃ c, c ∈ s) ∧ ∀ c, c ∈ s → ∃ cell, GetCell mesh c = Ok cell ∧ n ∈ PointIds cell).
  eapply (py_for_partial (λ _ d, Inv d) _ _ _ ntc); [| |exact Hrun].
  { split; [constructor|]. intros n s H. by apply elem_of_nil in H. }
  clear Hrun. intros pre cell_id post d d' _ Hd Hbody. cbn beta in Hbody.
  apply Py_bind_Ok in Hbody as (cell & Hcell & Hbody). cbn zeta in Hbody.
  injection Hbody as <-.
  assert (∀ nodes, Forall (λ n, n ∈ PointIds cell) nodes →
            Inv (fold_left (λ d node, dd_update ∅ (λ s, {[cell_id]} ∪ s) d node) nodes d))
    as Hfold.
  { intros nodes. revert d Hd. induction nodes as [|node nodes IH]; intros d Hd Hall; [done|].
    apply Forall_cons in Hall as [Hnode Hall]. simpl. apply IH; [|done].
    destruct Hd as [Hnd Hd]. split; [by apply dd_update_keys|].
    intros n s [Hin|(-> & s0 & Hs0 & ->)]%elem_of_dd_update; [by apply Hd|].
    split; [exists cell_id; set_solver|].
    intros c [->%elem_of_singleton|Hc]%elem_of_union; [eauto|].
    destruct Hs0 as [->|Hs0]; [set_solver|]. by apply (Hd node s0). }
  apply Hfold. apply Forall_forall. intros n Hn%elem_of_set_iter.
  apply elem_of_intersection in Hn as [Hn _]. by apply elem_of_list_to_set in Hn.
Qed.

(** The cell-to-cell graph holds every cell listed in [node_to_cells]. *)
Lemma build_cell_to_cell_graph_nodes fracture G n s c :
  build_cell_to_cell_graph mesh fracture = Ok G →
  (n, s) ∈ node_to_cells fracture → c ∈ s → c ∈ nodes G.
Proof.
  unfold build_cell_to_cell_graph. intros Hrun Hin Hc.
  apply Py_bind_Ok in Hrun as (ftc & _ & [= <-]).
  apply elem_of_nodes. exists (AddNode c). split; [|simpl; set_solver].
  unfold add_edges_from, add_nodes_from. apply elem_of_app. left. simpl.
  apply list_elem_of_fmap. exists c. split; [done|].
  apply elem_of_set_iter, elem_of_fold_union. right. exists s. split; [|done].
  unfold dict_values. apply list_elem_of_fmap. by exists (n, s).
Qed.

(** The planner is run on what the theorems about it assume. *)
Lemma split_plan_preconditions (field : string) (field_values : gset Z) fracture G :
  points_in_range mesh →
  build_fracture_info mesh field field_values = Ok fracture →
  build_cell_to_cell_graph mesh fracture = Ok G →
  NoDup (dict_keys (node_to_cells fracture)) ∧
  (∀ n, n ∈ dict_keys (node_to_cells fracture) →
     0 ≤ n < Z.of_nat (GetNumberOfPoints mesh)) ∧
  (∀ n cells, (n, cells) ∈ node_to_cells fracture →
     ∃ cell, cell ∈ cells ∧ cell ∈ nodes G).
Proof.
  intros Hvalid Hinfo HG.
  assert (∃ fns, build_node_to_cells mesh fns = Ok (node_to_cells fracture))
    as [fns Hntc].
  { unfold build_fracture_info in Hinfo. destruct (GetArray _ _); [|done]. simpl in Hinfo.
    apply Py_bind_Ok in Hinfo as (ctf & _ & Hinfo).
    apply Py_bind_Ok in Hinfo as (fh & _ & Hinfo).
    apply Py_bind_Ok in Hinfo as (ntc & Hntc & [= <-]). eauto. }
  destruct (build_node_to_cells_spec fns _ Hntc) as [Hnd Hcells].
  split; [done|]. split.
  - intros n ([n' s] & -> & Hin)%list_elem_of_fmap. simpl.
    destruct (Hcells n' s Hin) as [[c Hc] Hall].
    destruct (Hall c Hc) as (cell & [_ Hl]%GetCell_Ok & Hn).
    unfold points_in_range in Hvalid. rewrite Forall_forall in Hvalid.
    specialize (Hvalid cell (list_elem_of_lookup_2 _ _ _ Hl)).
    rewrite Forall_forall in Hvalid. by apply Hvalid.
  - intros n cells Hin. destruct (Hcells n cells Hin) as [[c Hc] _].
    exists c. split; [done|]. by eapply build_cell_to_cell_graph_nodes.
Qed.
End pipeline.

(** * The functions of the check, one by one *)

(** ** The cells around a node *)

Lemma dict_get_dd_update {V} (dflt : V) (f : V → V) d k k' :
  dict_get (dd_update dflt f d k) k'
  = if decide (k = k') then Some (f (default dflt (dict_get d k))) else dict_get d k'.
Proof.
  induction d as [|[k0 v] d IH]; simpl.
  - repeat case_decide; congruence.
  - destruct (decide (k0 = k)) as [->|Hne]; simpl.
    + repeat case_decide; congruence.
    + rewrite IH. repeat case_decide; congruence.
Qed.

Lemma elem_of_dict_get {V} (d : list (Z * V)) k v :
  NoDup d.*1 → (k, v) ∈ d ↔ dict_get d k = Some v.
Proof.
  induction d as [|[k0 v0] d IH]; simpl; intros Hnd.
  - split; [by intros ?%elem_of_nil|done].
  - apply NoDup_cons in Hnd as [Hnin Hnd]. rewrite elem_of_cons, IH by done.
    case_decide as Hk; [subst k0|].
    + split; [intros [[= ->]|Hg]; [done|]|intros [= ->]; by left].
      exfalso. apply Hnin. apply list_elem_of_fmap. exists (k, v). split; [done|].
      by apply IH.
    + split; [intros [[= -> ->]|?]; done|auto].
Qed.

Lemma elem_of_fracture_nodes (fns : list (list Z)) (acc : gset Z) n :
  n ∈ fold_left (λ s fns, fold_left (λ s n, {[n]} ∪ s) fns s) fns acc
  ↔ n ∈ acc ∨ ∃ fn, fn ∈ fns ∧ n ∈ fn.
Proof.
  assert (∀ (xs : list Z) (a : gset Z),
            n ∈ fold_left (λ s n, {[n]} ∪ s) xs a ↔ n ∈ a ∨ n ∈ xs) as Hin.
  { induction xs as [|x xs IH]; intros a; simpl; [set_solver|]. rewrite IH. set_solver. }
  revert acc. induction fns as [|fn fns IH]; intros acc; simpl; [set_solver|].
  rewrite IH, Hin. set_solver.
Qed.

Lemma elem_of_concat {A} (ls : list (list A)) x : x ∈ concat ls ↔ ∃ l, l ∈ ls ∧ x ∈ l.
Proof.
  induction ls as [|l ls IH]; simpl.
  - split; [by intros ?%elem_of_nil|]. by intros (l & ?%elem_of_nil & _).
  - rewrite elem_of_app, IH. setoid_rewrite elem_of_cons. naive_solver.
Qed.

Section around.
Context {Point DataTuple : Type}.
Context (mesh : @vtkUnstructuredGrid Point DataTuple).

Lemma elem_of_cells_around n c :
  c ∈ cells_around mesh n ↔ ∃ cell, GetCell mesh c = Ok cell ∧ n ∈ PointIds cell.
Proof.
  unfold cells_around. rewrite elem_of_list_to_set, list_elem_of_fmap. split.
  - intros ([i cell] & -> & Hin). apply list_elem_of_filter in Hin as [Hn Hin].
    apply elem_of_enumerate in Hin as [Hi Hl]. simpl in *.
    exists cell. split; [|done]. unfold GetCell. rewrite decide_True by done. by rewrite Hl.
  - intros (cell & Hc & Hn). apply GetCell_Ok in Hc as [Hx Hl].
    exists (c, cell). split; [done|]. apply list_elem_of_filter. split; [done|].
    by apply elem_of_enumerate.
Qed.

Lemma node_fold_get (x : Z) (nodes : list Z) (d : list (Z * gset Z)) n :
  dict_get (fold_left (λ d node, dd_update ∅ (λ s, {[x]} ∪ s) d node) nodes d) n
  = if decide (n ∈ nodes) then Some ({[x]} ∪ default ∅ (dict_get d n)) else dict_get d n.
Proof.
  revert d. induction nodes as [|node nodes IH]; intros d; cbn [fold_left].
  { rewrite decide_False; [done|apply not_elem_of_nil]. }
  rewrite IH, dict_get_dd_update.
  destruct (decide (node = n)) as [->|Hne].
  - rewrite (decide_True (P := n ∈ n :: nodes)) by (by left).
    case_decide; [|done]. simpl. f_equal. set_solver.
  - destruct (decide (n ∈ nodes)) as [Hin|Hnin].
    + rewrite decide_True; [done|by right].
    + rewrite decide_False; [done|]. rewrite not_elem_of_cons. split; [congruence|done].
Qed.

Lemma node_fold_keys (x : Z) (nodes : list Z) (d : list (Z * gset Z)) :
  NoDup d.*1 →
  NoDup (fold_left (λ d node, dd_update ∅ (λ s, {[x]} ∪ s) d node) nodes d).*1.
Proof.
  revert d. induction nodes as [|node nodes IH]; intros d Hnd; simpl; [done|].
  apply IH. by apply dd_update_keys.
Qed.

(** [build_node_to_cells] never raises; its keys are the fracture nodes
    that some cell uses, each with all the cells that use it. *)
Lemma build_node_to_cells_run (fns : list (list Z)) :
  ∃ ntc, build_node_to_cells mesh fns = Ok ntc ∧ NoDup ntc.*1 ∧
    ∀ n, dict_get ntc n =
         if decide (n ∈ concat fns ∧ cells_around mesh n ≠ ∅)
         then Some (cells_around mesh n) else None.
Proof.
  unfold build_node_to_cells. cbn zeta.
  set (FN := fold_left _ fns ∅).
  assert (∀ n, n ∈ FN ↔ n ∈ concat fns) as HFN.
  { intros n. unfold FN. rewrite elem_of_fracture_nodes, elem_of_concat. set_solver. }
  set (A := λ (pre : list Z) n, cells_around mesh n ∩ list_to_set pre).
  set (Inv := λ pre (d : list (Z * gset Z)),
       NoDup d.*1 ∧
       ∀ n, dict_get d n = if decide (n ∈ FN ∧ A pre n ≠ ∅) then Some (A pre n) else None).
  match goal with
  | |- ∃ ntc, py_for ?l ?b ?s = _ ∧ _ =>
      destruct (py_for_total Inv l b s) as (ntc & Hrun & Hnd & Hget)
  end.
  - split; [constructor|]. intros n. simpl. rewrite decide_False; [done|].
    intros [_ H]. apply H. unfold A. set_solver.
  - intros pre x post d Heq [Hnd Hget]. cbn beta.
    apply range_split in Heq as Hx. destruct Hx as [-> Hlt].
    destruct (lookup_lt_is_Some_2 (Cells mesh) (length pre) Hlt) as [cell Hcell].
    rewrite (GetCell_lookup _ _ _ Hcell). simpl.
    eexists. split; [done|]. split; [by apply node_fold_keys|].
    intros n. rewrite node_fold_get, Hget.
    assert (Z.of_nat (length pre) ∉ pre) as Hfresh.
    { intros Hin. assert (NoDup (range (GetNumberOfCells mesh))) as Hndr.
      { unfold range. apply NoDup_fmap_2; [intros ???; lia|apply NoDup_seq]. }
      rewrite Heq in Hndr. apply NoDup_app in Hndr as (_ & Hd & _).
      apply (Hd _ Hin). by left. }
    assert (A (pre ++ [Z.of_nat (length pre)]) n
            = A pre n ∪ (if decide (n ∈ PointIds cell) then {[Z.of_nat (length pre)]} else ∅))
      as HA.
    { unfold A. apply set_eq. intros c.
      rewrite elem_of_union, !elem_of_intersection, !elem_of_list_to_set, elem_of_app,
        list_elem_of_singleton.
      split.
      - intros [Hc [Hp| ->]]; [by left|].
        right. apply elem_of_cells_around in Hc as (cell' & Hc' & Hn).
        rewrite (GetCell_lookup _ _ _ Hcell) in Hc'. simplify_eq.
        rewrite decide_True by done. set_solver.
      - intros [[Hc Hp]|Hc]; [by auto|].
        case_decide as Hn; [|set_solver]. apply elem_of_singleton in Hc as ->.
        split; [|auto]. apply elem_of_cells_around.
        exists cell. split; [by apply GetCell_lookup|done]. }
    rewrite HA.
    assert (n ∈ set_iter (frozenset (PointIds cell) ∩ FN) ↔ n ∈ PointIds cell ∧ n ∈ FN)
      as Hmem.
    { rewrite elem_of_set_iter, elem_of_intersection. unfold frozenset.
      by rewrite elem_of_list_to_set. }
    destruct (decide (n ∈ set_iter (frozenset (PointIds cell) ∩ FN))) as [Hin|Hnin].
    + apply Hmem in Hin as [Hn HnF]. rewrite (decide_True (P := n ∈ PointIds cell)) by done.
      rewrite (decide_True (P := n ∈ FN ∧ _ ∪ _ ≠ ∅)) by (split; [done|set_solver]).
      f_equal. destruct (decide (n ∈ FN ∧ A pre n ≠ ∅)) as [Hd|Hd]; simpl; [set_solver|].
      assert (A pre n = ∅) as ->; [|set_solver].
      destruct (decide (A pre n = ∅)); [done|]. tauto.
    + destruct (decide (n ∈ PointIds cell)) as [Hn|Hn].
      * assert (n ∉ FN) by tauto.
        rewrite !(decide_False (P := n ∈ FN ∧ _)) by tauto. done.
      * by rewrite union_empty_r_L.
  - exists ntc. split; [done|]. split; [done|].
    intros n. rewrite Hget.
    assert (A (range (GetNumberOfCells mesh)) n = cells_around mesh n) as ->.
    { unfold A. apply set_eq. intros c. rewrite elem_of_intersection, elem_of_list_to_set.
      split; [tauto|]. intros Hc. split; [done|].
      apply elem_of_cells_around in Hc as (cell & Hc & _).
      apply GetCell_Ok in Hc as [H0 Hl]. apply lookup_lt_Some in Hl.
      apply elem_of_range. unfold GetNumberOfCells. lia. }
    repeat case_decide; try done; exfalso; naive_solver.
Qed.
End around.

(** ** The outcomes of the detection *)

(** A loop whose body either succeeds, on the elements that satisfy [P], or
    raises [e], on the others, succeeds when all elements satisfy [P] and
    raises [e] otherwise. *)
Lemma py_for_cases {S A} (P : A → Prop) e (l : list A) (body : S → A → Py S) s :
  (∀ s x, x ∈ l → (P x ∧ ∃ s', body s x = Ok s') ∨ (¬ P x ∧ body s x = Raise e)) →
  (Forall P l ∧ ∃ s', py_for l body s = Ok s') ∨ (¬ Forall P l ∧ py_for l body s = Raise e).
Proof.
  revert s. induction l as [|x l IH]; intros s Hbody; simpl.
  { left. split; [constructor|eauto]. }
  destruct (Hbody s x) as [[HP [s1 ->]]|[HP ->]]; [by left| |]; simpl.
  - destruct (IH s1) as [[Hall Hok]|[Hall Hraise]].
    + intros s' y Hy. apply Hbody. by right.
    + left. split; [by constructor|done].
    + right. split; [|done]. intros [_ ?]%Forall_cons. done.
  - right. split; [|done]. intros [? _]%Forall_cons. done.
Qed.

Lemma Py_bind_val {A B} (m : Py A) (k : A → Py B) a : m = Ok a → m ≫= k = k a.
Proof. by intros ->. Qed.

Lemma Py_bind_runs {A B} (m : Py A) (k : A → Py B) a :
  m = Ok a → (∃ b, k a = Ok b) → ∃ b, m ≫= k = Ok b.
Proof. by intros ->. Qed.

Lemma Forall_range (P : nat → Prop) (n : nat) :
  Forall (λ x : Z, P (Z.to_nat x)) (range n) ↔ ∀ k : nat, (k < n)%nat → P k.
Proof.
  rewrite Forall_forall. split.
  - intros H k Hk. specialize (H (Z.of_nat k)). rewrite Nat2Z.id in H.
    apply H, elem_of_range. lia.
  - intros H x Hx%elem_of_range. apply H. lia.
Qed.

Section fracture_info_runs.
Context {Point DataTuple : Type}.
Context (mesh : @vtkUnstructuredGrid Point DataTuple) (f : list Z) (field_values : gset Z).
Context (Hlen : length f = GetNumberOfCells mesh).

Lemma getitem_cell c :
  0 ≤ c < Z.of_nat (GetNumberOfCells mesh) →
  ∃ v, f !! Z.to_nat c = Some v ∧ getitem f c = Ok v.
Proof using Hlen. intros Hc. apply getitem_in_range. lia. Qed.

Lemma neighbour_in_range c face nb :
  nb ∈ GetCellNeighbors mesh c face → 0 ≤ nb < Z.of_nat (GetNumberOfCells mesh).
Proof.
  intros (_ & cell & [H0 Hl]%GetCell_Ok & _)%elem_of_GetCellNeighbors.
  apply lookup_lt_Some in Hl. unfold GetNumberOfCells. lia.
Qed.

(** The loop over the neighbours across one face never raises. *)
Lemma neighbour_loop_runs cell_id (i : Z) nbs (ctf : list (Z * list Z)) :
  0 ≤ cell_id < Z.of_nat (GetNumberOfCells mesh) →
  (∀ nb, nb ∈ nbs → 0 ≤ nb < Z.of_nat (GetNumberOfCells mesh)) →
  ∃ ctf', py_for nbs
    (λ cells_to_faces neighbor_cell_id,
       f_neighbor ← getitem f neighbor_cell_id;
       f_cell ← getitem f cell_id;
       if decide (f_neighbor ≠ f_cell ∧ f_neighbor ∈ field_values)
       then Ok (dd_update [] (λ l, l ++ [i]) cells_to_faces cell_id)
       else Ok cells_to_faces) ctf = Ok ctf'.
Proof using Hlen.
  intros Hc Hnbs.
  match goal with
  | |- ∃ r, py_for ?l ?b ?s = _ =>
      destruct (py_for_total (λ _ _, True) l b s) as (r & Hrun & _); [done| |by eauto]
  end.
  intros pre nb post d Heq _. cbn beta.
  destruct (getitem_cell nb) as (vn & _ & ->); [apply Hnbs; rewrite Heq; set_solver|].
  destruct (getitem_cell cell_id Hc) as (vc & _ & ->). simpl.
  case_decide; eauto.
Qed.

(** The loop over the faces of one cell stops at the first face with two
    neighbours or more. *)
Lemma face_loop_cases cell_id cell (ctf : list (Z * list Z)) :
  GetCell mesh cell_id = Ok cell →
  let body := (λ (cells_to_faces : list (Z * list Z)) (i : Z),
              face ← GetFace cell i;
              let neighbor_cell_ids := GetCellNeighbors mesh cell_id face in
              if decide (length neighbor_cell_ids < 2)%nat then
                py_for neighbor_cell_ids
                  (λ cells_to_faces neighbor_cell_id,
                     f_neighbor ← getitem f neighbor_cell_id;
                     f_cell ← getitem f cell_id;
                     if decide (f_neighbor ≠ f_cell ∧ f_neighbor ∈ field_values)
                     then Ok (dd_update [] (λ l, l ++ [i]) cells_to_faces cell_id)
                     else Ok cells_to_faces)
                  cells_to_faces
              else Raise AssertionError) in
  let conform := Forall (λ face, (length (GetCellNeighbors mesh cell_id face) < 2)%nat)
                   (Faces cell) in
  (conform ∧ ∃ ctf', py_for (range (length (Faces cell))) body ctf = Ok ctf') ∨
  (¬ conform ∧ py_for (range (length (Faces cell))) body ctf = Raise AssertionError).
Proof using Hlen.
  intros Hcell body conform.
  assert (0 ≤ cell_id < Z.of_nat (GetNumberOfCells mesh)) as Hc.
  { apply GetCell_Ok in Hcell as [H0 Hl]. apply lookup_lt_Some in Hl.
    unfold GetNumberOfCells. lia. }
  set (P := λ i : Z, ∀ face, Faces cell !! Z.to_nat i = Some face →
                      (length (GetCellNeighbors mesh cell_id face) < 2)%nat).
  assert (Forall P (range (length (Faces cell))) ↔ conform) as HP.
  { unfold conform, P.
    rewrite (Forall_range (λ k, ∀ face, Faces cell !! k = Some face →
                                  (length (GetCellNeighbors mesh cell_id face) < 2)%nat)).
    rewrite Forall_lookup. split.
    - intros H k face Hk. apply (H k); [by eapply lookup_lt_Some|done].
    - intros H k _ face Hk. by apply (H k). }
  destruct (py_for_cases P AssertionError (range (length (Faces cell))) body ctf)
    as [[Hall Hok]|[Hall Hraise]].
  - intros d i Hi%elem_of_range. unfold body.
    destruct (lookup_lt_is_Some_2 (Faces cell) (Z.to_nat i)) as [face Hface]; [lia|].
    assert (GetFace cell i = Ok face) as ->.
    { unfold GetFace. rewrite decide_True by lia. by rewrite Hface. }
    simpl. case_decide as Hlt.
    + left. split; [intros face' ?; by simplify_eq|].
      apply neighbour_loop_runs; [done|]. intros nb. apply neighbour_in_range.
    + right. split; [|done]. intros HPi. apply Hlt. by apply HPi.
  - left. split; [by apply HP|done].
  - right. split; [by rewrite <-HP|done].
Qed.

Lemma conform_cells :
  Forall (cell_conforms mesh f field_values) (range (GetNumberOfCells mesh)) ↔
  admitted_faces_conform mesh f field_values.
Proof using Hlen.
  unfold admitted_faces_conform. rewrite !Forall_forall. split.
  - intros H [[i cell] v] Hin. simpl.
    apply list_elem_of_lookup in Hin as (k & Hk).
    apply lookup_zip_with_Some in Hk as (ic & v' & [= <- <-] & Hic & Hv).
    assert ((i, cell) ∈ enumerate (Cells mesh)) as [Hi Hl]%elem_of_enumerate
      by (by eapply list_elem_of_lookup_2).
    unfold enumerate in Hic. rewrite list_lookup_imap in Hic.
    destruct (Cells mesh !! k) as [cell'|] eqn:Hcell'; [|done]. simpl in Hic.
    simplify_eq. intros Hv'.
    assert (Z.of_nat k ∈ range (GetNumberOfCells mesh)) as Hr.
    { apply elem_of_range. apply lookup_lt_Some in Hcell'. unfold GetNumberOfCells. lia. }
    apply (H _ Hr cell v); [by rewrite Nat2Z.id..|done].
  - intros H c Hc%elem_of_range cell v Hcell Hv Hin.
    assert (c = Z.of_nat (Z.to_nat c)) as Hcz by lia. rewrite Hcz.
    apply (H (Z.of_nat (Z.to_nat c), cell, v)); [|done].
    apply list_elem_of_lookup. exists (Z.to_nat c).
    apply lookup_zip_with_Some. exists (Z.of_nat (Z.to_nat c), cell), v.
    split; [done|]. split; [|done].
    unfold enumerate. rewrite list_lookup_imap, Hcell. done.
Qed.

(** The first loop of [build_fracture_info] runs to its end on a mesh whose
    admitted faces conform, and stops on the assertion otherwise. *)
Lemma build_cells_to_faces_cases :
  (admitted_faces_conform mesh f field_values ∧
   ∃ ctf, build_cells_to_faces mesh f field_values = Ok ctf) ∨
  (¬ admitted_faces_conform mesh f field_values ∧
   build_cells_to_faces mesh f field_values = Raise AssertionError).
Proof using Hlen.
  unfold build_cells_to_faces.
  match goal with
  | |- (_ ∧ ∃ r, py_for ?l ?b ?s = _) ∨ _ =>
      destruct (py_for_cases (cell_conforms mesh f field_values) AssertionError l b s) as [[Hall Hok]|[Hall Hraise]]
  end.
  - intros d c Hc%elem_of_range.
    destruct (getitem_cell c Hc) as (v & Hv & Hgi). rewrite (Py_bind_val _ _ _ Hgi).
    destruct (lookup_lt_is_Some_2 (Cells mesh) (Z.to_nat c)) as [cell Hcell];
      [unfold GetNumberOfCells in Hc; lia|].
    case_decide as Hin.
    + left. split; [|eauto]. intros cell' v' Hcell' Hv' Hv''. simplify_eq. done.
    + assert (GetCell mesh c = Ok cell) as Hget.
      { unfold GetCell. rewrite decide_True by lia. by rewrite Hcell. }
      rewrite (Py_bind_val _ _ _ Hget).
      destruct (face_loop_cases c cell d Hget) as [[Hconf Hok]|[Hconf Hraise]].
      * left. split; [|done]. intros cell' v' Hcell' Hv' _. by simplify_eq.
      * right. split; [|done]. intros Hcf. apply Hconf. by apply (Hcf cell v).
  - left. split; [by apply conform_cells|done].
  - right. split; [by rewrite <-conform_cells|done].
Qed.

(** No cell is recorded with an empty list of faces. *)
Lemma build_cells_to_faces_nonempty ctf :
  build_cells_to_faces mesh f field_values = Ok ctf →
  ∀ c l, (c, l) ∈ ctf → l ≠ [].
Proof using Type.
  unfold build_cells_to_faces. intros Hrun.
  set (Inv := λ d : list (Z * list Z), ∀ c l, (c, l) ∈ d → l ≠ []).
  eapply (py_for_partial (λ _ d, Inv d) _ _ _ ctf); [| |exact Hrun].
  { intros c l H. by apply elem_of_nil in H. }
  clear Hrun. intros _ cell_id _ d d' _ Hd Hbody. cbn beta in Hbody.
  apply Py_bind_Ok in Hbody as (v & _ & Hbody).
  case_decide; [by simplify_eq|].
  apply Py_bind_Ok in Hbody as (cell & _ & Hbody).
  eapply (py_for_partial (λ _ d, Inv d) _ _ _ d'); [exact Hd| |exact Hbody].
  clear Hbody. intros _ i _ d1 d2 _ Hd1 Hbody. cbn beta in Hbody.
  apply Py_bind_Ok in Hbody as (face & _ & Hbody). cbn zeta in Hbody.
  case_decide; [|done].
  eapply (py_for_partial (λ _ d, Inv d) _ _ _ d2); [exact Hd1| |exact Hbody].
  clear Hbody. intros _ nb _ d3 d4 _ Hd3 Hbody. cbn beta in Hbody.
  apply Py_bind_Ok in Hbody as (vn & _ & Hbody).
  apply Py_bind_Ok in Hbody as (vc & _ & Hbody).
  case_decide; simplify_eq; [|done].
  intros c l [Hin|(-> & l0 & _ & ->)]%elem_of_dd_update; [by eapply Hd3|].
  by destruct l0.
Qed.

(** The second loop of [build_fracture_info] never raises on what the
    first loop returns. *)
Lemma extract_face_nodes_runs ctf :
  build_cells_to_faces mesh f field_values = Ok ctf →
  ∃ fh, extract_face_nodes mesh ctf = Ok fh.
Proof using Type.
  clear Hlen.
  intros Hctf.
  pose proof (build_cells_to_faces_nonempty ctf Hctf) as Hne.
  destruct (build_cells_to_faces_spec mesh f field_values ctf Hctf) as [_ Hrec].
  unfold extract_face_nodes.
  match goal with
  | |- ∃ r, py_for ?l ?b ?s = _ =>
      destruct (py_for_total (λ _ _, True) l b s) as (r & Hrun & _); [done| |by eauto]
  end.
  intros pre [c l] post acc Heq _. cbn beta. simpl.
  assert ((c, l) ∈ ctf) as Hin by (rewrite Heq; set_solver).
  assert (∃ cell, GetCell mesh c = Ok cell ∧
            ∀ i, i ∈ l → ∃ face, GetFace cell i = Ok face) as (cell & -> & Hfaces).
  { destruct l as [|i0 l0] eqn:Hl; [by destruct (Hne c [] Hin)|].
    assert (recorded ctf c i0) as Hr0 by (exists (i0 :: l0); split; [done|by left]).
    apply Hrec in Hr0 as (cell & face & _ & _ & _ & Hcell & _).
    exists cell. split; [done|]. intros i Hi.
    assert (recorded ctf c i) as Hr by (exists (i0 :: l0); split; done).
    apply Hrec in Hr as (cell' & face' & _ & _ & _ & Hcell' & Hface' & _).
    rewrite Hcell in Hcell'. simplify_eq. eauto. }
  simpl.
  match goal with
  | |- ∃ r, py_for ?l ?b ?s = _ ∧ _ =>
      destruct (py_for_total (λ _ _, True) l b s) as (r & Hrun & _); [done| |by eauto]
  end.
  intros pre' i post' [fn fhs] Heq' _. cbn beta.
  destruct (Hfaces i) as [face ->]; [rewrite Heq'; set_solver|]. simpl.
  case_decide; eauto.
Qed.
End fracture_info_runs.

(** ** The fracture that the detection returns *)

Section fracture_info.
Context {Point DataTuple : Type}.
Context (mesh : @vtkUnstructuredGrid Point DataTuple).

(** The stages of a run of [build_fracture_info] that returned. *)
Lemma build_fracture_info_inv field field_values info :
  build_fracture_info mesh field field_values = Ok info →
  ∃ f ctf fh,
    GetArray (CellData mesh) field = Some f ∧
    build_cells_to_faces mesh f field_values = Ok ctf ∧
    extract_face_nodes mesh ctf = Ok fh ∧
    build_node_to_cells mesh fh.1 = Ok (node_to_cells info) ∧
    face_nodes info = fh.1.
Proof.
  unfold build_fracture_info. intros Hrun.
  destruct (GetArray (CellData mesh) field) as [f|]; [|done]. simpl in Hrun.
  apply Py_bind_Ok in Hrun as (ctf & Hctf & Hrun).
  apply Py_bind_Ok in Hrun as (fh & Hfh & Hrun).
  apply Py_bind_Ok in Hrun as (ntc & Hntc & [= <-]). simpl.
  by exists f, ctf, fh.
Qed.

(** With one field value per cell, [build_fracture_info] returns exactly
    when the admitted faces conform, and stops on its assertion otherwise. *)
Lemma build_fracture_info_cases field field_values f :
  GetArray (CellData mesh) field = Some f →
  length f = GetNumberOfCells mesh →
  (admitted_faces_conform mesh f field_values ∧
   ∃ info, build_fracture_info mesh field field_values = Ok info) ∨
  (¬ admitted_faces_conform mesh f field_values ∧
   build_fracture_info mesh field field_values = Raise AssertionError).
Proof.
  intros Hf Hlen. unfold build_fracture_info. rewrite Hf. simpl.
  destruct (build_cells_to_faces_cases mesh f field_values Hlen)
    as [[Hconf [ctf Hctf]]|[Hconf Hraise]].
  - left. split; [done|]. rewrite Hctf. simpl.
    destruct (extract_face_nodes_runs mesh f field_values ctf Hctf) as [fh ->]. simpl.
    destruct (build_node_to_cells_run mesh fh.1) as (ntc & -> & _). simpl. eauto.
  - right. split; [done|]. by rewrite Hraise.
Qed.

(** Every tuple that the second loop keeps is a recorded face, vertex for
    vertex. *)
Lemma extract_face_nodes_verbatim ctf fh :
  extract_face_nodes mesh ctf = Ok fh →
  ∀ fn, fn ∈ fh.1 →
    ∃ c i cell, recorded ctf c i ∧ GetCell mesh c = Ok cell ∧ GetFace cell i = Ok fn.
Proof.
  unfold extract_face_nodes. intros Hrun.
  set (Inv := λ (pre : list (Z * list Z)) (acc : list (list Z) * gset (gset Z)),
         ∀ fn, fn ∈ acc.1 →
           ∃ c i cell, recorded pre c i ∧ GetCell mesh c = Ok cell ∧ GetFace cell i = Ok fn).
  assert (Inv ctf fh) as H; [|exact H].
  eapply (py_for_partial Inv _ _ _ fh); [| |exact Hrun].
  { intros fn H. by apply elem_of_nil in H. }
  clear Hrun. intros pre [c l] post acc acc' Heq Hacc Hbody. cbn beta in Hbody.
  apply Py_bind_Ok in Hbody as (cell & Hcell & Hbody). simpl in Hcell, Hbody.
  set (Inv2 := λ (pre' : list Z) (a : list (list Z) * gset (gset Z)),
         ∀ fn, fn ∈ a.1 →
           (∃ c i cell, recorded pre c i ∧ GetCell mesh c = Ok cell ∧ GetFace cell i = Ok fn)
           ∨ ∃ i, i ∈ pre' ∧ GetFace cell i = Ok fn).
  assert (Inv2 l acc') as H2.
  { eapply (py_for_partial Inv2 _ _ _ acc'); [| |exact Hbody].
    - intros fn Hfn. left. by apply Hacc.
    - clear Hbody. intros pre' i post' [fns hs] a' Heq' Ha Hb. cbn beta in Hb.
      apply Py_bind_Ok in Hb as (face & Hface & Hb). cbn zeta in Hb.
      intros fn Hfn.
      assert (fn ∈ fns ∨ fn = face) as [Hold| ->].
      { case_decide; simplify_eq; simpl in Hfn; [|by left].
        apply elem_of_app in Hfn as [?|?%list_elem_of_singleton]; auto. }
      + destruct (Ha fn Hold) as [?|(j & Hj & ?)]; [by left|].
        right. exists j. split; [|done]. apply elem_of_app. by left.
      + right. exists i. split; [|done]. apply elem_of_app. right. by left. }
  intros fn Hfn. destruct (H2 fn Hfn) as [(c' & i & cell' & (l' & Hl' & Hi) & Hc & Hf)|(i & Hi & Hf)].
  - exists c', i, cell'. split; [|done]. exists l'. split; [|done].
    apply elem_of_app. by left.
  - exists c, i, cell. split; [|done]. exists l. split; [|done].
    apply elem_of_app. right. by left.
Qed.

(** What a run of [build_fracture_info] that returned holds: the fracture
    faces are faces of admitted cells, vertex for vertex; the fracture
    nodes are their vertices; each node comes with all the cells around
    it. *)
Lemma build_fracture_info_nodes field field_values info :
  faces_within_cells mesh →
  build_fracture_info mesh field field_values = Ok info →
  NoDup (dict_keys (node_to_cells info)) ∧
  (∀ n s, (n, s) ∈ node_to_cells info ↔
          n ∈ concat (face_nodes info) ∧ s = cells_around mesh n) ∧
  (∀ fn, fn ∈ face_nodes info →
     ∃ c i cell, GetCell mesh c = Ok cell ∧ GetFace cell i = Ok fn).
Proof.
  intros Hclosed (f & ctf & fh & Hf & Hctf & Hfh & Hntc & Hfaces)%build_fracture_info_inv.
  rewrite Hfaces.
  destruct (build_node_to_cells_run mesh fh.1) as (ntc & Hrun & Hnd & Hget).
  rewrite Hntc in Hrun. injection Hrun as <-.
  pose proof (extract_face_nodes_verbatim ctf fh Hfh) as Hverb.
  assert (∀ n, n ∈ concat fh.1 → cells_around mesh n ≠ ∅) as Hused.
  { intros n (fn & Hfn & Hn)%elem_of_concat.
    destruct (Hverb fn Hfn) as (c & i & cell & _ & Hc & Hface).
    assert (c ∈ cells_around mesh n) as Hin; [|set_solver].
    apply elem_of_cells_around. exists cell. split; [done|].
    apply GetCell_Ok in Hc as [_ Hc]. apply GetFace_Ok in Hface as [_ Hface].
    unfold faces_within_cells in Hclosed. rewrite Forall_forall in Hclosed.
    specialize (Hclosed cell (list_elem_of_lookup_2 _ _ _ Hc)).
    rewrite Forall_forall in Hclosed.
    specialize (Hclosed fn (list_elem_of_lookup_2 _ _ _ Hface)).
    unfold uses_points in Hclosed. rewrite Forall_forall in Hclosed. by apply Hclosed. }
  split; [done|]. split.
  - intros n s. rewrite (elem_of_dict_get _ _ _ Hnd), Hget.
    case_decide as Hd.
    + split; [intros [= <-]; tauto|]. by intros [_ ->].
    + split; [done|]. intros [Hn _]. exfalso. apply Hd. split; [done|by apply Hused].
  - intros fn Hfn. destruct (Hverb fn Hfn) as (c & i & cell & _ & ? & ?). eauto.
Qed.
End fracture_info.

(** ** The order in which the faces are recorded *)

Lemma elem_of_recorded_pairs ctf c i : (c, i) ∈ recorded_pairs ctf ↔ recorded ctf c i.
Proof.
  unfold recorded_pairs, recorded. rewrite list_elem_of_bind. split.
  - intros ([c' l] & Hin & Hcl). simpl in Hin.
    apply list_elem_of_fmap in Hin as (i' & [= -> ->] & Hi). eauto.
  - intros (l & Hin & Hi). exists (c, l). split; [|done]. simpl.
    apply list_elem_of_fmap. eauto.
Qed.

Lemma recorded_pairs_snoc ctf c l :
  recorded_pairs (ctf ++ [(c, l)]) = recorded_pairs ctf ++ ((λ i, (c, i)) <$> l).
Proof. unfold recorded_pairs. rewrite bind_app. simpl. by rewrite app_nil_r. Qed.

(** Recording face [i] of cell [x] in a dict whose keys ascend up to [x]
    puts the pair last. *)
Lemma recorded_pairs_dd_update d x i :
  StronglySorted Z.lt d.*1 → Forall (λ c, c ≤ x) d.*1 →
  let d' := dd_update [] (λ l, l ++ [i]) d x in
  recorded_pairs d' = recorded_pairs d ++ [(x, i)] ∧
  StronglySorted Z.lt d'.*1 ∧ Forall (λ c, c ≤ x) d'.*1.
Proof.
  induction d as [|[k v] d IH]; intros Hs Hb; cbn zeta.
  { simpl. split; [done|]. split; repeat constructor. lia. }
  rewrite fmap_cons in Hs, Hb. simpl in Hs, Hb.
  apply StronglySorted_cons in Hs as [Hk Hs]. apply Forall_cons in Hb as [Hkx Hb].
  cbn [dd_update]. case_decide as Hkeq.
  - subst k. assert (d = []) as ->.
    { destruct d as [|[k' v'] d]; [done|]. exfalso.
      rewrite fmap_cons in Hk, Hb. apply Forall_cons in Hk as [Hk _].
      apply Forall_cons in Hb as [Hb' _]. simpl in *. lia. }
    unfold recorded_pairs. simpl. rewrite !app_nil_r, fmap_app. simpl.
    split; [done|]. split; repeat constructor. lia.
  - destruct (IH Hs Hb) as (Hp & Hs' & Hb'). cbn zeta in Hp, Hs', Hb'.
    assert (∀ d0, recorded_pairs ((k, v) :: d0)
                  = ((λ j, (k, j)) <$> v) ++ recorded_pairs d0) as Hcons
      by (intros d0; unfold recorded_pairs; by rewrite bind_cons).
    split; [|split].
    + rewrite !Hcons, Hp. by rewrite app_assoc.
    + rewrite fmap_cons. simpl. apply StronglySorted_cons. split; [|done].
      rewrite Forall_forall. intros k' Hk'.
      apply list_elem_of_fmap in Hk' as ([k'' v''] & -> & Hin). simpl.
      apply elem_of_dd_update in Hin as [Hin|(-> & _)]; [|lia].
      rewrite Forall_forall in Hk. apply Hk. apply list_elem_of_fmap. by exists (k'', v'').
    + rewrite fmap_cons. by constructor.
Qed.

Section recorded_order.
Context {Point DataTuple : Type}.
Context (mesh : @vtkUnstructuredGrid Point DataTuple) (f : list Z) (field_values : gset Z).

(** The first loop of [build_fracture_info] records the pairs by ascending
    cell, and within a cell by ascending local face. *)
Lemma build_cells_to_faces_sorted ctf :
  build_cells_to_faces mesh f field_values = Ok ctf →
  StronglySorted pair_lt (recorded_pairs ctf).
Proof.
  unfold build_cells_to_faces. intros Hrun.
  set (Inv := λ (x i : Z) (d : list (Z * list Z)),
    StronglySorted Z.lt d.*1 ∧ Forall (λ c, c ≤ x) d.*1 ∧
    StronglySorted pair_lt (recorded_pairs d) ∧
    Forall (λ p, pair_lt p (x, i)) (recorded_pairs d)).
  assert (∀ x i j d, i ≤ j → Inv x i d → Inv x j d) as Hmono_i.
  { intros x i j d Hij (H1 & H2 & H3 & H4). split_and!; try done.
    eapply Forall_impl; [exact H4|]. intros [c k]. unfold pair_lt. simpl. lia. }
  assert (∀ x y i j d, x < y → Inv x i d → Inv y j d) as Hmono_x.
  { intros x y i j d Hxy (H1 & H2 & H3 & H4). split_and!; try done.
    - eapply Forall_impl; [exact H2|]. intros c. simpl. lia.
    - eapply Forall_impl; [exact H4|]. intros [c k]. unfold pair_lt. simpl. lia. }
  assert (∀ x i d, Inv x i d → Inv x (i + 1) (dd_update [] (λ l, l ++ [i]) d x)) as Hrec.
  { intros x i d (H1 & H2 & H3 & H4).
    destruct (recorded_pairs_dd_update d x i H1 H2) as (Hp & H1' & H2').
    cbn zeta in Hp, H1', H2'. split_and!; try done.
    - rewrite Hp. apply StronglySorted_app_2; [|done|repeat constructor].
      intros p q Hp' ->%list_elem_of_singleton. rewrite Forall_forall in H4. by apply H4.
    - rewrite Hp. apply Forall_app. split.
      + eapply Forall_impl; [exact H4|]. intros [c k]. unfold pair_lt. simpl. lia.
      + constructor; [|constructor]. unfold pair_lt. simpl. lia. }
  assert (Inv (Z.of_nat (GetNumberOfCells mesh)) 0 ctf) as (_ & _ & H & _); [|exact H].
  eapply (py_for_partial (λ pre d, Inv (Z.of_nat (length pre)) 0 d) _ _ _ ctf) in Hrun.
  - unfold range in Hrun. by rewrite length_fmap, length_seq in Hrun.
  - unfold Inv. simpl. split_and!; constructor.
  - clear Hrun. intros pre x post d d' Heq Hd Hbody. cbn beta in Hbody.
    apply range_split in Heq as [-> Hlt].
    rewrite length_app. simpl. rewrite Nat2Z.inj_add. simpl.
    apply Py_bind_Ok in Hbody as (v & _ & Hbody).
    case_decide.
    { simplify_eq. apply (Hmono_x (Z.of_nat (length pre)) _ 0 0); [lia|done]. }
    apply Py_bind_Ok in Hbody as (cell & _ & Hbody).
    apply (Hmono_x (Z.of_nat (length pre)) _ (Z.of_nat (length (Faces cell))) 0); [lia|].
    eapply (py_for_partial
              (λ pre' d, Inv (Z.of_nat (length pre)) (Z.of_nat (length pre')) d) _ _ _ d')
      in Hbody.
    + unfold range in Hbody. by rewrite length_fmap, length_seq in Hbody.
    + exact Hd.
    + clear Hbody. intros pre' i post' d1 d2 Heq' Hd1 Hb. cbn beta in Hb.
      apply range_split in Heq' as [-> Hlt'].
      rewrite length_app. simpl. rewrite Nat2Z.inj_add. simpl.
      apply Py_bind_Ok in Hb as (face & _ & Hb). cbn zeta in Hb.
      case_decide as Hlen; [|done].
      destruct (GetCellNeighbors mesh (Z.of_nat (length pre)) face) as [|nb [|nb' nbs]];
        simpl in Hlen; [| |lia].
      * simpl in Hb. simplify_eq.
        apply (Hmono_i _ (Z.of_nat (length pre'))); [lia|done].
      * simpl in Hb. apply Py_bind_Ok in Hb as (d3 & Hb & [= <-]).
        apply Py_bind_Ok in Hb as (vn & _ & Hb).
        apply Py_bind_Ok in Hb as (vc & _ & Hb).
        case_decide; simplify_eq; [by apply Hrec|].
        apply (Hmono_i _ (Z.of_nat (length pre'))); [lia|done].
Qed.

(** The second loop keeps, for each vertex set, the face of the first
    recorded pair that has it. *)
Lemma extract_face_nodes_first ctf fh :
  extract_face_nodes mesh ctf = Ok fh →
  ∀ fn, fn ∈ fh.1 →
    ∃ pre c i post cell,
      recorded_pairs ctf = pre ++ (c, i) :: post ∧
      GetCell mesh c = Ok cell ∧ GetFace cell i = Ok fn ∧
      ∀ c' i' cell' face', (c', i') ∈ pre →
        GetCell mesh c' = Ok cell' → GetFace cell' i' = Ok face' →
        frozenset face' ≠ frozenset fn.
Proof.
  unfold extract_face_nodes. intros Hrun.
  set (Inv := λ (P : list (Z * Z)) (acc : list (list Z) * gset (gset Z)),
    (∀ c i cell face, (c, i) ∈ P → GetCell mesh c = Ok cell → GetFace cell i = Ok face →
       frozenset face ∈ acc.2) ∧
    (∀ fn, fn ∈ acc.1 →
       ∃ pre c i post cell,
         P = pre ++ (c, i) :: post ∧
         GetCell mesh c = Ok cell ∧ GetFace cell i = Ok fn ∧
         ∀ c' i' cell' face', (c', i') ∈ pre →
           GetCell mesh c' = Ok cell' → GetFace cell' i' = Ok face' →
           frozenset face' ≠ frozenset fn)).
  assert (Inv (recorded_pairs ctf) fh) as [_ H]; [|exact H].
  eapply (py_for_partial (λ pre acc, Inv (recorded_pairs pre) acc) _ _ _ fh);
    [| |exact Hrun].
  { split; [intros c i cell face Hin; by apply elem_of_nil in Hin|].
    intros fn Hfn. by apply elem_of_nil in Hfn. }
  clear Hrun. intros pre [c l] post acc acc' _ Hacc Hbody. cbn beta in Hbody.
  apply Py_bind_Ok in Hbody as (cell & Hcell & Hbody). simpl in Hcell, Hbody.
  rewrite recorded_pairs_snoc.
  assert (Inv (recorded_pairs pre ++ ((λ i, (c, i)) <$> l)) acc') as H; [|exact H].
  eapply (py_for_partial
            (λ pre' acc, Inv (recorded_pairs pre ++ ((λ i, (c, i)) <$> pre')) acc)
            _ _ _ acc'); [| |exact Hbody].
  { simpl. by rewrite app_nil_r. }
  clear Hbody. intros pre' i post' [fns hs] a' _ [Hseen Hfirst] Hb. cbn beta in Hb.
  apply Py_bind_Ok in Hb as (face & Hface & Hb). cbn zeta in Hb.
  rewrite fmap_app, app_assoc. simpl.
  set (P := recorded_pairs pre ++ ((λ i, (c, i)) <$> pre')) in *.
  simpl in Hseen, Hfirst.
  assert (∀ fn, fn ∈ fns →
            ∃ pre0 c0 i0 post0 cell0,
              P ++ [(c, i)] = pre0 ++ (c0, i0) :: post0 ∧
              GetCell mesh c0 = Ok cell0 ∧ GetFace cell0 i0 = Ok fn ∧
              ∀ c' i' cell' face', (c', i') ∈ pre0 →
                GetCell mesh c' = Ok cell' → GetFace cell' i' = Ok face' →
                frozenset face' ≠ frozenset fn) as Hold.
  { intros fn (pre0 & c0 & i0 & post0 & cell0 & HP & Hc0 & Hf0 & Hmin)%Hfirst.
    exists pre0, c0, i0, (post0 ++ [(c, i)]), cell0. split; [|done].
    rewrite HP. by rewrite <-app_assoc. }
  case_decide as Hnew; simplify_eq; split; simpl.
  - intros c1 i1 cell1 face1 [Hin|[= -> ->]%list_elem_of_singleton]%elem_of_app Hc1 Hf1.
    + apply elem_of_union. right. by eapply Hseen.
    + rewrite Hcell in Hc1. simplify_eq. rewrite Hface in Hf1. simplify_eq. set_solver.
  - intros fn [Hfn| ->%list_elem_of_singleton]%elem_of_app; [by apply Hold|].
    exists P, c, i, [], cell. split; [done|]. split; [done|]. split; [done|].
    intros c' i' cell' face' Hin Hc' Hf' Heq. apply Hnew. rewrite <-Heq. by eapply Hseen.
  - intros c1 i1 cell1 face1 [Hin|[= -> ->]%list_elem_of_singleton]%elem_of_app Hc1 Hf1.
    + by eapply Hseen.
    + rewrite Hcell in Hc1. simplify_eq. rewrite Hface in Hf1. by simplify_eq.
  - exact Hold.
Qed.
End recorded_order.

(** ** The edges of the cell-to-cell graph *)

Lemma face_dict_get_append d h c h' :
  face_dict_get (face_dict_append d h c) h'
  = if decide (h' = h) then face_dict_get d h ++ [c] else face_dict_get d h'.
Proof.
  induction d as [|[k v] d IH]; simpl.
  - repeat case_decide; congruence.
  - destruct (decide (k = h)) as [->|Hne]; simpl.
    + repeat case_decide; congruence.
    + rewrite IH. repeat case_decide; congruence.
Qed.

Lemma face_dict_append_keys d h c :
  NoDup d.*1 → NoDup (face_dict_append d h c).*1.
Proof.
  assert ((face_dict_append d h c).*1 = d.*1
          ∨ (h ∉ d.*1 ∧ (face_dict_append d h c).*1 = d.*1 ++ [h])) as Hkeys.
  { induction d as [|[k v] d IH]; cbn [face_dict_append].
    - right. split; [apply not_elem_of_nil|done].
    - case_decide as Hk; [by left|]. rewrite !fmap_cons. cbn [fst].
      destruct IH as [->|[Hnin ->]]; [by left|].
      right. split; [|done]. rewrite not_elem_of_cons. split; [congruence|done]. }
  intros Hnd. destruct Hkeys as [->|[Hnin ->]]; [done|].
  apply NoDup_app. split; [done|]. split; [|apply NoDup_singleton].
  intros x Hx ->%list_elem_of_singleton. done.
Qed.

Lemma face_dict_append_nonempty d h c :
  (∀ k l, (k, l) ∈ d → l ≠ []) → ∀ k l, (k, l) ∈ face_dict_append d h c → l ≠ [].
Proof.
  induction d as [|[k0 v] d IH]; simpl; intros Hd k l.
  - intros [= -> ->]%list_elem_of_singleton. done.
  - case_decide as Hk.
    + intros [[= -> ->]|Hin]%elem_of_cons; [by destruct v|].
      apply (Hd k). by right.
    + intros [[= -> ->]|Hin]%elem_of_cons; [apply (Hd k0); by left|].
      apply (IH (λ k l H, Hd k l (list_elem_of_further _ _ _ H)) k l Hin).
Qed.

Lemma face_dict_get_elem_of d h l :
  NoDup d.*1 → (h, l) ∈ d → face_dict_get d h = l.
Proof.
  induction d as [|[k v] d IH]; simpl; intros Hnd Hin; [by apply elem_of_nil in Hin|].
  apply NoDup_cons in Hnd as [Hnin Hnd].
  apply elem_of_cons in Hin as [[= -> ->]|Hin]; [by rewrite decide_True|].
  rewrite decide_False; [by apply IH|]. intros ->. apply Hnin.
  apply list_elem_of_fmap. by exists (h, l).
Qed.

Lemma face_dict_get_lookup d h : face_dict_get d h ≠ [] → (h, face_dict_get d h) ∈ d.
Proof.
  induction d as [|[k v] d IH]; simpl; [done|].
  case_decide as Hk; [subst; by left|]. intros H. right. by apply IH.
Qed.

Lemma face_incidences_snoc {Point DataTuple : Type}
    (mesh : @vtkUnstructuredGrid Point DataTuple) pre c cell h :
  GetCell mesh c = Ok cell →
  face_incidences mesh (pre ++ [c]) h
  = face_incidences mesh pre h
    ++ ((λ _, c) <$> filter (λ face, frozenset face = h) (Faces cell)).
Proof.
  intros Hc. unfold face_incidences. rewrite bind_app. f_equal.
  simpl. rewrite Hc. by rewrite app_nil_r.
Qed.

Lemma elem_of_face_incidences {Point DataTuple : Type}
    (mesh : @vtkUnstructuredGrid Point DataTuple) cells h c :
  c ∈ face_incidences mesh cells h → c ∈ cells.
Proof.
  unfold face_incidences. rewrite list_elem_of_bind. intros (c' & Hc & Hc').
  destruct (GetCell mesh c'); [|by apply elem_of_nil in Hc].
  apply list_elem_of_fmap in Hc as (_ & -> & _). done.
Qed.

Section cell_graph.
Context {Point DataTuple : Type}.
Context (mesh : @vtkUnstructuredGrid Point DataTuple) (FH : gset (gset Z)).

(** The dict [face_to_cells] after the cells of [pre]. *)
Lemma face_to_cells_loop (cells : list Z) ftc :
  py_for cells
    (λ face_to_cells cell_id,
       cell ← GetCell mesh cell_id;
       py_for (range (length (Faces cell)))
         (λ face_to_cells face_id,
            face ← GetFace cell face_id;
            let face_hash := frozenset face in
            if decide (face_hash ∉ FH)
            then Ok (face_dict_append face_to_cells face_hash cell_id)
            else Ok face_to_cells)
         face_to_cells)
    [] = Ok ftc →
  NoDup ftc.*1 ∧ (∀ h l, (h, l) ∈ ftc → l ≠ []) ∧
  ∀ h, face_dict_get ftc h = if decide (h ∈ FH) then [] else face_incidences mesh cells h.
Proof.
  intros Hrun.
  set (Inv := λ (pre : list Z) (d : list (gset Z * list Z)),
    NoDup d.*1 ∧ (∀ h l, (h, l) ∈ d → l ≠ []) ∧
    ∀ h, face_dict_get d h = if decide (h ∈ FH) then [] else face_incidences mesh pre h).
  assert (Inv cells ftc) as H; [|exact H].
  eapply (py_for_partial Inv _ _ _ ftc); [| |exact Hrun].
  { split; [constructor|]. split; [intros h l H; by apply elem_of_nil in H|].
    intros h. simpl. by case_decide. }
  clear Hrun. intros pre c post d d' _ (Hnd & Hne & Hget) Hbody. cbn beta in Hbody.
  apply Py_bind_Ok in Hbody as (cell & Hcell & Hbody).
  set (Inv2 := λ (pre' : list Z) (d : list (gset Z * list Z)),
    NoDup d.*1 ∧ (∀ h l, (h, l) ∈ d → l ≠ []) ∧
    ∀ h, face_dict_get d h =
         if decide (h ∈ FH) then []
         else face_incidences mesh pre h
              ++ ((λ _, c) <$> filter (λ face, frozenset face = h)
                                 (take (length pre') (Faces cell)))).
  assert (Inv2 (range (length (Faces cell))) d') as (Hnd' & Hne' & Hget').
  { eapply (py_for_partial Inv2 _ _ _ d'); [| |exact Hbody].
    - split; [done|]. split; [done|]. intros h. rewrite Hget. simpl.
      case_decide; [done|]. by rewrite app_nil_r.
    - clear Hbody. intros pre' i post' d1 d2 Heq (Hnd1 & Hne1 & Hget1) Hb. cbn beta in Hb.
      apply range_split in Heq as [-> Hlt].
      apply Py_bind_Ok in Hb as (face & Hface & Hb). cbn zeta in Hb.
      apply GetFace_Ok in Hface as [_ Hface]. rewrite Nat2Z.id in Hface.
      unfold Inv2. rewrite length_app. simpl. rewrite Nat.add_1_r, (take_S_r _ _ _ Hface).
      case_decide as Hin; simplify_eq.
      + split; [by apply face_dict_append_keys|].
        split; [by apply face_dict_append_nonempty|].
        intros h. rewrite face_dict_get_append, filter_app, fmap_app, filter_cons, filter_nil.
        destruct (decide (h = frozenset face)) as [-> |Hh].
        * rewrite Hget1. repeat case_decide; try done. simpl. by rewrite <-app_assoc.
        * rewrite Hget1. repeat case_decide; try done; try congruence.
          simpl. by rewrite app_nil_r.
      + split; [done|]. split; [done|]. intros h. rewrite Hget1.
        case_decide as Hh; [done|].
        rewrite filter_app, fmap_app, filter_cons, filter_nil.
        assert (frozenset face ≠ h) as Hneq.
        { intros <-. by apply Hh. }
        case_decide; [done|]. simpl. by rewrite app_nil_r. }
  split; [done|]. split; [done|]. intros h. rewrite Hget'.
  case_decide; [done|]. rewrite (face_incidences_snoc mesh pre c cell h Hcell).
  unfold range. rewrite length_fmap, length_seq. by rewrite take_ge.
Qed.

End cell_graph.

Section cell_graph_spec.
Context {Point DataTuple : Type}.
Context (mesh : @vtkUnstructuredGrid Point DataTuple).

(** The nodes of the cell-to-cell graph are the cells listed under the
    fracture nodes; an edge joins two cells when some vertex set that is
    not a fracture face is met exactly twice among the faces of the cells
    of the graph, once or twice on these two cells. *)
Lemma build_cell_to_cell_graph_spec fracture G :
  build_cell_to_cell_graph mesh fracture = Ok G →
  (∀ c, c ∈ nodes G ↔ ∃ n s, (n, s) ∈ node_to_cells fracture ∧ c ∈ s) ∧
  (∀ a b, adjacent G a b ↔
     ∃ h, ¬ fracture_face fracture h ∧ face_incidences mesh (nodes G) h ≡ₚ [a; b]).
Proof.
  unfold build_cell_to_cell_graph. cbn zeta. intros Hrun.
  set (cells := fold_left _ (dict_values (node_to_cells fracture)) ∅) in Hrun.
  set (FH := list_to_set (frozenset <$> face_nodes fracture) : gset (gset Z)) in Hrun.
  apply Py_bind_Ok in Hrun as (ftc & Hftc & [= <-]).
  apply face_to_cells_loop in Hftc as (Hnd & Hne & Hget).
  assert (∀ c, c ∈ cells ↔ ∃ n s, (n, s) ∈ node_to_cells fracture ∧ c ∈ s) as Hcells.
  { intros c. unfold cells. rewrite elem_of_fold_union. unfold dict_values.
    setoid_rewrite list_elem_of_fmap. split.
    - intros [?|(s & ([n s'] & -> & Hin) & Hc)]; [set_solver|]. eauto.
    - intros (n & s & Hin & Hc). right. exists s. split; [|done]. by exists (n, s). }
  assert (∀ h, h ∈ FH ↔ fracture_face fracture h) as HFH.
  { intros h. unfold FH, fracture_face. by rewrite elem_of_list_to_set. }
  set (edges := omap (λ cs : list Z, match cs with [a; b] => Some (a, b) | _ => None end)
                  ftc.*2).
  assert (∀ a b, (a, b) ∈ edges ↔
            ∃ h, h ∉ FH ∧ face_incidences mesh (set_iter cells) h = [a; b]) as Hedges.
  { intros a b. unfold edges. rewrite list_elem_of_omap. split.
    - intros (l & Hl & Hsel). apply list_elem_of_fmap in Hl as ([h l'] & -> & Hin).
      simpl in Hsel. destruct l' as [|a' [|b' [|]]]; simplify_eq.
      exists h. pose proof (face_dict_get_elem_of _ _ _ Hnd Hin) as Hg.
      rewrite Hget in Hg. by case_decide.
    - intros (h & Hh & Hinc). exists [a; b]. split; [|done].
      apply list_elem_of_fmap. exists (h, [a; b]). split; [done|].
      specialize (Hget h). rewrite decide_False in Hget by done.
      rewrite Hinc in Hget. rewrite <-Hget. apply face_dict_get_lookup. by rewrite Hget. }
  set (G := add_edges_from (add_nodes_from [] (set_iter cells)) edges).
  assert (∀ a b, AddEdge a b ∈ G ↔ (a, b) ∈ edges) as HG.
  { intros a b. unfold G, add_edges_from, add_nodes_from. simpl.
    rewrite elem_of_app, !list_elem_of_fmap. split.
    - intros [(x & [=] & _)|([a' b'] & [= -> ->] & Hin)]. done.
    - intros Hin. right. by exists (a, b). }
  assert (∀ c, c ∈ nodes G ↔ c ∈ cells) as Hnodes.
  { intros c. rewrite elem_of_nodes. split.
    - intros ([n|u v] & Hop & Hc).
      + unfold G, add_edges_from, add_nodes_from in Hop. simpl in Hop.
        apply elem_of_app in Hop as [Hop|Hop]; apply list_elem_of_fmap in Hop as (x & Hx & Hin);
          [|done]. simplify_eq. simpl in Hc. apply list_elem_of_singleton in Hc as ->.
        by apply elem_of_set_iter.
      + apply HG, Hedges in Hop as (h & _ & Hinc). apply elem_of_set_iter.
        apply (elem_of_face_incidences mesh _ h). rewrite Hinc. simpl in Hc. set_solver.
    - intros Hc. exists (AddNode c). split; [|simpl; set_solver].
      unfold G, add_edges_from, add_nodes_from. simpl. apply elem_of_app. left.
      apply list_elem_of_fmap. exists c. split; [done|]. by apply elem_of_set_iter. }
  assert (nodes G ≡ₚ set_iter cells) as Hperm.
  { apply NoDup_Permutation; [apply NoDup_nodes|apply NoDup_set_iter|].
    intros c. by rewrite Hnodes, elem_of_set_iter. }
  split.
  - intros c. by rewrite Hnodes, Hcells.
  - intros a b. unfold adjacent. rewrite elem_of_neighbors, !HG, !Hedges. split.
    + intros [(h & Hh & Hinc)|(h & Hh & Hinc)]; exists h; rewrite <-HFH;
        (split; [done|]); unfold face_incidences in *; rewrite Hperm, Hinc; [done|].
      apply perm_swap.
    + intros (h & Hh & Hinc). rewrite <-HFH in Hh. unfold face_incidences in Hinc.
      rewrite Hperm in Hinc. symmetry in Hinc.
      apply Permutation.Permutation_length_2_inv in Hinc as [Hinc|Hinc]; [left|right];
        by exists h.
Qed.

(** The graph is built when the cells listed under the fracture nodes are
    cells of the mesh; the first one that is not stops the construction. *)
Lemma build_cell_to_cell_graph_cases fracture :
  let listed := ∀ n s c, (n, s) ∈ node_to_cells fracture → c ∈ s →
                  0 ≤ c < Z.of_nat (GetNumberOfCells mesh) in
  (listed ∧ ∃ G, build_cell_to_cell_graph mesh fracture = Ok G) ∨
  (¬ listed ∧ build_cell_to_cell_graph mesh fracture = Raise AttributeError).
Proof.
  intros listed. unfold build_cell_to_cell_graph. cbn zeta.
  set (cells := fold_left _ (dict_values (node_to_cells fracture)) ∅).
  assert (Forall (λ c, 0 ≤ c < Z.of_nat (GetNumberOfCells mesh)) (set_iter cells) ↔ listed)
    as Hlisted.
  { rewrite Forall_forall. unfold listed. split.
    - intros H n s c Hin Hc. apply H, elem_of_set_iter. unfold cells.
      apply elem_of_fold_union. right. exists s. split; [|done].
      unfold dict_values. apply list_elem_of_fmap. by exists (n, s).
    - intros H c Hc%elem_of_set_iter. unfold cells in Hc.
      apply elem_of_fold_union in Hc as [?|(s & Hs & Hc)]; [set_solver|].
      unfold dict_values in Hs. apply list_elem_of_fmap in Hs as ([n s'] & -> & Hin).
      by apply (H n s'). }
  match goal with
  | |- (_ ∧ ∃ G, py_for ?l ?b ?s ≫= _ = _) ∨ _ =>
      destruct (py_for_cases (λ c, 0 ≤ c < Z.of_nat (GetNumberOfCells mesh))
                  AttributeError l b s) as [[Hall [ftc Hok]]|[Hall Hraise]]
  end.
  - intros d c _. cbn beta.
    destruct (decide (0 ≤ c < Z.of_nat (GetNumberOfCells mesh))) as [Hc|Hc].
    + left. split; [done|].
      destruct (lookup_lt_is_Some_2 (Cells mesh) (Z.to_nat c)) as [cell Hcell];
        [unfold GetNumberOfCells in Hc; lia|].
      assert (GetCell mesh c = Ok cell) as ->.
      { unfold GetCell. rewrite decide_True by lia. by rewrite Hcell. }
      simpl.
      match goal with
      | |- ∃ r, py_for ?l ?b ?s = _ =>
          destruct (py_for_total (λ _ _, True) l b s) as (r & Hrun & _); [done| |by eauto]
      end.
      intros pre' i post' d1 Heq' _. cbn beta.
      apply range_split in Heq' as [-> Hlt].
      destruct (lookup_lt_is_Some_2 (Faces cell) (length pre') Hlt) as [face Hface].
      rewrite (GetFace_lookup _ _ _ Hface). simpl. case_decide; eauto.
    + right. split; [done|].
      assert (GetCell mesh c = Raise AttributeError) as ->; [|done].
      unfold GetCell. case_decide; [|done].
      destruct (Cells mesh !! Z.to_nat c) eqn:Hl; [|done].
      apply lookup_lt_Some in Hl. unfold GetNumberOfCells in Hc. lia.
  - left. split; [by apply Hlisted|]. eapply Py_bind_runs; [exact Hok|]. eauto.
  - right. split; [by rewrite <-Hlisted|]. by rewrite Hraise.
Qed.

Lemma build_cell_to_cell_graph_runs fracture :
  (∀ n s c, (n, s) ∈ node_to_cells fracture → c ∈ s →
     0 ≤ c < Z.of_nat (GetNumberOfCells mesh)) →
  ∃ G, build_cell_to_cell_graph mesh fracture = Ok G.
Proof.
  intros Hlisted. destruct (build_cell_to_cell_graph_cases fracture) as [[_ ?]|[? _]]; done.
Qed.
End cell_graph_spec.

(** ** The entries of the plan and the index generator *)

(** The plan has an entry for a cell and a node exactly when the node is a
    fracture node, the cell is listed around it, and the cell is in the
    graph. *)
Lemma identify_split_domain N G ntc cell n :
  NoDup ntc.*1 →
  is_Some (plan_lookup (__identify_split N G ntc) cell n) ↔
  ∃ cells, (n, cells) ∈ ntc ∧ cell ∈ cells ∧ cell ∈ nodes G.
Proof.
  intros Hnd. split.
  - intros [o Ho].
    apply identify_split_lookup_inv in Ho as (k & cells & j & c & Hk & Hj & Hc & _); [|done].
    exists cells. destruct (component_subgraph_elem G cells j c Hj) as (_ & Hsub & _).
    destruct (Hsub cell Hc). split; [|done].
    rewrite <-sorted_items_perm. by eapply list_elem_of_lookup_2.
  - intros (cells & Hin & Hc1 & Hc2).
    rewrite <-sorted_items_perm in Hin. apply list_elem_of_lookup in Hin as (k & Hk).
    destruct (component_subgraph_cover G cells cell Hc1 Hc2) as (j & c & Hj & Hc).
    destruct (identify_split_lookup N G ntc k n cells cell Hnd Hk) as [H1 _].
    rewrite (H1 j c Hj Hc). eauto.
Qed.

(** [sorted] makes the walk independent of the order of the dict. *)
Lemma sorted_items_unique ntc ntc' :
  NoDup ntc.*1 → ntc ≡ₚ ntc' → sorted_items ntc = sorted_items ntc'.
Proof.
  intros Hnd Hperm. unfold sorted_items.
  apply (StronglySorted_unique_strong item_le).
  - intros [n1 s1] [n2 s2] H1 H2 Hle1 Hle2. unfold item_le in *. simpl in *.
    assert (n1 = n2) as -> by lia. f_equal.
    rewrite merge_sort_Permutation in H1, H2. rewrite <-Hperm in H2.
    apply list_elem_of_lookup in H1 as (k1 & H1). apply list_elem_of_lookup in H2 as (k2 & H2).
    by destruct (NoDup_keys_lookup ntc k1 k2 (n2, s1) (n2, s2) Hnd H1 H2 eq_refl) as [_ [= ->]].
  - apply StronglySorted_merge_sort; apply _.
  - apply StronglySorted_merge_sort; apply _.
  - by rewrite !merge_sort_Permutation.
Qed.

Lemma extra_components_perm G l1 l2 :
  l1 ≡ₚ l2 → extra_components G l1 = extra_components G l2.
Proof.
  unfold extra_components. induction 1; simpl; lia.
Qed.

Lemma if_decide_ext {A} (P Q : Prop) `{Decision P, Decision Q} (a b c : A) :
  (P ↔ Q) → (P → a = b) →
  (if decide P then a else c) = (if decide Q then b else c).
Proof. intros HPQ Hab. repeat case_decide; try tauto. Qed.

Lemma size_list_to_set_le (l : list Z) : (size (list_to_set l : gset Z) ≤ length l)%nat.
Proof.
  induction l as [|x l IH]; cbn [list_to_set length]; [done|].
  rewrite size_union_alt, size_singleton.
  assert (size (list_to_set l ∖ {[x]} : gset Z) ≤ size (list_to_set l : gset Z))%nat
    by (apply subseteq_size; set_solver).
  lia.
Qed.

(** The value of the [k]-th call after any earlier calls. *)
Lemma NewIndex_calls_lookup (self : NewIndex) (l : list Z) (k : nat) i :
  l !! k = Some i →
  NewIndex_calls self l !! k
  = Some (if decide (i ∈ seen self ∨ i ∈ take k l)
          then current_last_index self + 1
               + Z.of_nat (k - size (list_to_set (take k l) ∖ seen self))
          else i).
Proof.
  revert self k. induction l as [|x l IH]; intros self k Hk; [done|].
  destruct k as [|k]; cbn [lookup list_lookup] in Hk.
  - simplify_eq. cbn [NewIndex_calls lookup list_lookup take]. f_equal.
    unfold NewIndex_call.
    destruct (decide (i ∈ seen self)) as [Hin|Hnin]; cbn [fst].
    + rewrite decide_True by auto. lia.
    + rewrite decide_False; [done|]. intros [?|?%elem_of_nil]; done.
  - cbn [NewIndex_calls lookup list_lookup]. rewrite (IH _ k Hk). f_equal.
    cbn [take]. set (T := list_to_set (take k l) : gset Z).
    assert (list_to_set (x :: take k l) = ({[x]} ∪ T : gset Z)) as -> by done.
    assert (size T ≤ k)%nat as HT.
    { unfold T. etrans; [apply size_list_to_set_le|]. rewrite length_take. lia. }
    assert (∀ y, y ∈ take k l ↔ y ∈ T) as Hmem
      by (intros y; unfold T; by rewrite elem_of_list_to_set).
    unfold NewIndex_call.
    destruct (decide (x ∈ seen self)) as [Hx|Hx]; cbn [fst snd seen current_last_index].
    + apply if_decide_ext.
      * rewrite elem_of_cons. split; [tauto|]. intros [?|[-> |?]]; auto.
      * intros _. assert (({[x]} ∪ T) ∖ seen self = T ∖ seen self) as -> by set_solver.
        assert (size (T ∖ seen self) ≤ size T)%nat by (apply subseteq_size; set_solver).
        lia.
    + apply if_decide_ext.
      * rewrite elem_of_cons, elem_of_union, elem_of_singleton. tauto.
      * intros _.
        assert (({[x]} ∪ T) ∖ seen self = {[x]} ∪ T ∖ ({[x]} ∪ seen self)) as ->.
        { apply set_eq. intros y.
          rewrite !elem_of_difference, !elem_of_union, !elem_of_difference,
            !elem_of_union, !elem_of_singleton.
          destruct (decide (y = x)) as [-> |?]; naive_solver. }
        rewrite (size_union_alt (C := gset Z) {[x]} (T ∖ ({[x]} ∪ seen self))),
          size_singleton.
        assert (T ∖ ({[x]} ∪ seen self) ∖ {[x]} = T ∖ ({[x]} ∪ seen self)) as ->
          by set_solver.
        lia.
Qed.

(** ** Copying the fields *)

Lemma mapM_py_Forall2 {A B} (f : A → Py B) (l : list A) (ys : list B) :
  mapM_py f l = Ok ys ↔ Forall2 (λ x y, f x = Ok y) l ys.
Proof.
  revert ys. induction l as [|x l IH]; intros ys; simpl.
  - split; [intros [= <-]; constructor|]. intros H. by inv H.
  - split.
    + intros (y & Hy & Hrest)%Py_bind_Ok. apply Py_bind_Ok in Hrest as (ys' & Hys & [= <-]).
      constructor; [done|]. by apply IH.
    + intros H. inv H. match goal with H : f x = _ |- _ => rewrite H end. simpl.
      match goal with H : Forall2 _ l _ |- _ => apply IH in H; rewrite H end. done.
Qed.

Lemma mapM_py_runs {A B} (f : A → Py B) (l : list A) :
  (∀ x, x ∈ l → ∃ y, f x = Ok y) → ∃ ys, mapM_py f l = Ok ys.
Proof.
  induction l as [|x l IH]; intros Hl; simpl; [eauto|].
  destruct (Hl x) as [y ->]; [by left|]. simpl.
  destruct IH as [ys ->]; [|simpl; eauto]. intros z Hz. apply Hl. by right.
Qed.

Lemma GetTuple_Ok {T} (tuples : list T) p t :
  GetTuple tuples p = Ok t ↔ 0 ≤ p ∧ tuples !! Z.to_nat p = Some t.
Proof.
  unfold GetTuple. case_decide; [|split; [done|lia]].
  destruct (tuples !! Z.to_nat p); split; try done.
  - intros [= ->]. done.
  - intros [_ [= ->]]. done.
  - by intros [_ ?].
Qed.

Section copy.
Context {DataTuple : Type}.

(** The copy of a point array has one tuple for each new point: the tuple
    of the old point that [collocated_nodes] names. *)
Lemma copy_point_array_spec (C : list Z) (a a' : @vtkDataArray DataTuple) :
  copy_point_array C a = Ok a' →
  GetNumberOfTuples a' = length C ∧
  ∀ (p : nat) c, C !! p = Some c →
    0 ≤ c ∧ is_Some (tuple_at a' p) ∧ tuple_at a' p = tuple_at a (Z.to_nat c).
Proof.
  unfold copy_point_array.
  assert (∀ T (tuples ys : list T), mapM_py (GetTuple tuples) C = Ok ys →
            length ys = length C ∧
            ∀ (p : nat) c, C !! p = Some c →
              0 ≤ c ∧ is_Some (ys !! p) ∧ ys !! p = tuples !! Z.to_nat c) as Hmap.
  { intros T tuples ys Hys%mapM_py_Forall2. split; [by apply Forall2_length in Hys|].
    intros p c Hp. destruct (Forall2_lookup_l _ _ _ _ _ Hys Hp) as (t & Ht & Hget).
    apply GetTuple_Ok in Hget as [Hc Hget]. rewrite Ht, Hget. eauto. }
  destruct a as [tuples|tuples].
  - destruct (mapM_py (GetTuple tuples) C) as [ys|] eqn:Hys; [|done].
    intros [= <-]. destruct (Hmap _ _ _ Hys) as [Hlen Htup]. split; [done|].
    intros p c Hp. destruct (Htup p c Hp) as (Hc & [t Ht] & Heq). simpl.
    rewrite <-Heq, Ht. eauto.
  - destruct (mapM_py (GetTuple tuples) C) as [ys|] eqn:Hys; [|done].
    intros [= <-]. destruct (Hmap _ _ _ Hys) as [Hlen Htup]. split; [done|].
    intros p c Hp. destruct (Htup p c Hp) as (Hc & [t Ht] & Heq). simpl.
    rewrite <-Heq, Ht. eauto.
Qed.

Lemma copy_point_array_runs (C : list Z) (a : @vtkDataArray DataTuple) :
  Forall (λ c, 0 ≤ c < Z.of_nat (GetNumberOfTuples a)) C →
  ∃ a', copy_point_array C a = Ok a'.
Proof.
  intros HC. rewrite Forall_forall in HC. unfold copy_point_array.
  assert (∀ T (tuples : list T), length tuples = GetNumberOfTuples a →
            ∃ ys, mapM_py (GetTuple tuples) C = Ok ys) as Hmap.
  { intros T tuples Hlen. apply mapM_py_runs. intros c Hc%HC.
    destruct (lookup_lt_is_Some_2 tuples (Z.to_nat c)) as [t Ht]; [lia|].
    exists t. apply GetTuple_Ok. split; [lia|done]. }
  destruct a as [tuples|tuples]; destruct (Hmap _ tuples eq_refl) as [ys ->]; simpl; eauto.
Qed.

(** Copying along the identity gives the array back. *)
Lemma copy_point_array_id (a : @vtkDataArray DataTuple) :
  copy_point_array (range (GetNumberOfTuples a)) a = Ok a.
Proof.
  unfold copy_point_array.
  assert (∀ T (tuples : list T), mapM_py (GetTuple tuples) (range (length tuples)) = Ok tuples)
    as Hmap.
  { intros T tuples. apply mapM_py_Forall2. apply Forall2_same_length_lookup.
    split; [unfold range; by rewrite length_fmap, length_seq|].
    intros p c t Hc Ht. unfold range in Hc. rewrite list_lookup_fmap in Hc.
    destruct (seq 0 (length tuples) !! p) as [k|] eqn:Hk; [|done].
    apply lookup_seq in Hk as [-> _]. simpl in Hc. simplify_eq.
    apply GetTuple_Ok. rewrite Nat2Z.id. split; [lia|done]. }
  destruct a as [tuples|tuples]; simpl; by rewrite Hmap.
Qed.
End copy.

Section split_mesh.
Context {Point DataTuple : Type} (uninitialized : Point) (cell_faces : Z → list Z → list (list Z)).
Context (old_mesh : @vtkUnstructuredGrid Point DataTuple) (plan : gmap Z (gmap Z Z)).

(** The stages of a run of [__perform_polyhedron_split] that returned. *)
Lemma perform_polyhedron_split_inv new_mesh :
  __perform_polyhedron_split uninitialized cell_faces old_mesh plan = Ok new_mesh →
  ∃ pts C pd,
    split_points uninitialized (Points old_mesh) plan = Ok (pts, C) ∧
    Forall2 (λ na na' : string * vtkDataArray,
               na'.1 = na.1 ∧ copy_point_array C na.2 = Ok na'.2) (PointData old_mesh) pd ∧
    new_mesh = {| Points := pts;
                  Cells := imap (λ c cell,
                                   inserted_cell cell_faces (default ∅ (plan !! Z.of_nat c)) cell)
                             (Cells old_mesh);
                  CellData := CellData old_mesh;
                  PointData := pd;
                  FieldData := FieldData old_mesh |}.
Proof.
  unfold __perform_polyhedron_split. intros Hrun.
  apply Py_bind_Ok in Hrun as ([pts C] & Hsp & Hrun).
  rewrite relabel_cells_loop in Hrun. simpl in Hrun.
  unfold __copy_fields in Hrun. simpl in Hrun.
  apply Py_bind_Ok in Hrun as (pd & Hpd & [= <-]).
  exists pts, C, pd. split; [done|]. split; [|done].
  apply mapM_py_Forall2 in Hpd. eapply Forall2_impl; [exact Hpd|].
  intros [name a] [name' a'] Hcopy. simpl in *.
  apply Py_bind_Ok in Hcopy as (a'' & Ha & [= <- <-]). done.
Qed.

(** The split returns when the points are split and every old point that
    [collocated_nodes] names has its tuple in every point array. *)
Lemma perform_polyhedron_split_runs pts C :
  split_points uninitialized (Points old_mesh) plan = Ok (pts, C) →
  Forall (λ c, 0 ≤ c < Z.of_nat (GetNumberOfPoints old_mesh)) C →
  point_data_complete old_mesh →
  ∃ new_mesh, __perform_polyhedron_split uninitialized cell_faces old_mesh plan = Ok new_mesh.
Proof.
  intros Hsp HC Hpd. unfold __perform_polyhedron_split. rewrite Hsp. simpl.
  rewrite relabel_cells_loop. simpl. unfold __copy_fields. simpl.
  destruct (mapM_py_runs
              (λ na : string * @vtkDataArray DataTuple,
                 a ← copy_point_array C na.2; Ok (na.1, a)) (PointData old_mesh))
    as [pd Hrun].
  - intros [name a] Hin. simpl.
    unfold point_data_complete in Hpd. rewrite Forall_forall in Hpd.
    specialize (Hpd _ Hin). simpl in Hpd.
    destruct (copy_point_array_runs C a) as [a' ->]; [by rewrite Hpd|]. simpl. eauto.
  - eapply Py_bind_runs; [exact Hrun|]. eauto.
Qed.
End split_mesh.

(** ** The points and the polygons of the surface *)

Lemma GetPoint_lookup {Point : Type} (points : list Point) p :
  0 ≤ p < Z.of_nat (length points) →
  ∃ x, GetPoint points p = Ok x ∧ points !! Z.to_nat p = Some x.
Proof.
  intros Hp. unfold GetPoint. rewrite decide_True by (clear -Hp; lia).
  destruct (lookup_lt_is_Some_2 points (Z.to_nat p)) as [x Hx]; [clear -Hp; lia|].
  exists x. by rewrite Hx.
Qed.

Section fracture_points_facts.
Context {Point : Type} (uninitialized : Point).

(** Point [k] of the fracture is the mesh point of the [k]-th fracture
    node. *)
Lemma fracture_points_spec (mesh_points : list Point) (keys : list Z) pm :
  fracture_points uninitialized mesh_points keys = Ok pm →
  length pm.1 = length keys ∧
  ∀ (k : nat) n, keys !! k = Some n →
    ∃ x, pm.1 !! k = Some x ∧ GetPoint mesh_points n = Ok x.
Proof.
  unfold fracture_points. intros Hrun.
  set (Inv := λ (pre : list (Z * Z)) (st : list Point * gmap Z Z),
    length st.1 = length keys ∧
    ∀ (k : nat) n, (k < length pre)%nat → keys !! k = Some n →
      ∃ x, st.1 !! k = Some x ∧ GetPoint mesh_points n = Ok x).
  assert (Inv (enumerate keys) pm) as [Hlen Hpts].
  { eapply (py_for_partial Inv _ _ _ pm); [| |exact Hrun].
    - split; [simpl; by rewrite length_replicate|]. simpl. intros; lia.
    - clear Hrun. intros pre [i n'] post [pts m] st' Heq [Hlen Hpts] Hbody. simpl in *.
      apply enumerate_split in Heq as (Hi & Hl & _). simpl in *.
      apply Py_bind_Ok in Hbody as (coords & Hcoords & Hbody).
      apply Py_bind_Ok in Hbody as (pts' & Hset & [= <-]).
      unfold SetPoint in Hset. case_decide as Hr; [|done]. injection Hset as <-.
      subst i. rewrite Nat2Z.id. unfold Inv. simpl.
      split; [by rewrite length_insert|].
      intros k n Hk Hn. rewrite length_app in Hk. simpl in Hk.
      destruct (decide (k = length pre)) as [-> |Hne].
      + rewrite Hl in Hn. simplify_eq. exists coords.
        split; [|done]. apply list_lookup_insert_eq. lia.
      + rewrite list_lookup_insert_ne by done. apply Hpts; [lia|done]. }
  split; [done|]. intros k n Hk. apply Hpts; [|done].
  unfold enumerate. rewrite length_imap. by eapply lookup_lt_Some.
Qed.

Lemma fracture_points_runs (mesh_points : list Point) (keys : list Z) :
  (∀ n, n ∈ keys → 0 ≤ n < Z.of_nat (length mesh_points)) →
  ∃ pm, fracture_points uninitialized mesh_points keys = Ok pm.
Proof.
  intros Hkeys. unfold fracture_points.
  match goal with
  | |- ∃ r, py_for ?l ?b ?s = _ =>
      destruct (py_for_total (λ _ (st : list Point * gmap Z Z), length st.1 = length keys)
                  l b s) as (r & Hrun & _); [| |by eauto]
  end.
  { simpl. by rewrite length_replicate. }
  intros pre [i n] post [pts m] Heq Hlen. simpl in *.
  apply enumerate_split in Heq as (Hi & Hl & _). simpl in *.
  destruct (GetPoint_lookup mesh_points n) as (x & -> & _).
  { apply Hkeys. by eapply list_elem_of_lookup_2. }
  simpl. rewrite SetPoint_in_range.
  - simpl. eexists. split; [done|]. simpl. by rewrite length_insert.
  - apply lookup_lt_Some in Hl. lia.
Qed.
End fracture_points_facts.

(** The polygons are the fracture faces, renumbered by the node map. *)
Lemma polygons_Forall2 (m : gmap Z Z) (faces polygons : list (list Z)) :
  mapM_py (mapM_py (dict_item m)) faces = Ok polygons ↔
  Forall2 (Forall2 (λ n k, m !! n = Some k)) faces polygons.
Proof.
  assert (∀ fn ids, mapM_py (dict_item m) fn = Ok ids ↔
                    Forall2 (λ n k, m !! n = Some k) fn ids) as Hface.
  { intros fn ids. rewrite mapM_py_Forall2.
    split; intros H; (eapply Forall2_impl; [exact H|]); intros n k;
      unfold dict_item; destruct (m !! n); naive_solver. }
  rewrite mapM_py_Forall2.
  split; intros H; (eapply Forall2_impl; [exact H|]); intros fn ids; apply Hface.
Qed.

Lemma polygons_run (m : gmap Z Z) (faces : list (list Z)) :
  (∀ fn n, fn ∈ faces → n ∈ fn → is_Some (m !! n)) →
  ∃ polygons, mapM_py (mapM_py (dict_item m)) faces = Ok polygons.
Proof.
  intros Hm. apply mapM_py_runs. intros fn Hfn. apply mapM_py_runs.
  intros n Hn. destruct (Hm fn n Hfn Hn) as [k Hk]. exists k.
  unfold dict_item. by rewrite Hk.
Qed.

Section fracture_mesh_runs.
Context {Point DataTuple : Type} (uninitialized : Point).

(** The stages of a run of [__generate_fracture_mesh] that returned. *)
Lemma generate_fracture_mesh_inv (mesh_points : list Point) fracture_info plan
    (fracture_mesh : @vtkUnstructuredGrid Point DataTuple) :
  __generate_fracture_mesh uninitialized mesh_points fracture_info plan = Ok fracture_mesh →
  ∃ pm polygons rows,
    fracture_points uninitialized mesh_points (dict_keys (node_to_cells fracture_info))
      = Ok pm ∧
    mapM_py (mapM_py (dict_item pm.2)) (face_nodes fracture_info) = Ok polygons ∧
    fracture_mesh =
      {| Points := pm.1;
         Cells := (λ ids, {| CellType := VTK_POLYGON; PointIds := ids; Faces := [] |})
                    <$> polygons;
         CellData := [];
         PointData := [("collocated_nodes"%string, IdTypeArray rows)];
         FieldData := [] |}.
Proof.
  unfold __generate_fracture_mesh. cbn zeta. intros Hrun.
  apply Py_bind_Ok in Hrun as (pm & Hpm & Hrun).
  apply Py_bind_Ok in Hrun as (polygons & Hpoly & Hrun).
  apply Py_bind_Ok in Hrun as (buckets & Hb & Hrun).
  apply Py_bind_Ok in Hrun as (rows & Hrows & [= <-]).
  by exists pm, polygons, rows.
Qed.

(** The table of the surface is built without an exception under a plan of
    [__identify_split] for a fracture that has nodes. *)
Lemma fracture_table_runs (fracture_info : FractureInfo) (N : Z) (G : Graph) (m : gmap Z Z) :
  let ntc := node_to_cells fracture_info in
  let keys := dict_keys ntc in
  let plan := __identify_split N G ntc in
  NoDup keys →
  (∀ n, n ∈ keys → n < N) →
  (∀ n cells, (n, cells) ∈ ntc → ∃ cell, cell ∈ cells ∧ cell ∈ nodes G) →
  keys ≠ [] →
  (∀ n k, m !! n = Some k ↔ 0 ≤ k ∧ keys !! Z.to_nat k = Some n) →
  ∃ buckets rows,
    build_buckets m plan = Ok buckets ∧
    fill_collocated_nodes (length keys) buckets = Ok rows.
Proof.
  intros ntc keys plan Hnd Hlt Hcells Hne Hmap.
  assert (∀ n, n ∈ keys → ∃ o, (n, o) ∈ plan_items plan) as Hassigned.
  { intros n (item & -> & Hin)%list_elem_of_fmap. destruct item as [n cells]. simpl.
    destruct (Hcells n cells Hin) as (cell & Hc1 & Hc2).
    destruct (proj2 (identify_split_domain N G ntc cell n Hnd)) as [o Ho]; [by eauto|].
    exists o. apply elem_of_plan_items. by exists cell. }
  assert (∀ i o, (i, o) ∈ plan_items plan → i ∈ keys ∧ i ≤ o) as Hitems.
  { intros i o (cell & Hl)%elem_of_plan_items.
    apply identify_split_lookup_inv in Hl as (k & cells & j & c & Hk & _ & _ & ->); [|done].
    assert (i ∈ keys) as Hi.
    { unfold keys, dict_keys. rewrite <-sorted_items_perm. apply list_elem_of_fmap.
      exists (i, cells). split; [done|]. by eapply list_elem_of_lookup_2. }
    split; [done|]. specialize (Hlt i Hi). destruct j; simpl; lia. }
  destruct (build_buckets_spec m plan) as (buckets & Hbb & Hbuckets).
  { intros i o Hio. destruct (Hitems i o Hio) as [(k & Hk)%list_elem_of_lookup Hle].
    split; [done|]. exists (Z.of_nat k). apply Hmap. rewrite Nat2Z.id. split; [lia|done]. }
  assert (dom buckets = list_to_set (range (length keys))) as Hdom.
  { apply set_eq. intros k. rewrite elem_of_list_to_set, elem_of_range, elem_of_dom.
    rewrite Hbuckets. split.
    - case_decide as Hhit; [|by intros [? ?]]. intros _.
      apply Exists_exists in Hhit as ([i o] & _ & Hi). simpl in Hi.
      apply Hmap in Hi as [? Hi%lookup_lt_Some]. lia.
    - intros Hk. destruct (lookup_lt_is_Some_2 keys (Z.to_nat k)) as [n Hn]; [lia|].
      destruct (Hassigned n) as [o Ho]; [by eapply list_elem_of_lookup_2|].
      rewrite decide_True; [eauto|].
      apply Exists_exists. exists (n, o). split; [done|]. simpl.
      apply Hmap. split; [lia|done]. }
  destruct (fill_collocated_nodes_spec (length keys) buckets Hdom) as (rows & W & Hfill & _).
  { by destruct keys. }
  by exists buckets, rows.
Qed.
End fracture_mesh_runs.

(** ** The split, stage after stage *)

Section volumetric_runs.
Context {Point DataTuple : Type} (uninitialized : Point) (cell_faces : Z → list Z → list (list Z)).

(** Under a plan of [__identify_split] for fracture nodes that are points
    of a mesh with complete point data, [__perform_polyhedron_split]
    returns. *)
Lemma polyhedron_split_of_plan_runs (old_mesh : @vtkUnstructuredGrid Point DataTuple) G ntc :
  let N := Z.of_nat (GetNumberOfPoints old_mesh) in
  let plan := __identify_split N G ntc in
  NoDup ntc.*1 → (∀ n, n ∈ ntc.*1 → 0 ≤ n < N) →
  point_data_complete old_mesh →
  ∃ new_mesh pts C,
    __perform_polyhedron_split uninitialized cell_faces old_mesh plan = Ok new_mesh ∧
    split_points uninitialized (Points old_mesh) plan = Ok (pts, C) ∧
    Forall (λ c, 0 ≤ c < N) C.
Proof.
  intros N plan Hnd Hkeys Hpd. unfold GetNumberOfPoints in N.
  destruct (split_points_of_plan uninitialized (Points old_mesh) G ntc Hnd Hkeys)
    as (pts & C & Heq & Hl1 & Hl2 & Hadded & Hold & Hnew).
  assert (Forall (λ c, 0 ≤ c < N) C) as HC.
  { apply Forall_lookup. intros p c Hp.
    destruct (decide (p < length (Points old_mesh))%nat) as [Hlt|Hge].
    - destruct (Hold p Hlt) as [Hc _]. rewrite Hc in Hp. simplify_eq. lia.
    - pose proof (lookup_lt_Some _ _ _ Hp) as Hlen. rewrite Hl2 in Hlen.
      assert (Z.of_nat p ∈ added_points (__identify_split N G ntc)) as Hin
        by (apply Hadded; lia).
      apply elem_of_added_points in Hin as (i & Hio & Hne).
      destruct (Hnew i _ Hio Hne) as (Hi & Hc & _).
      rewrite Nat2Z.id in Hc. rewrite Hc in Hp. by simplify_eq. }
  destruct (perform_polyhedron_split_runs uninitialized cell_faces old_mesh plan pts C Heq HC Hpd)
    as [new_mesh Hrun].
  by exists new_mesh, pts, C.
Qed.
End volumetric_runs.

Section split_runs.
Context {Point DataTuple VtkOutput : Type} (uninitialized : Point) (cell_faces : Z → list Z → list (list Z)).
Context (mesh : @vtkUnstructuredGrid Point DataTuple).

(** The surface mesh is assembled without an exception when the fracture
    has a node. *)
Lemma generate_fracture_mesh_runs field field_values info G :
  faces_within_cells mesh → points_in_range mesh →
  build_fracture_info mesh field field_values = Ok info →
  build_cell_to_cell_graph mesh info = Ok G →
  node_to_cells info ≠ [] →
  ∃ fracture_mesh : @vtkUnstructuredGrid Point DataTuple,
    __generate_fracture_mesh uninitialized (Points mesh) info
      (__identify_split (Z.of_nat (GetNumberOfPoints mesh)) G (node_to_cells info))
    = Ok fracture_mesh.
Proof.
  intros Hclosed Hrange Hinfo HG Hne.
  destruct (split_plan_preconditions mesh field field_values info G Hrange Hinfo HG)
    as (Hnd & Hkeys & Hcells).
  destruct (build_fracture_info_nodes mesh field field_values info Hclosed Hinfo)
    as (_ & Hntc & _).
  destruct (fracture_points_runs uninitialized (Points mesh) (dict_keys (node_to_cells info)))
    as [pm Hpm]; [exact Hkeys|].
  pose proof (fracture_points_map uninitialized _ _ pm Hnd Hpm) as Hmap.
  destruct (polygons_run pm.2 (face_nodes info)) as [polygons Hpoly].
  { intros fn n Hfn Hn.
    assert ((n, cells_around mesh n) ∈ node_to_cells info) as Hin.
    { apply Hntc. split; [|done]. apply elem_of_concat. eauto. }
    apply list_elem_of_lookup in Hin as (k & Hk). exists (Z.of_nat k).
    apply Hmap. rewrite Nat2Z.id. split; [lia|].
    unfold dict_keys. by rewrite list_lookup_fmap, Hk. }
  destruct (fracture_table_runs info (Z.of_nat (GetNumberOfPoints mesh)) G pm.2)
    as (buckets & rows & Hb & Hrows); try done.
  { intros n Hn. apply Hkeys in Hn. lia. }
  { unfold dict_keys. by destruct (node_to_cells info). }
  unfold __generate_fracture_mesh. cbn zeta. rewrite Hpm. simpl.
  rewrite Hpoly. simpl. rewrite Hb. simpl. rewrite Hrows. simpl. eauto.
Qed.

(** A fracture without a node stops the split. *)
Lemma split_without_node_raises (options : @Options VtkOutput) info :
  build_fracture_info mesh (field options) (field_values options) = Ok info →
  node_to_cells info = [] →
  ∃ e, __split_mesh_on_fracture uninitialized cell_faces mesh options = Raise e.
Proof.
  intros Hinfo Hntc. unfold __split_mesh_on_fracture. rewrite Hinfo. simpl.
  unfold build_cell_to_cell_graph. rewrite Hntc. simpl. rewrite set_iter_empty. simpl.
  assert (∀ G, __identify_split (Z.of_nat (GetNumberOfPoints mesh)) G [] = ∅) as ->
    by done.
  destruct (__perform_polyhedron_split _ _ _) as [out|e]; simpl; [|eauto].
  unfold __generate_fracture_mesh. rewrite Hntc. simpl.
  destruct (mapM_py _ (face_nodes info)) as [polygons|e]; simpl; [|eauto].
  eauto.
Qed.

(** The split returns its two meshes exactly when the detection returns a
    fracture that has a node. *)
Lemma split_mesh_on_fracture_cases (options : @Options VtkOutput) :
  faces_within_cells mesh → points_in_range mesh → point_data_complete mesh →
  (∃ output_mesh fracture_mesh,
     __split_mesh_on_fracture uninitialized cell_faces mesh options = Ok (output_mesh, fracture_mesh)) ↔
  (∃ info, build_fracture_info mesh (field options) (field_values options) = Ok info ∧
           node_to_cells info ≠ []).
Proof.
  intros Hclosed Hrange Hpd. split.
  - intros (out & frac & Hrun).
    destruct (build_fracture_info mesh (field options) (field_values options))
      as [info|e] eqn:Hinfo.
    + exists info. split; [done|]. intros Hntc.
      destruct (split_without_node_raises options info Hinfo Hntc) as [e He].
      rewrite He in Hrun. done.
    + unfold __split_mesh_on_fracture in Hrun. rewrite Hinfo in Hrun. done.
  - intros (info & Hinfo & Hne).
    destruct (build_fracture_info_nodes mesh _ _ info Hclosed Hinfo) as (_ & Hntc & _).
    destruct (build_cell_to_cell_graph_runs mesh info) as [G HG].
    { intros n s c [_ ->]%Hntc (cell & [H0 Hl]%GetCell_Ok & _)%elem_of_cells_around.
      apply lookup_lt_Some in Hl. unfold GetNumberOfCells. lia. }
    destruct (split_plan_preconditions mesh _ _ info G Hrange Hinfo HG)
      as (Hnd & Hkeys & Hcells).
    destruct (polyhedron_split_of_plan_runs uninitialized cell_faces mesh G (node_to_cells info)
                Hnd Hkeys Hpd) as (out & _ & _ & Hout & _).
    destruct (generate_fracture_mesh_runs _ _ info G Hclosed Hrange Hinfo HG Hne)
      as [frac Hfrac].
    exists out, frac. unfold __split_mesh_on_fracture.
    rewrite Hinfo. simpl. rewrite HG. simpl. rewrite Hout. simpl. rewrite Hfrac. done.
Qed.
End split_runs.

(** ** The split under an empty plan *)

Lemma plan_items_empty : plan_items ∅ = [].
Proof. unfold plan_items. by rewrite map_to_list_empty. Qed.

Lemma relabel_cell_empty cell :
  CellType (relabel_cell ∅ cell) = CellType cell ∧ Faces (relabel_cell ∅ cell) = Faces cell.
Proof.
  split; [done|]. unfold relabel_cell. simpl.
  rewrite <-(list_fmap_id (Faces cell)) at 2. apply list_fmap_ext. intros _ face _.
  rewrite <-(list_fmap_id face) at 2. apply list_fmap_ext. intros _ p _.
  unfold get_or_self. by rewrite lookup_empty.
Qed.

Section empty_plan.
Context {Point DataTuple : Type} (uninitialized : Point) (cell_faces : Z → list Z → list (list Z)).

Lemma split_points_empty (old_points : list Point) :
  split_points uninitialized old_points ∅ = Ok (old_points, range (length old_points)).
Proof.
  destruct (split_points_spec uninitialized old_points ∅ 0)
    as (pts & C & -> & Hl1 & Hl2 & Hold & _).
  - intros i o. rewrite plan_items_empty. by intros ?%elem_of_nil.
  - intros o. unfold added_points. rewrite plan_items_empty. simpl. split; [set_solver|lia].
  - unfold added_points. by rewrite plan_items_empty.
  - intros i i' o. rewrite plan_items_empty. by intros ?%elem_of_nil.
  - rewrite Nat.add_0_r in Hl1, Hl2. do 2 f_equal.
    + apply list_eq. intros p. destruct (decide (p < length old_points)%nat) as [Hp|Hp].
      * by destruct (Hold p Hp).
      * rewrite !lookup_ge_None_2; [done|lia..].
    + apply list_eq. intros p. destruct (decide (p < length old_points)%nat) as [Hp|Hp].
      * destruct (Hold p Hp) as [-> _]. unfold range.
        rewrite list_lookup_fmap, lookup_seq_lt by done. done.
      * rewrite !lookup_ge_None_2; [done| |lia].
        unfold range. rewrite length_fmap, length_seq. lia.
Qed.

(** Under the empty plan the split gives back the points and the data,
    and every cell as [InsertNextCell] stores it. *)
Lemma polyhedron_split_empty (old_mesh : @vtkUnstructuredGrid Point DataTuple) :
  point_data_complete old_mesh →
  __perform_polyhedron_split uninitialized cell_faces old_mesh ∅
  = Ok {| Points := Points old_mesh;
          Cells := inserted_cell cell_faces ∅ <$> Cells old_mesh;
          CellData := CellData old_mesh;
          PointData := PointData old_mesh;
          FieldData := FieldData old_mesh |}.
Proof.
  intros Hpd. unfold __perform_polyhedron_split.
  rewrite split_points_empty. simpl. rewrite relabel_cells_loop. simpl.
  unfold __copy_fields. simpl.
  assert (mapM_py (λ na : string * @vtkDataArray DataTuple,
                     a ← copy_point_array (range (length (Points old_mesh))) na.2;
                     Ok (na.1, a)) (PointData old_mesh)
          = Ok (PointData old_mesh)) as ->.
  { apply mapM_py_Forall2, Forall_Forall2_diag.
    unfold point_data_complete in Hpd. eapply Forall_impl; [exact Hpd|].
    intros [name a] Ha. simpl in *. unfold GetNumberOfPoints in Ha.
    rewrite <-Ha, copy_point_array_id. done. }
  simpl. do 2 f_equal.
  rewrite <-(imap_const (inserted_cell cell_faces ∅)). apply imap_ext.
  intros c cell _. simpl. by rewrite lookup_empty.
Qed.
End empty_plan.

(** ** Detection *)

Section detection_results.
Context {Point DataTuple : Type}.
Context (mesh : @vtkUnstructuredGrid Point DataTuple).

(** X1. [build_node_to_cells] never raises.  The keys of the dict it
    returns are distinct; they are the nodes of the given faces that some
    cell uses, and each comes with the set of all the cells that use it. *)
Theorem build_node_to_cells_exact (face_nodes : list (list Z)) :
  ∃ ntc, build_node_to_cells mesh face_nodes = Ok ntc ∧
    NoDup (dict_keys ntc) ∧
    ∀ n s, (n, s) ∈ ntc ↔
      (∃ fn, fn ∈ face_nodes ∧ n ∈ fn) ∧ s = cells_around mesh n ∧ ∃ c, c ∈ s.
Proof.
  destruct (build_node_to_cells_run mesh face_nodes) as (ntc & Hrun & Hnd & Hget).
  exists ntc. split; [done|]. split; [done|].
  intros n s. rewrite (elem_of_dict_get _ _ _ Hnd), Hget, <-elem_of_concat.
  case_decide as Hd.
  - destruct Hd as [Hn Hne]. apply set_choose_L in Hne. split.
    + intros [= <-]. done.
    + intros (_ & -> & _). done.
  - split; [done|]. intros (Hn & -> & [c Hc]). exfalso. apply Hd. split; [done|].
    set_solver.
Qed.

(** X2. On a mesh that has the cell field, with one value for each cell,
    [build_fracture_info] returns when no face of a cell with an admitted
    value has two neighbours or more, and raises [AssertionError]
    otherwise. *)
Theorem build_fracture_info_outcome (field : string) (field_values : gset Z) f :
  GetArray (CellData mesh) field = Some f →
  length f = GetNumberOfCells mesh →
  (admitted_faces_conform mesh f field_values →
     ∃ info, build_fracture_info mesh field field_values = Ok info) ∧
  (¬ admitted_faces_conform mesh f field_values →
     build_fracture_info mesh field field_values = Raise AssertionError).
Proof.
  intros Hf Hlen.
  destruct (build_fracture_info_cases mesh field field_values f Hf Hlen)
    as [[Hconf Hok]|[Hconf Hraise]]; split; done.
Qed.

(** X3. What [build_fracture_info] returns on a mesh whose faces lie within
    their cells: the fracture nodes are distinct; they are the vertices of
    the fracture faces; and each of them comes with all the cells of the
    mesh that use it. *)
Theorem build_fracture_info_consistent (field : string) (field_values : gset Z) info :
  faces_within_cells mesh →
  build_fracture_info mesh field field_values = Ok info →
  NoDup (dict_keys (node_to_cells info)) ∧
  (∀ n s, (n, s) ∈ node_to_cells info ↔
          (∃ fn, fn ∈ face_nodes info ∧ n ∈ fn) ∧ s = cells_around mesh n).
Proof.
  intros Hclosed Hinfo.
  destruct (build_fracture_info_nodes mesh field field_values info Hclosed Hinfo)
    as (Hnd & Hntc & _).
  split; [done|]. intros n s. by rewrite Hntc, elem_of_concat.
Qed.

(** X4. Every fracture face that [build_fracture_info] returns is, vertex
    for vertex and in the same order, face [i] of a cell [c] with an
    admitted value that has a neighbour with another admitted value across
    it; and [(c, i)] is the first such pair with that vertex set, by cell
    and then by local face: the face is listed as the lowest of its cells
    gives it. *)
Theorem fracture_faces_first_recorder (field : string) (field_values : gset Z) info f :
  build_fracture_info mesh field field_values = Ok info →
  GetArray (CellData mesh) field = Some f →
  ∀ fn, fn ∈ face_nodes info →
    ∃ c i cell,
      GetCell mesh c = Ok cell ∧ GetFace cell i = Ok fn ∧
      qualifies mesh f field_values c i ∧
      ∀ c' i' cell' face',
        qualifies mesh f field_values c' i' →
        GetCell mesh c' = Ok cell' → GetFace cell' i' = Ok face' →
        frozenset face' = frozenset fn →
        c < c' ∨ (c = c' ∧ i ≤ i').
Proof.
  intros (f' & ctf & fh & Hf' & Hctf & Hfh & _ & ->)%build_fracture_info_inv Hf fn Hfn.
  rewrite Hf in Hf'. simplify_eq.
  destruct (build_cells_to_faces_spec mesh f' field_values ctf Hctf) as [_ Hrec].
  pose proof (build_cells_to_faces_sorted mesh f' field_values ctf Hctf) as Hsorted.
  destruct (extract_face_nodes_first mesh ctf fh Hfh fn Hfn)
    as (pre & c & i & post & cell & Hsplit & Hcell & Hface & Hmin).
  exists c, i, cell. split; [done|]. split; [done|]. split.
  { apply Hrec, elem_of_recorded_pairs. rewrite Hsplit. set_solver. }
  intros c' i' cell' face' Hq Hcell' Hface' Heq.
  apply Hrec, elem_of_recorded_pairs in Hq. rewrite Hsplit in Hq, Hsorted.
  apply elem_of_app in Hq as [Hq|Hq].
  { exfalso. by apply (Hmin c' i' cell' face' Hq). }
  apply elem_of_cons in Hq as [[= -> ->]|Hq]; [lia|].
  apply StronglySorted_app_1_r, StronglySorted_cons in Hsorted as [Hall _].
  rewrite Forall_forall in Hall. specialize (Hall _ Hq).
  unfold pair_lt in Hall. simpl in Hall. lia.
Qed.

(** X5. When no cell has an admitted value, and so when no value is
    admitted at all, [build_fracture_info] returns the empty fracture,
    whatever the mesh. *)
Theorem build_fracture_info_no_admitted_cell (field : string) (field_values : gset Z) f :
  GetArray (CellData mesh) field = Some f →
  length f = GetNumberOfCells mesh →
  Forall (λ v, v ∉ field_values) f →
  build_fracture_info mesh field field_values
  = Ok {| node_to_cells := []; face_nodes := [] |}.
Proof.
  intros Hf Hlen Hout. unfold build_fracture_info. rewrite Hf. simpl.
  assert (build_cells_to_faces mesh f field_values = Ok []) as ->.
  { unfold build_cells_to_faces.
    match goal with
    | |- py_for ?l ?b ?s = _ =>
        destruct (py_for_total (λ _ (d : list (Z * list Z)), d = []) l b s)
          as (r & -> & Hr); [done| |by rewrite Hr]
    end.
    intros pre c post d Heq ->. cbn beta.
    assert (c ∈ range (GetNumberOfCells mesh)) as Hc%elem_of_range
      by (rewrite Heq; set_solver).
    destruct (getitem_in_range f c) as (v & Hv & Hgi); [lia|].
    rewrite (Py_bind_val _ _ _ Hgi). rewrite Forall_forall in Hout.
    rewrite decide_True; [eauto|]. apply Hout. by eapply list_elem_of_lookup_2. }
  simpl. destruct (build_node_to_cells_run mesh []) as (ntc & -> & _ & Hget). simpl.
  destruct ntc as [|[n s] ntc]; [done|].
  specialize (Hget n). cbn [dict_get] in Hget. rewrite decide_True in Hget by done.
  rewrite decide_False in Hget; [done|]. intros [Hd _]. by apply elem_of_nil in Hd.
Qed.
End detection_results.

(** ** The cell-to-cell graph *)

Section graph_results.
Context {Point DataTuple : Type}.
Context (mesh : @vtkUnstructuredGrid Point DataTuple).

(** X6. The graph that [build_cell_to_cell_graph] returns has for nodes the
    cells listed under the fracture nodes.  Two cells are adjacent exactly
    when some vertex set that is not a fracture face is the vertex set of
    two faces in all among the cells of the graph, one on each of them (or
    both on the one cell): a face of the fracture makes no edge, and
    neither does a face that three cells share. *)
Theorem cell_to_cell_graph_nodes_and_edges fracture G :
  build_cell_to_cell_graph mesh fracture = Ok G →
  (∀ c, c ∈ nodes G ↔ ∃ n s, (n, s) ∈ node_to_cells fracture ∧ c ∈ s) ∧
  (∀ a b, adjacent G a b ↔
     ∃ h, ¬ fracture_face fracture h ∧ face_incidences mesh (nodes G) h ≡ₚ [a; b]).
Proof. apply build_cell_to_cell_graph_spec. Qed.

(** X7. [build_cell_to_cell_graph] returns a graph, without an exception,
    when every cell listed under a fracture node is a cell of the mesh. *)
Theorem cell_to_cell_graph_returns fracture :
  (∀ n s c, (n, s) ∈ node_to_cells fracture → c ∈ s →
     0 ≤ c < Z.of_nat (GetNumberOfCells mesh)) →
  ∃ G, build_cell_to_cell_graph mesh fracture = Ok G.
Proof. apply build_cell_to_cell_graph_runs. Qed.
End graph_results.

(** ** The split plan *)

(** X8. The plan maps a node in a cell exactly when the node is a fracture
    node, the cell is listed around it, and the cell is a node of the
    graph: cells away from the fracture, and nodes that are not on it, are
    never renumbered. *)
Theorem identify_split_entries N G ntc cell n :
  NoDup ntc.*1 →
  is_Some (plan_lookup (__identify_split N G ntc) cell n) ↔
  ∃ cells, (n, cells) ∈ ntc ∧ cell ∈ cells ∧ cell ∈ nodes G.
Proof. apply identify_split_domain. Qed.

(** X9. The plan does not depend on the order in which the dict
    [node_to_cells] lists the fracture nodes. *)
Theorem identify_split_order_independent N G ntc ntc' :
  NoDup ntc.*1 → ntc ≡ₚ ntc' →
  __identify_split N G ntc = __identify_split N G ntc'.
Proof.
  intros Hnd Hperm. unfold __identify_split. by rewrite (sorted_items_unique ntc ntc').
Qed.

Lemma length_NewIndex_calls self l : length (NewIndex_calls self l) = length l.
Proof. revert self. induction l as [|x l IH]; intros self; simpl; [done|]. by rewrite IH. Qed.

(** X10. A generator made by [NewIndex(N)] answers the call with an index
    it meets for the first time with that index, and every other call with
    the next integer from [N] on: the [k]-th call, when its index was met
    before, returns [N] plus the number of earlier calls that met their
    index again. *)
Theorem NewIndex_calls_spec (N : Z) (l : list Z) :
  NewIndex_calls (NewIndex_init N) l
  = imap (λ k i, if decide (i ∈ take k l)
                 then N + Z.of_nat (k - size (list_to_set (take k l) : gset Z))
                 else i) l.
Proof.
  apply list_eq. intros k. rewrite list_lookup_imap.
  destruct (l !! k) as [i|] eqn:Hk; simpl.
  - rewrite (NewIndex_calls_lookup _ _ _ _ Hk). f_equal. simpl.
    apply if_decide_ext; [set_solver|]. intros _.
    rewrite difference_empty_L. lia.
  - apply lookup_ge_None_2. rewrite length_NewIndex_calls. by apply lookup_ge_None_1.
Qed.

(** ** The volumetric mesh *)

Section volumetric_results.
Context {Point DataTuple : Type} (uninitialized : Point) (cell_faces : Z → list Z → list (list Z)).

(** X11. The split adds one point for each connected component after the
    first around each fracture node: the returned mesh has
    [N + Σ (k_n - 1)] points, where [k_n] counts the components around
    node [n]. *)
Theorem polyhedron_split_point_count (old_mesh new_mesh : @vtkUnstructuredGrid Point DataTuple)
    G ntc :
  let N := Z.of_nat (GetNumberOfPoints old_mesh) in
  NoDup ntc.*1 → (∀ n, n ∈ ntc.*1 → 0 ≤ n < N) →
  __perform_polyhedron_split uninitialized cell_faces old_mesh (__identify_split N G ntc) = Ok new_mesh →
  GetNumberOfPoints new_mesh = (GetNumberOfPoints old_mesh + extra_components G ntc)%nat.
Proof.
  intros N Hnd Hkeys Hrun. unfold GetNumberOfPoints in *.
  apply perform_polyhedron_split_inv in Hrun as (pts & C & pd & Hsp & _ & ->). simpl.
  destruct (split_points_of_plan uninitialized (Points old_mesh) G ntc Hnd Hkeys)
    as (pts' & C' & Heq & Hl1 & _).
  fold N in Heq. rewrite Hsp in Heq. simplify_eq. rewrite Hl1. f_equal.
  fold N. rewrite (plan_added_size N G ntc Hnd Hkeys).
  apply extra_components_perm, sorted_items_perm.
Qed.

(** X12. Point data will be duplicated for collocated nodes.  Under a plan
    of [__identify_split], on a mesh whose point arrays are complete, the
    split returns; the cell data and the field data are those of the
    input; every point array keeps its place and its name and has one
    tuple for each new point: an old point keeps its tuple, and a
    replacement has the tuple of the node it replaces. *)
Theorem polyhedron_split_point_data (old_mesh : @vtkUnstructuredGrid Point DataTuple) G ntc :
  let N := Z.of_nat (GetNumberOfPoints old_mesh) in
  let plan := __identify_split N G ntc in
  NoDup ntc.*1 → (∀ n, n ∈ ntc.*1 → 0 ≤ n < N) →
  point_data_complete old_mesh →
  ∃ new_mesh,
    __perform_polyhedron_split uninitialized cell_faces old_mesh plan = Ok new_mesh ∧
    CellData new_mesh = CellData old_mesh ∧
    FieldData new_mesh = FieldData old_mesh ∧
    length (PointData new_mesh) = length (PointData old_mesh) ∧
    ∀ (k : nat) name a, PointData old_mesh !! k = Some (name, a) →
      ∃ a', PointData new_mesh !! k = Some (name, a') ∧
        GetNumberOfTuples a' = GetNumberOfPoints new_mesh ∧
        (∀ p : nat, (p < GetNumberOfPoints old_mesh)%nat → tuple_at a' p = tuple_at a p) ∧
        (∀ cell i o, plan_lookup plan cell i = Some o → o ≠ i →
           tuple_at a' (Z.to_nat o) = tuple_at a (Z.to_nat i)).
Proof.
  intros N plan Hnd Hkeys Hpd.
  destruct (polyhedron_split_of_plan_runs uninitialized cell_faces old_mesh G ntc Hnd Hkeys Hpd)
    as (new_mesh & pts & C & Hrun & Hsp & _).
  exists new_mesh. split; [done|].
  apply perform_polyhedron_split_inv in Hrun as (pts' & C' & pd & Hsp' & Hpd' & ->).
  subst plan N. unfold GetNumberOfPoints in *.
  rewrite Hsp in Hsp'. simplify_eq. simpl.
  destruct (split_points_of_plan uninitialized (Points old_mesh) G ntc Hnd Hkeys)
    as (pts & C & Heq & Hl1 & Hl2 & _ & Hold & Hnew).
  rewrite Hsp in Heq. simplify_eq.
  split; [done|]. split; [done|]. split; [symmetry; by eapply Forall2_length|].
  intros k name a Hk.
  destruct (Forall2_lookup_l _ _ _ _ _ Hpd' Hk) as ([name' a'] & Hk' & Hname & Hcopy).
  simpl in *. subst name'. exists a'. split; [done|].
  destruct (copy_point_array_spec C a a' Hcopy) as [Hlen Htup].
  split; [congruence|]. split.
  - intros p Hp. destruct (Hold p Hp) as [Hc _].
    destruct (Htup p _ Hc) as (_ & _ & ->). by rewrite Nat2Z.id.
  - intros cell i o Hl Hne.
    destruct (Hnew i o) as (_ & Hc & _); [apply elem_of_plan_items; eauto|done|].
    by destruct (Htup _ _ Hc) as (_ & _ & ->).
Qed.

(** X13. Under the empty plan the split gives the mesh back: the same
    points and the same cell, point and field data; every cell keeps its
    type, and every polyhedron keeps its faces. *)
Theorem polyhedron_split_empty_plan (old_mesh : @vtkUnstructuredGrid Point DataTuple) :
  point_data_complete old_mesh →
  ∃ new_mesh,
    __perform_polyhedron_split uninitialized cell_faces old_mesh ∅ = Ok new_mesh ∧
    Points new_mesh = Points old_mesh ∧
    CellData new_mesh = CellData old_mesh ∧
    PointData new_mesh = PointData old_mesh ∧
    FieldData new_mesh = FieldData old_mesh ∧
    Forall2 (λ cell cell', CellType cell' = CellType cell ∧
                           (CellType cell = VTK_POLYHEDRON → Faces cell' = Faces cell))
      (Cells old_mesh) (Cells new_mesh).
Proof.
  intros Hpd. eexists. split; [by apply polyhedron_split_empty|]. simpl.
  split_and!; try done.
  apply Forall2_fmap_r, Forall_Forall2_diag, Forall_forall.
  intros cell _. split; [apply inserted_cell_type|].
  intros Ht. rewrite inserted_cell_polyhedron by done. apply relabel_cell_empty.
Qed.

(** X14. On a mesh of polyhedra the split keeps the cells within the
    points: when every face of the input lies within its cell and every
    cell is made of points of the input, every cell of the returned mesh
    is made of points of the returned mesh. *)
Theorem polyhedron_split_points_in_range
    (old_mesh new_mesh : @vtkUnstructuredGrid Point DataTuple) G ntc :
  let N := Z.of_nat (GetNumberOfPoints old_mesh) in
  NoDup ntc.*1 → (∀ n, n ∈ ntc.*1 → 0 ≤ n < N) →
  polyhedral old_mesh →
  faces_within_cells old_mesh → points_in_range old_mesh →
  __perform_polyhedron_split uninitialized cell_faces old_mesh (__identify_split N G ntc)
    = Ok new_mesh →
  points_in_range new_mesh.
Proof.
  intros N Hnd Hkeys Hpoly Hclosed Hrange Hrun.
  apply perform_polyhedron_split_inv in Hrun as (pts & C & pd & Hsp & _ & ->).
  subst N. unfold points_in_range, GetNumberOfPoints in *. simpl.
  destruct (split_points_of_plan uninitialized (Points old_mesh) G ntc Hnd Hkeys)
    as (pts' & C' & Heq & Hl1 & _ & Hadded & _).
  rewrite Hsp in Heq. simplify_eq. rewrite Hl1.
  apply Forall_lookup. intros c cell' Hc. rewrite list_lookup_imap in Hc.
  destruct (Cells old_mesh !! c) as [cell|] eqn:Hcell; [|done]. simpl in Hc. simplify_eq.
  rewrite inserted_cell_polyhedron.
  2:{ unfold polyhedral in Hpoly. rewrite Forall_forall in Hpoly.
      apply Hpoly. by eapply list_elem_of_lookup_2. }
  apply Forall_forall. intros p' Hp'. unfold relabel_cell in Hp'. simpl in Hp'.
  apply elem_of_set_iter in Hp'. unfold frozenset in Hp'.
  apply elem_of_list_to_set, elem_of_concat in Hp' as (face' & Hface' & Hp').
  apply list_elem_of_fmap in Hface' as (face & -> & Hface).
  apply list_elem_of_fmap in Hp' as (p & -> & Hp).
  assert (0 ≤ p < Z.of_nat (length (Points old_mesh))) as Hpr.
  { rewrite Forall_forall in Hrange.
    specialize (Hrange cell (list_elem_of_lookup_2 _ _ _ Hcell)).
    rewrite Forall_forall in Hrange. apply Hrange.
    unfold faces_within_cells in Hclosed. rewrite Forall_forall in Hclosed.
    specialize (Hclosed cell (list_elem_of_lookup_2 _ _ _ Hcell)).
    rewrite Forall_forall in Hclosed. specialize (Hclosed face Hface).
    unfold uses_points in Hclosed. rewrite Forall_forall in Hclosed. by apply Hclosed. }
  unfold get_or_self.
  destruct (default ∅ (__identify_split _ G ntc !! Z.of_nat c) !! p) as [o|] eqn:Ho;
    simpl; [|lia].
  assert (plan_lookup (__identify_split (Z.of_nat (length (Points old_mesh))) G ntc)
            (Z.of_nat c) p = Some o) as Hl.
  { unfold plan_lookup.
    destruct (__identify_split _ G ntc !! Z.of_nat c) as [m|]; simpl in *; [done|].
    by rewrite lookup_empty in Ho. }
  destruct (decide (o = p)) as [-> |Hne]; [lia|].
  assert (o ∈ added_points (__identify_split (Z.of_nat (length (Points old_mesh))) G ntc))
    as Hin%Hadded; [|lia].
  apply elem_of_added_points. exists p. split; [|done].
  apply elem_of_plan_items. eauto.
Qed.
End volumetric_results.

(** ** The surface mesh *)

Section surface_results.
Context {Point DataTuple : Type} (uninitialized : Point).

(** X15. The surface mesh that [__generate_fracture_mesh] returns has one
    point for each fracture node, at the place of that node, and one
    polygon for each fracture face: polygon [j] lists, in the order of
    face [j], the surface points of its nodes, so that each of its
    vertices lies where the node of the face lies. *)
Theorem fracture_mesh_geometry (mesh_points : list Point) (fracture_info : FractureInfo)
    (plan : gmap Z (gmap Z Z)) (fracture_mesh : @vtkUnstructuredGrid Point DataTuple) :
  let fracture_nodes := dict_keys (node_to_cells fracture_info) in
  NoDup fracture_nodes →
  __generate_fracture_mesh uninitialized mesh_points fracture_info plan = Ok fracture_mesh →
  length (Points fracture_mesh) = length fracture_nodes ∧
  (∀ (k : nat) n, fracture_nodes !! k = Some n →
     ∃ x, Points fracture_mesh !! k = Some x ∧ GetPoint mesh_points n = Ok x) ∧
  length (Cells fracture_mesh) = length (face_nodes fracture_info) ∧
  (∀ (j : nat) fn, face_nodes fracture_info !! j = Some fn →
     ∃ polygon, Cells fracture_mesh !! j = Some polygon ∧
       CellType polygon = VTK_POLYGON ∧
       length (PointIds polygon) = length fn ∧
       ∀ (i : nat) n, fn !! i = Some n →
         ∃ k x, PointIds polygon !! i = Some k ∧ 0 ≤ k ∧
           fracture_nodes !! Z.to_nat k = Some n ∧
           Points fracture_mesh !! Z.to_nat k = Some x ∧
           GetPoint mesh_points n = Ok x).
Proof.
  intros keys Hnd Hrun.
  apply generate_fracture_mesh_inv in Hrun as (pm & polygons & rows & Hpm & Hpoly & ->).
  fold keys in Hpm. simpl.
  destruct (fracture_points_spec uninitialized mesh_points keys pm Hpm) as [Hlen Hpts].
  pose proof (fracture_points_map uninitialized mesh_points keys pm Hnd Hpm) as Hmap.
  apply polygons_Forall2 in Hpoly.
  split; [done|]. split; [done|].
  split; [rewrite length_fmap; symmetry; by eapply Forall2_length|].
  intros j fn Hj.
  destruct (Forall2_lookup_l _ _ _ _ _ Hpoly Hj) as (ids & Hids & Hface).
  eexists. split; [by rewrite list_lookup_fmap, Hids|]. simpl.
  split; [done|]. split; [symmetry; by eapply Forall2_length|].
  intros i n Hi.
  destruct (Forall2_lookup_l _ _ _ _ _ Hface Hi) as (k & Hk & Hm).
  apply Hmap in Hm as [Hk0 Hkey].
  destruct (Hpts _ _ Hkey) as (x & Hx & Hget).
  by exists k, x.
Qed.
End surface_results.

(** ** The whole split *)

Section split_results.
Context {Point DataTuple VtkOutput : Type} (uninitialized : Point) (cell_faces : Z → list Z → list (list Z)).
Context (mesh : @vtkUnstructuredGrid Point DataTuple).

(** X16. On a mesh whose faces lie within their cells, whose cells are
    made of points of the mesh and whose point arrays are complete,
    [__split_mesh_on_fracture] returns its two meshes exactly when
    [build_fracture_info] returns a fracture that has a node. *)
Theorem split_mesh_on_fracture_returns (options : @Options VtkOutput) :
  faces_within_cells mesh → points_in_range mesh → point_data_complete mesh →
  (∃ output_mesh fracture_mesh,
     __split_mesh_on_fracture uninitialized cell_faces mesh options = Ok (output_mesh, fracture_mesh)) ↔
  (∃ info, build_fracture_info mesh (field options) (field_values options) = Ok info ∧
           node_to_cells info ≠ []).
Proof. apply split_mesh_on_fracture_cases. Qed.

(** X17. When the detection finds no fracture face, the split of a mesh
    with complete point arrays raises the [ValueError] of [max] on an
    empty sequence, after having split the volumetric mesh. *)
Theorem split_without_fracture_face_raises (options : @Options VtkOutput) info :
  point_data_complete mesh →
  build_fracture_info mesh (field options) (field_values options) = Ok info →
  face_nodes info = [] →
  __split_mesh_on_fracture uninitialized cell_faces mesh options = Raise (ValueError max_empty_message).
Proof.
  intros Hpd Hinfo Hfaces. unfold __split_mesh_on_fracture. rewrite Hinfo. simpl.
  assert (info = {| node_to_cells := []; face_nodes := [] |}) as ->.
  { apply build_fracture_info_inv in Hinfo as (f & ctf & fh & _ & _ & _ & Hntc & Hfh).
    rewrite <-Hfh, Hfaces in Hntc. apply build_node_to_cells_nil in Hntc.
    destruct info as [ntc fns]. simpl in *. congruence. }
  rewrite build_cell_to_cell_graph_empty. simpl. rewrite identify_split_empty.
  rewrite (polyhedron_split_empty uninitialized cell_faces mesh Hpd). simpl.
  by rewrite generate_fracture_mesh_empty.
Qed.
End split_results.

(** ** The check *)

Section check_errors.
Context {Point DataTuple VtkOutput World : Type} (uninitialized : Point) (cell_faces : Z → list Z → list (list Z)).
Context (read_mesh : string → World → Py (@vtkUnstructuredGrid Point DataTuple)).
Context (write_mesh : @vtkUnstructuredGrid Point DataTuple → VtkOutput → World
                      → Py unit * World).
Context (logging_error : Exception → World → World).

(** X18. When the mesh that was read has no cell field of the name asked
    for, [check] writes nothing: it hands the [ValueError] that names the
    field to the log and returns the result "Something went wrong". *)
Theorem check_missing_field (vtk_input_file : string) (options : @Options VtkOutput)
    (w : World) mesh :
  read_mesh vtk_input_file w = Ok mesh →
  GetArray (CellData mesh) (field options) = None →
  check uninitialized cell_faces read_mesh write_mesh logging_error vtk_input_file options w
  = ({| info := "Something went wrong" |},
     logging_error (ValueError (missing_field_message (field options))) w).
Proof.
  intros Hread Hfield. unfold check, __check, __split_mesh_on_fracture, build_fracture_info.
  rewrite Hread, Hfield. done.
Qed.
End check_errors.

(** * The theorems on the example meshes *)

Lemma build_fracture_info_faces_witness :
  faces_within_cells two_hexahedra ∧
  ∃ info, build_fracture_info two_hexahedra "attribute" {[1; 2]} = Ok info ∧
    NoDup (frozenset <$> face_nodes info).
Proof.
  assert (faces_within_cells two_hexahedra) as Hwf by compute_done.
  split; [exact Hwf|].
  assert (∃ info, build_fracture_info two_hexahedra "attribute" {[1; 2]} = Ok info)
    as [info Hrun] by (eexists; vm_compute; reflexivity).
  exists info. split; [exact Hrun|].
  destruct (build_fracture_info_faces two_hexahedra "attribute" {[1; 2]} info Hwf Hrun)
    as (f & _ & _ & _ & Hnd).
  exact Hnd.
Defined.

Lemma identify_split_component_count_witness :
  let plan := __identify_split 6 graph_0_3_1 node_to_cells_5_2 in
  size (assigned_ids plan {[0; 3]} 5)
  = length (connected_components (subgraph graph_0_3_1 {[0; 3]})) ∧
  5 ∈ assigned_ids plan {[0; 3]} 5.
Proof.
  destruct (identify_split_component_count 6 graph_0_3_1 node_to_cells_5_2 5 {[0; 3]})
    as (H1 & H2 & _).
  - by compute_done.
  - by compute_done.
  - lia.
  - exists 0. split; by compute_done.
  - split; [exact H1|exact H2].
Defined.


Lemma keys_two_hexahedra_in_range :
  ∀ n, n ∈ node_to_cells_two_hexahedra.*1 → 0 ≤ n < 12.
Proof.
  apply (Forall_forall (λ n, 0 ≤ n < 12)). by compute_done.
Defined.

Lemma collocated_nodes_spec_witness :
  let plan := __identify_split 12 graph_two_hexahedra node_to_cells_two_hexahedra in
  ∃ new_points collocated_nodes,
    split_points (0, 0, 0) (Points two_hexahedra) plan = Ok (new_points, collocated_nodes) ∧
    length new_points = length collocated_nodes ∧
    ∀ i, 0 ≤ i < 12 → collocated_nodes !! Z.to_nat i = Some i.
Proof.
  destruct (collocated_nodes_spec (0, 0, 0) no_derived_faces two_hexahedra
              graph_two_hexahedra node_to_cells_two_hexahedra)
    as (pts & C & H1 & H2 & H3 & _).
  - by compute_done.
  - exact keys_two_hexahedra_in_range.
  - exists pts, C. split; [exact H1|]. split; [exact H2|exact H3].
Defined.


Lemma fracture_mesh_collocated_nodes_witness :
  let plan := __identify_split 12 graph_two_hexahedra node_to_cells_two_hexahedra in
  ∃ (fracture_mesh : @vtkUnstructuredGrid (Z * Z * Z) Z) rows,
    __generate_fracture_mesh (0, 0, 0) (Points two_hexahedra) fracture_two_hexahedra plan
    = Ok fracture_mesh ∧
    PointData fracture_mesh = [("collocated_nodes"%string, IdTypeArray rows)] ∧
    length rows = 4%nat.
Proof.
  assert (∃ pm, fracture_points (0, 0, 0) (Points two_hexahedra)
                  (dict_keys node_to_cells_two_hexahedra) = Ok pm)
    as [pm Hpm] by (eexists; vm_compute; reflexivity).
  assert (∃ polygons, mapM_py (mapM_py (dict_item pm.2)) [[4; 5; 6; 7]] = Ok polygons)
    as [polygons Hpoly].
  { revert Hpm. vm_compute. intros [= <-]. eexists. reflexivity. }
  destruct (fracture_mesh_collocated_nodes (DataTuple := Z) (0, 0, 0) (Points two_hexahedra)
              fracture_two_hexahedra 12 graph_two_hexahedra pm polygons)
    as (fm & rows & W & H1 & H2 & H3 & _).
  - by compute_done.
  - intros n Hn. apply keys_two_hexahedra_in_range in Hn. lia.
  - assert (Forall (λ item : Z * gset Z, 0 ∈ item.2) node_to_cells_two_hexahedra) as Hall
      by compute_done.
    intros n cells Hin. exists 0. split; [|by compute_done].
    rewrite Forall_forall in Hall. apply (Hall (n, cells) Hin).
  - done.
  - exact Hpm.
  - exact Hpoly.
  - exists fm, rows. split; [exact H1|]. split; [exact H2|exact H3].
Defined.

Lemma build_fracture_info_outcome_witness :
  (∃ info, build_fracture_info two_hexahedra "attribute" {[1; 2]} = Ok info) ∧
  build_fracture_info three_on_a_face "attribute" {[1; 2; 3]} = Raise AssertionError.
Proof.
  split.
  - apply (build_fracture_info_outcome two_hexahedra "attribute" {[1; 2]} [1; 2]);
      [reflexivity|reflexivity|by compute_done].
  - apply (build_fracture_info_outcome three_on_a_face "attribute" {[1; 2; 3]} [1; 2; 3]);
      [reflexivity|reflexivity|by compute_done].
Defined.

Lemma check_missing_field_witness :
  check_example "two_hexahedra.vtu" "porosity" {[1; 2]}
  = ({| info := "Something went wrong" |}, [ValueError (missing_field_message "porosity")]).
Proof.
  apply (check_missing_field (0, 0, 0) no_derived_faces read_mesh_example write_mesh_example cons
           "two_hexahedra.vtu" (options_for "porosity" {[1; 2]}) [] two_hexahedra);
    reflexivity.
Defined.

Lemma build_fracture_info_consistent_witness :
  ∃ info, build_fracture_info two_hexahedra "attribute" {[1; 2]} = Ok info ∧
    NoDup (dict_keys (node_to_cells info)) ∧
    ∀ n s, (n, s) ∈ node_to_cells info ↔
           (∃ fn, fn ∈ face_nodes info ∧ n ∈ fn) ∧ s = cells_around two_hexahedra n.
Proof.
  assert (∃ info, build_fracture_info two_hexahedra "attribute" {[1; 2]} = Ok info)
    as [info Hrun] by (eexists; vm_compute; reflexivity).
  exists info. split; [exact Hrun|].
  destruct (build_fracture_info_consistent two_hexahedra "attribute" {[1; 2]} info)
    as [H1 H2].
  - by compute_done.
  - exact Hrun.
  - split; [exact H1|exact H2].
Defined.

Lemma fracture_faces_first_recorder_witness :
  ∃ info, build_fracture_info two_hexahedra "attribute" {[1; 2]} = Ok info ∧
    ∀ fn, fn ∈ face_nodes info →
      ∃ c i cell, GetCell two_hexahedra c = Ok cell ∧ GetFace cell i = Ok fn.
Proof.
  assert (∃ info, build_fracture_info two_hexahedra "attribute" {[1; 2]} = Ok info)
    as [info Hrun] by (eexists; vm_compute; reflexivity).
  exists info. split; [exact Hrun|]. intros fn Hfn.
  destruct (fracture_faces_first_recorder two_hexahedra "attribute" {[1; 2]} info [1; 2]
              Hrun eq_refl fn Hfn) as (c & i & cell & H1 & H2 & _).
  exists c, i, cell. split; [exact H1|exact H2].
Defined.

Lemma build_fracture_info_no_admitted_cell_witness :
  build_fracture_info two_hexahedra "attribute" ∅
  = Ok {| node_to_cells := []; face_nodes := [] |}.
Proof.
  apply (build_fracture_info_no_admitted_cell two_hexahedra "attribute" ∅ [1; 2]);
    [reflexivity|reflexivity|by compute_done].
Defined.

Lemma cell_to_cell_graph_nodes_and_edges_witness :
  ∃ G, build_cell_to_cell_graph two_hexahedra fracture_two_hexahedra = Ok G ∧
    ∀ c, c ∈ nodes G ↔ ∃ n s, (n, s) ∈ node_to_cells fracture_two_hexahedra ∧ c ∈ s.
Proof.
  assert (∃ G, build_cell_to_cell_graph two_hexahedra fracture_two_hexahedra = Ok G)
    as [G Hrun] by (eexists; vm_compute; reflexivity).
  exists G. split; [exact Hrun|].
  destruct (cell_to_cell_graph_nodes_and_edges two_hexahedra fracture_two_hexahedra G Hrun)
    as [H1 _].
  exact H1.
Defined.

Lemma cell_to_cell_graph_returns_witness :
  ∃ G, build_cell_to_cell_graph two_hexahedra fracture_two_hexahedra = Ok G.
Proof.
  apply (cell_to_cell_graph_returns two_hexahedra fracture_two_hexahedra).
  assert (Forall (λ item : Z * gset Z, set_Forall (λ c, 0 ≤ c < 2) item.2)
            node_to_cells_two_hexahedra) as Hall by compute_done.
  intros n s c Hin Hc. rewrite Forall_forall in Hall. apply (Hall (n, s) Hin c Hc).
Defined.

Lemma identify_split_entries_witness :
  is_Some (plan_lookup (__identify_split 6 graph_0_3_1 node_to_cells_5_2) 3 5) ↔
  ∃ cells, (5, cells) ∈ node_to_cells_5_2 ∧ 3 ∈ cells ∧ 3 ∈ nodes graph_0_3_1.
Proof.
  apply (identify_split_entries 6 graph_0_3_1 node_to_cells_5_2 3 5). by compute_done.
Defined.

Lemma identify_split_order_independent_witness :
  __identify_split 6 graph_0_3_1 node_to_cells_5_2
  = __identify_split 6 graph_0_3_1 [(2, {[1; 3]}); (5, {[0; 3]})].
Proof.
  apply (identify_split_order_independent 6 graph_0_3_1 node_to_cells_5_2).
  - by compute_done.
  - unfold node_to_cells_5_2. apply perm_swap.
Defined.

Lemma polyhedron_split_point_count_witness :
  ∃ new_mesh,
    __perform_polyhedron_split (0, 0, 0) no_derived_faces two_hexahedra
      (__identify_split 12 graph_two_hexahedra node_to_cells_two_hexahedra) = Ok new_mesh ∧
    GetNumberOfPoints new_mesh
    = (12 + extra_components graph_two_hexahedra node_to_cells_two_hexahedra)%nat.
Proof.
  assert (∃ new_mesh,
            __perform_polyhedron_split (0, 0, 0) no_derived_faces two_hexahedra
              (__identify_split 12 graph_two_hexahedra node_to_cells_two_hexahedra)
            = Ok new_mesh) as [new_mesh Hrun] by (eexists; vm_compute; reflexivity).
  exists new_mesh. split; [exact Hrun|].
  apply (polyhedron_split_point_count (0, 0, 0) no_derived_faces two_hexahedra new_mesh
           graph_two_hexahedra node_to_cells_two_hexahedra).
  - by compute_done.
  - exact keys_two_hexahedra_in_range.
  - exact Hrun.
Defined.

Lemma polyhedron_split_point_data_witness :
  ∃ new_mesh,
    __perform_polyhedron_split (0, 0, 0) no_derived_faces two_hexahedra_with_data
      (__identify_split 12 graph_two_hexahedra node_to_cells_two_hexahedra) = Ok new_mesh ∧
    CellData new_mesh = CellData two_hexahedra_with_data ∧
    FieldData new_mesh = FieldData two_hexahedra_with_data ∧
    length (PointData new_mesh) = 2%nat.
Proof.
  destruct (polyhedron_split_point_data (0, 0, 0) no_derived_faces two_hexahedra_with_data
              graph_two_hexahedra node_to_cells_two_hexahedra)
    as (new_mesh & H1 & H2 & H3 & H4 & _).
  - by compute_done.
  - exact keys_two_hexahedra_in_range.
  - by compute_done.
  - exists new_mesh. split; [exact H1|]. split; [exact H2|]. split; [exact H3|exact H4].
Defined.

Lemma polyhedron_split_empty_plan_witness :
  ∃ new_mesh,
    __perform_polyhedron_split (0, 0, 0) no_derived_faces two_hexahedra_with_data ∅ = Ok new_mesh ∧
    Points new_mesh = Points two_hexahedra_with_data ∧
    PointData new_mesh = PointData two_hexahedra_with_data ∧
    ∃ cell', Cells new_mesh !! 0%nat = Some cell' ∧
      Faces cell' = Faces (hexahedron 0 1 2 3 4 5 6 7).
Proof.
  destruct (polyhedron_split_empty_plan (0, 0, 0) no_derived_faces two_hexahedra_with_data)
    as (new_mesh & H1 & H2 & _ & H3 & _ & H4).
  - by compute_done.
  - exists new_mesh. split; [exact H1|]. split; [exact H2|]. split; [exact H3|].
    destruct (Forall2_lookup_l _ _ _ 0%nat (hexahedron 0 1 2 3 4 5 6 7) H4 eq_refl)
      as (cell' & Hc & _ & Hf).
    exists cell'. split; [exact Hc|]. apply Hf. reflexivity.
Defined.

Lemma polyhedron_split_points_in_range_witness :
  ∃ new_mesh,
    __perform_polyhedron_split (0, 0, 0) no_derived_faces two_hexahedra
      (__identify_split 12 graph_two_hexahedra node_to_cells_two_hexahedra) = Ok new_mesh ∧
    points_in_range new_mesh.
Proof.
  assert (∃ new_mesh,
            __perform_polyhedron_split (0, 0, 0) no_derived_faces two_hexahedra
              (__identify_split 12 graph_two_hexahedra node_to_cells_two_hexahedra)
            = Ok new_mesh) as [new_mesh Hrun] by (eexists; vm_compute; reflexivity).
  exists new_mesh. split; [exact Hrun|].
  apply (polyhedron_split_points_in_range (0, 0, 0) no_derived_faces two_hexahedra new_mesh
           graph_two_hexahedra node_to_cells_two_hexahedra).
  - by compute_done.
  - exact keys_two_hexahedra_in_range.
  - unfold polyhedral. by compute_done.
  - by compute_done.
  - unfold points_in_range. by compute_done.
  - exact Hrun.
Defined.

(** The split is for polyhedra: the tetrahedron of type [VTK_TETRA] comes
    out with its face stream as its points, seventeen of them, among them
    the face count 4, which is no point of the mesh. *)
Lemma tetrahedron_split_garbled (cell_faces : Z → list Z → list (list Z)) :
  faces_within_cells one_tetrahedron ∧ points_in_range one_tetrahedron ∧
  ∃ new_mesh,
    __perform_polyhedron_split (0, 0, 0) cell_faces one_tetrahedron ∅ = Ok new_mesh ∧
    PointIds <$> Cells new_mesh = [[4; 3; 0; 1; 3; 3; 1; 2; 3; 3; 2; 0; 3; 3; 0; 2; 1]] ∧
    ¬ points_in_range new_mesh.
Proof.
  split; [by compute_done|]. split; [unfold points_in_range; by compute_done|].
  eexists. split; [apply polyhedron_split_empty; by compute_done|].
  split; [reflexivity|].
  unfold points_in_range. intros H.
  apply Forall_inv, Forall_inv in H. destruct H as [_ H]. vm_compute in H. discriminate.
Qed.

Lemma fracture_mesh_geometry_witness :
  ∃ fracture_mesh : @vtkUnstructuredGrid (Z * Z * Z) Z,
    __generate_fracture_mesh (0, 0, 0) (Points two_hexahedra) fracture_two_hexahedra
      (__identify_split 12 graph_two_hexahedra node_to_cells_two_hexahedra)
    = Ok fracture_mesh ∧
    length (Points fracture_mesh) = 4%nat ∧
    length (Cells fracture_mesh) = 1%nat.
Proof.
  assert (∃ fracture_mesh : @vtkUnstructuredGrid (Z * Z * Z) Z,
            __generate_fracture_mesh (0, 0, 0) (Points two_hexahedra) fracture_two_hexahedra
              (__identify_split 12 graph_two_hexahedra node_to_cells_two_hexahedra)
            = Ok fracture_mesh) as [fm Hrun] by (eexists; vm_compute; reflexivity).
  exists fm. split; [exact Hrun|].
  destruct (fracture_mesh_geometry (0, 0, 0) (Points two_hexahedra) fracture_two_hexahedra
              (__identify_split 12 graph_two_hexahedra node_to_cells_two_hexahedra) fm)
    as (H1 & _ & H2 & _).
  - by compute_done.
  - exact Hrun.
  - split; [exact H1|exact H2].
Defined.

Lemma split_mesh_on_fracture_returns_witness :
  ∃ output_mesh fracture_mesh,
    __split_mesh_on_fracture (0, 0, 0) no_derived_faces two_hexahedra (options_for "attribute" {[1; 2]})
    = Ok (output_mesh, fracture_mesh).
Proof.
  apply (split_mesh_on_fracture_returns (0, 0, 0) no_derived_faces two_hexahedra
           (options_for "attribute" {[1; 2]})).
  - by compute_done.
  - unfold points_in_range. by compute_done.
  - by compute_done.
  - eexists. split; [vm_compute; reflexivity|]. discriminate.
Defined.

Lemma split_without_fracture_face_raises_witness :
  __split_mesh_on_fracture (0, 0, 0) no_derived_faces two_hexahedra_with_data (options_for "attribute" {[1]})
  = Raise (ValueError max_empty_message).
Proof.
  apply (split_without_fracture_face_raises (0, 0, 0) no_derived_faces two_hexahedra_with_data
           (options_for "attribute" {[1]}) {| node_to_cells := []; face_nodes := [] |}).
  - by compute_done.
  - vm_compute. reflexivity.
  - reflexivity.
Defined.
